(** * DugeonCrawler: the game logic of [logic.cpp], embedded and verified

    The development follows the C++ translation unit function by
    function.  Integers of type [int] are values of [Z]; an arithmetic
    operation whose mathematical result leaves the 32-bit range is a
    signed overflow, which C++ leaves undefined, and is reported as a
    [Fault].  The dungeon map, a [char **] whose rows are separately
    allocated arrays, is a list of rows; an access outside the
    allocated storage is a [Fault] too.  The player and the map that
    [doPlayerMove] and [doMonsterAttack] mutate through references and
    pointers live in a [World] threaded by a small state monad. *)

From Stdlib Require Import ZArith List Ascii String Bool Lia.
From Stdlib Require Import Floats.PrimFloat Numbers.Cyclic.Int63.Uint63.
From stdpp Require Import base tactics option list strings.

Local Open Scope Z_scope.

(** ** Constants of the header

    [logic.h] is not part of the sources at hand: the tile symbols and
    the movement status codes it declares are taken as parameters. *)

Class LogicH : Type := {
  TILE_OPEN : ascii;
  TILE_PLAYER : ascii;
  TILE_TREASURE : ascii;
  TILE_AMULET : ascii;
  TILE_MONSTER : ascii;
  TILE_PILLAR : ascii;
  TILE_DOOR : ascii;
  TILE_EXIT : ascii;
  STATUS_STAY : Z;
  STATUS_MOVE : Z;
  STATUS_TREASURE : Z;
  STATUS_AMULET : Z;
  STATUS_LEAVE : Z;
  STATUS_ESCAPE : Z;
  MOVE_UP : ascii;
  MOVE_DOWN : ascii;
  MOVE_LEFT : ascii;
  MOVE_RIGHT : ascii
}.

(** The eight tile symbols are pairwise different characters. *)
Definition tiles_distinct `{LogicH} : Prop :=
  NoDup [TILE_OPEN; TILE_PLAYER; TILE_TREASURE; TILE_AMULET;
         TILE_MONSTER; TILE_PILLAR; TILE_DOOR; TILE_EXIT].

(** The four keys are different characters, as the labels of one
    [switch] are. *)
Definition keys_distinct `{LogicH} : Prop :=
  NoDup [MOVE_UP; MOVE_DOWN; MOVE_LEFT; MOVE_RIGHT].

(** [struct Player { int row; int col; int treasure; }] *)
Record Player : Type := mkPlayer { row : Z; col : Z; treasure : Z }.

Definition INT32_MAX : Z := 2147483647.
Definition INT32_MIN : Z := -2147483648.

(** ** Faults and results *)

Inductive fault : Type :=
| OutOfBounds      (* access outside an allocated array *)
| SignedOverflow   (* int arithmetic leaving the 32-bit range *)
| BadArrayLength   (* new[] with a negative length *)
| NullPointer      (* dereference of nullptr *)
| OutOfFuel        (* the loop bound of the model was too small *)
| InvalidDelete.   (* delete[] of a pointer that designates no live array *)

Inductive result (A : Type) : Type :=
| Done (a : A)
| Fault (e : fault).
Arguments Done {A} a.
Arguments Fault {A} e.

Definition rbind {A B : Type} (x : result A) (k : A -> result B) : result B :=
  match x with
  | Done a => k a
  | Fault e => Fault e
  end.

Declare Scope result_scope.
Delimit Scope result_scope with result.
Notation "x <- c1 ;; c2" := (rbind c1 (fun x => c2))
  (at level 100, c1 at next level, right associativity) : result_scope.
Notation "c1 ;; c2" := (rbind c1 (fun _ => c2))
  (at level 100, right associativity) : result_scope.

Definition in_int (z : Z) : bool := (INT32_MIN <=? z) && (z <=? INT32_MAX).

(** Checked [int] arithmetic. *)
Definition int_add (a b : Z) : result Z :=
  if in_int (a + b) then Done (a + b) else Fault SignedOverflow.
Definition int_sub (a b : Z) : result Z :=
  if in_int (a - b) then Done (a - b) else Fault SignedOverflow.
Definition int_mul (a b : Z) : result Z :=
  if in_int (a * b) then Done (a * b) else Fault SignedOverflow.

(** ** The map storage *)

Abbreviation grid := (list (list ascii)).

(** [shape g R C]: the storage has [R] rows of [C] cells each. *)
Definition shape (g : grid) (R C : Z) : Prop :=
  Z.of_nat (length g) = R /\ Forall (fun line => Z.of_nat (length line) = C) g.

(** read of [map[r][c]] *)
Definition load_cell (g : grid) (r c : Z) : result ascii :=
  if (r <? 0) || (c <? 0) then Fault OutOfBounds
  else match g !! Z.to_nat r with
       | Some line =>
           match line !! Z.to_nat c with
           | Some x => Done x
           | None => Fault OutOfBounds
           end
       | None => Fault OutOfBounds
       end.

(** write [map[r][c] = x] *)
Definition store_cell (g : grid) (r c : Z) (x : ascii) : result grid :=
  if (r <? 0) || (c <? 0) then Fault OutOfBounds
  else match g !! Z.to_nat r with
       | Some line =>
           if decide (Z.to_nat c < length line)%nat
           then Done (<[Z.to_nat r := <[Z.to_nat c := x]> line]> g)
           else Fault OutOfBounds
       | None => Fault OutOfBounds
       end.

(** ** Counted loops and allocation *)

Fixpoint iterate {St : Type} (n : nat) (i : Z) (body : Z -> St -> result St) (s : St)
  : result St :=
  match n with
  | O => Done s
  | S n' => rbind (body i s) (iterate n' (i + 1) body)
  end.

(** [for (int i = lo; i < hi; i++) body], for a body that assigns
    neither [i] nor [hi]: [hi - lo] passes when [lo < hi], none otherwise. *)
Definition for_range {St : Type} (lo hi : Z) (body : Z -> St -> result St) (s : St)
  : result St :=
  iterate (Z.to_nat (hi - lo)) lo body s.

(** [new T[n]]: a negative length throws.  Memory is never exhausted in
    the model. *)
Definition new_array {A : Type} (n : Z) (init : A) : result (list A) :=
  if n <? 0 then Fault BadArrayLength else Done (replicate (Z.to_nat n) init).

(** [mat[i] = line], the assignment of a row pointer *)
Definition store_row (g : grid) (i : Z) (line : list ascii) : result grid :=
  if i <? 0 then Fault OutOfBounds
  else if decide (Z.to_nat i < length g)%nat
       then Done (<[Z.to_nat i := line]> g)
       else Fault OutOfBounds.

(** reads through a [char **] that may be [nullptr] *)
Definition load_map (map : option grid) (r c : Z) : result ascii :=
  match map with
  | Some g => load_cell g r c
  | None => Fault NullPointer
  end.

Definition load_row (map : option grid) (r : Z) : result (list ascii) :=
  match map with
  | Some g =>
      if r <? 0 then Fault OutOfBounds
      else match g !! Z.to_nat r with
           | Some line => Done line
           | None => Fault OutOfBounds
           end
  | None => Fault NullPointer
  end.

(** conversion of an [int] to [double], exact on the whole [int] range *)
Definition double_of_int (z : Z) : float :=
  if z <? 0 then PrimFloat.opp (PrimFloat.of_uint63 (Uint63.of_Z (- z)))
  else PrimFloat.of_uint63 (Uint63.of_Z z).

(** ** The input file stream

    A model of the part of [std::ifstream] that [loadLevel] uses: a
    file system maps a name to the characters of the file, when it can
    be opened; an extraction on a stream that has failed does nothing. *)

Record ifstream : Type := mkStream {
  is_open : bool;
  failbit : bool;
  pending : list ascii
}.

Definition file_system : Type := string -> option (list ascii).

Definition open (fs : file_system) (fileName : string) : ifstream :=
  match fs fileName with
  | Some text => mkStream true false text
  | None => mkStream false true []
  end.

Definition is_space (a : ascii) : bool :=
  let n := Z.of_N (N_of_ascii a) in (n =? 32) || ((9 <=? n) && (n <=? 13)).

Fixpoint skip_space (s : list ascii) : list ascii :=
  match s with
  | a :: s' => if is_space a then skip_space s' else s
  | [] => []
  end.

Definition digit_of (a : ascii) : option Z :=
  let n := Z.of_N (N_of_ascii a) in
  if (48 <=? n) && (n <=? 57) then Some (n - 48) else None.

Fixpoint read_digits (acc : Z) (s : list ascii) : Z * list ascii :=
  match s with
  | a :: s' =>
      match digit_of a with
      | Some d => read_digits (10 * acc + d) s'
      | None => (acc, s)
      end
  | [] => (acc, [])
  end.

Definition fail_stream (f : ifstream) (s : list ascii) : ifstream :=
  mkStream (is_open f) true s.

(** [f >> x] for an [int x]: leading white space is skipped, then an
    optional sign and decimal digits are read.  Without a digit the
    extraction fails and stores 0; a value outside the [int] range
    fails and stores the nearest bound; at the end of the input, or on
    a stream that has already failed, it fails and leaves [x] as it was. *)
Definition extract_int (f : ifstream) (old : Z) : Z * ifstream :=
  if failbit f then (old, f)
  else
    match skip_space (pending f) with
    | [] => (old, fail_stream f [])
    | a :: s =>
        let '(negative, s1) :=
          if bool_decide (a = "-"%char) then (true, s)
          else if bool_decide (a = "+"%char) then (false, s)
          else (false, a :: s) in
        match s1 with
        | d :: _ =>
            match digit_of d with
            | Some _ =>
                let '(v, s2) := read_digits 0 s1 in
                let v := if negative then - v else v in
                if v >? INT32_MAX then (INT32_MAX, fail_stream f s2)
                else if v <? INT32_MIN then (INT32_MIN, fail_stream f s2)
                else (v, mkStream (is_open f) false s2)
            | None => (0, fail_stream f s1)
            end
        | [] => (0, fail_stream f [])
        end
    end.

(** [f >> x] for a [char x]: the next character that is not white space. *)
Definition extract_char (f : ifstream) (old : ascii) : ascii * ifstream :=
  if failbit f then (old, f)
  else
    match skip_space (pending f) with
    | [] => (old, fail_stream f [])
    | a :: s => (a, mkStream (is_open f) false s)
    end.

(** the characters of a text that are not white space, in order *)
Definition tokens_of (s : list ascii) : list ascii :=
  List.filter (fun a => negb (is_space a)) s.

(** The state of the loop that reads the cells when [k] of them have
    been read, in row-major order, from the tokens [T]. *)
Definition read_so_far (R C : Z) (T : list ascii) (k : Z) (st : grid * ifstream) : Prop :=
  shape st.1 R C /\
  failbit st.2 = false /\
  tokens_of (pending st.2) = drop (Z.to_nat k) T /\
  forall r c, 0 <= r < R -> 0 <= c < C -> r * C + c < k ->
    exists x, T !! Z.to_nat (r * C + c) = Some x /\ load_cell st.1 r c = Done x.

Section Storage.
Context `{LogicH}.
(** what a freshly allocated [char] holds before it is assigned *)
Variable indeterminate : ascii.
Local Open Scope result_scope.

(** ** createMap *)

Definition createMap (maxRow maxCol : Z) : result (option grid) :=
  if (maxRow <? 0) || (maxCol <? 0) then Done None
  else
    mat <- new_array maxRow [] ;;
    mat <- for_range 0 maxRow (fun i mat =>
             line <- new_array maxCol indeterminate ;;
             store_row mat i line) mat ;;
    mat <- for_range 0 maxRow (fun r mat =>
             for_range 0 maxCol (fun c mat =>
               store_cell mat r c TILE_OPEN) mat) mat ;;
    Done (Some mat).

(** ** deleteMap

    The rows and the row array are released; what remains for the
    caller are the two variables passed by reference. *)
Definition deleteMap (map : option grid) (maxRow : Z) : result (option grid * Z) :=
  for_range 0 maxRow (fun r (u : unit) =>
    _ <- load_row map r ;; Done u) tt ;;
  Done (None, 0).

(** ** resizeMap *)

(** the condition of the [if] whose body is empty *)
Definition resize_guard (map : option grid) (maxRow maxCol : Z) : bool :=
  bool_decide (map = None)
  || PrimFloat.ltb (PrimFloat.div (double_of_int INT32_MAX) 2%float) (double_of_int maxRow)
  || PrimFloat.ltb (PrimFloat.div (double_of_int INT32_MAX) 2%float) (double_of_int maxCol).

(** the tile at [(r, c)], for coordinates inside the storage *)
Definition tile_at (g : grid) (r c : Z) : ascii :=
  match load_cell g r c with
  | Done x => x
  | Fault _ => TILE_OPEN
  end.

(** a tile of the source map as the three replicated quadrants show
    it: Player becomes Open *)
Definition player_as_open (x : ascii) : ascii :=
  if bool_decide (x = TILE_PLAYER) then TILE_OPEN else x.

(** the body shared by the sections B, C and D, with [ra], [ca] the
    source coordinates *)
Definition copy_without_player (map : option grid) (ra ca r c : Z) (mat : grid)
  : result grid :=
  x <- load_map map ra ca ;;
  if bool_decide (x <> TILE_PLAYER)
  then (y <- load_map map ra ca ;; store_cell mat r c y)
  else store_cell mat r c TILE_OPEN.

Definition resizeMap (map : option grid) (maxRow maxCol : Z)
  : result (option grid * Z * Z) :=
  (if resize_guard map maxRow maxCol then Done tt else Done tt) ;;
  nrl <- int_mul maxRow 2 ;;
  ncl <- int_mul maxCol 2 ;;
  mat <- new_array nrl [] ;;
  mat <- for_range 0 nrl (fun r mat =>
           line <- new_array ncl indeterminate ;;
           store_row mat r line) mat ;;
  (* Section A *)
  mat <- for_range 0 maxRow (fun r mat =>
           for_range 0 maxCol (fun c mat =>
             x <- load_map map r c ;;
             store_cell mat r c x) mat) mat ;;
  (* Section B *)
  mat <- for_range 0 maxRow (fun r mat =>
           for_range maxCol ncl (fun c mat =>
             ca <- int_sub c maxCol ;;
             copy_without_player map r ca r c mat) mat) mat ;;
  (* section C *)
  mat <- for_range maxRow nrl (fun r mat =>
           for_range 0 maxCol (fun c mat =>
             ra <- int_sub r maxRow ;;
             copy_without_player map ra c r c mat) mat) mat ;;
  (* section D *)
  mat <- for_range maxRow nrl (fun r mat =>
           for_range maxCol ncl (fun c mat =>
             ra <- int_sub r maxRow ;;
             ca <- int_sub c maxCol ;;
             copy_without_player map ra ca r c mat) mat) mat ;;
  released <- deleteMap map maxRow ;;
  let maxRow := nrl in
  let maxCol := ncl in
  Done (Some mat, maxRow, maxCol).

(** ** loadLevel *)

(** the test that guards the allocation *)
Definition load_guard (maxRow maxCol : Z) : bool :=
  negb (maxRow =? 0)
  && PrimFloat.ltb
       (PrimFloat.div (double_of_int INT32_MAX)
                      (PrimFloat.mul (double_of_int maxRow) 1%float))
       (double_of_int maxCol).

(** The result is the returned pointer together with the three
    variables the function updates through references. *)
Definition loadLevel (fs : file_system) (fileName : string)
  (maxRow maxCol : Z) (player : Player)
  : result (option grid * Z * Z * Player) :=
  let f := open fs fileName in
  if negb (is_open f) then Done (None, maxRow, maxCol, player)
  else
    let '(maxRow, f) := extract_int f maxRow in
    let '(maxCol, f) := extract_int f maxCol in
    let '(prow, f) := extract_int f (row player) in
    let '(pcol, f) := extract_int f (col player) in
    let player := mkPlayer prow pcol (treasure player) in
    if load_guard maxRow maxCol then Done (None, maxRow, maxCol, player)
    else
      mat <- new_array maxRow [] ;;
      mat <- for_range 0 maxRow (fun i mat =>
               line <- new_array maxCol indeterminate ;;
               store_row mat i line) mat ;;
      filled <- for_range 0 maxRow (fun r st =>
                  for_range 0 maxCol (fun c '(mat, f) =>
                    old <- load_cell mat r c ;;
                    let '(x, f) := extract_char f old in
                    mat <- store_cell mat r c x ;;
                    Done (mat, f)) st) (mat, f) ;;
      mat <- store_cell filled.1 (row player) (col player) TILE_PLAYER ;;
      Done (Some mat, maxRow, maxCol, player).

(** ** getDirection *)

Definition getDirection (input : ascii) (nextRow nextCol : Z) : result (Z * Z) :=
  if bool_decide (input = MOVE_UP) then
    nextRow <- int_sub nextRow 1 ;; Done (nextRow, nextCol)
  else if bool_decide (input = MOVE_DOWN) then
    nextRow <- int_add nextRow 1 ;; Done (nextRow, nextCol)
  else if bool_decide (input = MOVE_LEFT) then
    nextCol <- int_sub nextCol 1 ;; Done (nextRow, nextCol)
  else if bool_decide (input = MOVE_RIGHT) then
    nextCol <- int_add nextCol 1 ;; Done (nextRow, nextCol)
  else Done (nextRow, nextCol).

End Storage.

(** ** The state monad of a turn *)

Record World : Type := mkWorld { cells : grid; player : Player }.

Definition M (A : Type) : Type := World -> result (A * World).

Definition ret {A : Type} (a : A) : M A := fun w => Done (a, w).
Definition bind {A B : Type} (m : M A) (k : A -> M B) : M B :=
  fun w => match m w with
           | Done (a, w') => k a w'
           | Fault e => Fault e
           end.
Definition lift {A : Type} (x : result A) : M A :=
  fun w => match x with
           | Done a => Done (a, w)
           | Fault e => Fault e
           end.

Declare Scope turn_scope.
Delimit Scope turn_scope with turn.
Notation "x <- c1 ;; c2" := (bind c1 (fun x => c2)) : turn_scope.
Notation "c1 ;; c2" := (bind c1 (fun _ => c2)) : turn_scope.

Definition get_cell (r c : Z) : M ascii :=
  fun w => lift (load_cell (cells w) r c) w.
Definition set_cell (r c : Z) (x : ascii) : M unit :=
  fun w => match store_cell (cells w) r c x with
           | Done g => Done (tt, mkWorld g (player w))
           | Fault e => Fault e
           end.
Definition player_row : M Z := fun w => Done (row (player w), w).
Definition player_col : M Z := fun w => Done (col (player w), w).
Definition player_treasure : M Z := fun w => Done (treasure (player w), w).
Definition set_player_row (z : Z) : M unit :=
  fun w => Done (tt, mkWorld (cells w) (mkPlayer z (col (player w)) (treasure (player w)))).
Definition set_player_col (z : Z) : M unit :=
  fun w => Done (tt, mkWorld (cells w) (mkPlayer (row (player w)) z (treasure (player w)))).
Definition set_player_treasure (z : Z) : M unit :=
  fun w => Done (tt, mkWorld (cells w) (mkPlayer (row (player w)) (col (player w)) z)).

Section Logic.
Context `{LogicH}.
Local Open Scope turn_scope.

(** ** doPlayerMove *)

(** The map and the player are those of the world; the result is the
    status code. *)
Definition doPlayerMove (maxRow maxCol nextRow nextCol : Z) : M Z :=
  if (nextRow >=? maxRow) || (nextRow <? 0) || (nextCol >=? maxCol) || (nextCol <? 0)
  then ret STATUS_STAY
  else
    nextTile <- get_cell nextRow nextCol ;;
    if bool_decide (nextTile = TILE_PILLAR) || bool_decide (nextTile = TILE_MONSTER)
    then ret STATUS_STAY
    else
      let tempStatus := STATUS_MOVE in
      let tempStatus :=
        if bool_decide (nextTile = TILE_DOOR) then STATUS_LEAVE else tempStatus in
      (* on TILE_EXIT: return STATUS_STAY when player.treasure == 0,
         tempStatus = STATUS_ESCAPE when player.treasure > 0 *)
      t <- player_treasure ;;
      if bool_decide (nextTile = TILE_EXIT) && (t =? 0)
      then ret STATUS_STAY
      else
        let tempStatus :=
          if bool_decide (nextTile = TILE_EXIT) && (t >? 0)
          then STATUS_ESCAPE else tempStatus in
        let tempStatus :=
          if bool_decide (nextTile = TILE_AMULET) then STATUS_AMULET else tempStatus in
        tempStatus <-
          (if bool_decide (nextTile = TILE_TREASURE)
           then (t <- player_treasure ;;
                 t' <- lift (int_add t 1) ;;
                 set_player_treasure t' ;;
                 ret STATUS_TREASURE)
           else ret tempStatus) ;;
        cr <- player_row ;;
        cc <- player_col ;;
        set_cell cr cc TILE_OPEN ;;
        set_player_row nextRow ;;
        set_player_col nextCol ;;
        pr <- player_row ;;
        pc <- player_col ;;
        set_cell pr pc TILE_PLAYER ;;
        ret tempStatus.

(** ** doMonsterAttack *)

(** [int dir[4][2] = {{1, 0}, {-1, 0}, {0, 1}, {0, -1}}] *)
Definition dir (i : nat) : Z * Z :=
  match i with
  | 0%nat => (1, 0)
  | 1%nat => (-1, 0)
  | 2%nat => (0, 1)
  | _ => (0, -1)
  end.

(** the condition of the [while] *)
Definition ray_cond (maxRow maxCol r c : Z) : bool :=
  (r <? maxRow) && (r >=? 0) && (c <? maxCol) && (c >=? 0).

(** One pass through the body of the [while]: [None] is the [break],
    [Some (r', c')] the loop variables for the next test. *)
Definition ray_body (dr dc r c : Z) : M (option (Z * Z)) :=
  t <- get_cell r c ;;
  if bool_decide (t = TILE_PILLAR) then ret None
  else
    t <- get_cell r c ;;
    (if bool_decide (t = TILE_MONSTER)
     then (r0 <- lift (int_sub r dr) ;;
           c0 <- lift (int_sub c dc) ;;
           set_cell r0 c0 TILE_MONSTER ;;
           set_cell r c TILE_OPEN)
     else ret tt) ;;
    r' <- lift (int_add r dr) ;;
    c' <- lift (int_add c dc) ;;
    ret (Some (r', c')).

(** The [while] loop; [fuel] bounds the number of passes. *)
Fixpoint ray_loop (fuel : nat) (maxRow maxCol dr dc r c : Z) : M unit :=
  if ray_cond maxRow maxCol r c then
    match fuel with
    | O => lift (Fault OutOfFuel)
    | S fuel' =>
        next <- ray_body dr dc r c ;;
        match next with
        | Some (r', c') => ray_loop fuel' maxRow maxCol dr dc r' c'
        | None => ret tt
        end
    end
  else ret tt.

(** the body of [for (int i = 0; i < 4; i++)] *)
Definition scan_direction (fuel : nat) (maxRow maxCol : Z) (i : nat) : M unit :=
  pr <- player_row ;;
  r <- lift (int_add pr (dir i).1) ;;
  pc <- player_col ;;
  c <- lift (int_add pc (dir i).2) ;;
  ray_loop fuel maxRow maxCol (dir i).1 (dir i).2 r c.

Fixpoint for_each (l : list nat) (body : nat -> M unit) : M unit :=
  match l with
  | [] => ret tt
  | i :: l' => body i ;; for_each l' body
  end.

(** The four scans, then the test of the player's cell; [fuel] is the
    bound handed to each [while]. *)
Definition doMonsterAttack (fuel : nat) (maxRow maxCol : Z) : M bool :=
  for_each [0; 1; 2; 3]%nat (scan_direction fuel maxRow maxCol) ;;
  pr <- player_row ;;
  pc <- player_col ;;
  t <- get_cell pr pc ;;
  if bool_decide (t = TILE_MONSTER) then ret true else ret false.

(** The states a ray scan passes through at the top of its [while]:
    the least relation closed under one pass of the body. *)
Inductive ray_reach (maxRow maxCol dr dc : Z) :
  World * Z * Z -> World * Z * Z -> Prop :=
| ray_reach_start s : ray_reach maxRow maxCol dr dc s s
| ray_reach_pass s w r c w' r' c' :
    ray_reach maxRow maxCol dr dc s (w, r, c) ->
    ray_cond maxRow maxCol r c = true ->
    ray_body dr dc r c w = Done (Some (r', c'), w') ->
    ray_reach maxRow maxCol dr dc s (w', r', c').

(** ** Rays

    The cell at distance [n] from [(r0, c0)] in the direction
    [(dr, dc)] is [(r0 + n * dr, c0 + n * dc)]. *)
Definition ray_cell (g : grid) (r0 c0 dr dc n : Z) : result ascii :=
  load_cell g (r0 + n * dr) (c0 + n * dc).

(** [in_sight g maxRow maxCol r0 c0 dr dc n]: the cell at distance [n]
    lies inside the map and no cell at a distance from [1] to [n - 1]
    holds a Pillar. *)
Definition in_sight (g : grid) (maxRow maxCol r0 c0 dr dc n : Z) : Prop :=
  ray_cond maxRow maxCol (r0 + n * dr) (c0 + n * dc) = true /\
  forall i, 1 <= i < n -> ray_cell g r0 c0 dr dc i <> Done TILE_PILLAR.

(** What one ray scan from the cell next to [(r0, c0)] does to the map
    [g], giving [g']: a cell only ever changes to Monster or to Open,
    and never to Open at [(r0, c0)]; cells off the ray are untouched;
    on the ray, a cell becomes Monster when the next cell is a Monster
    in sight, becomes Open when it is itself a Monster in sight whose
    successor is no Monster, and is unchanged otherwise. *)
Definition ray_effect (g g' : grid) (maxRow maxCol r0 c0 dr dc : Z) : Prop :=
  (forall r c,
      load_cell g' r c = load_cell g r c \/
      load_cell g' r c = Done TILE_MONSTER \/
      ((r, c) <> (r0, c0) /\ load_cell g' r c = Done TILE_OPEN)) /\
  (forall r c,
      (forall n, 0 <= n -> (r, c) <> (r0 + n * dr, c0 + n * dc)) ->
      load_cell g' r c = load_cell g r c) /\
  (forall n, 0 <= n ->
      in_sight g maxRow maxCol r0 c0 dr dc (n + 1) ->
      ray_cell g r0 c0 dr dc (n + 1) = Done TILE_MONSTER ->
      ray_cell g' r0 c0 dr dc n = Done TILE_MONSTER) /\
  (forall n, 1 <= n ->
      in_sight g maxRow maxCol r0 c0 dr dc n ->
      ray_cell g r0 c0 dr dc n = Done TILE_MONSTER ->
      ray_cell g r0 c0 dr dc (n + 1) <> Done TILE_MONSTER ->
      ray_cell g' r0 c0 dr dc n = Done TILE_OPEN) /\
  (forall n, 0 <= n ->
      ~ (in_sight g maxRow maxCol r0 c0 dr dc (n + 1) /\
         ray_cell g r0 c0 dr dc (n + 1) = Done TILE_MONSTER) ->
      ~ (1 <= n /\ in_sight g maxRow maxCol r0 c0 dr dc n /\
         ray_cell g r0 c0 dr dc n = Done TILE_MONSTER) ->
      ray_cell g' r0 c0 dr dc n = ray_cell g r0 c0 dr dc n).

(** What a sequence of scans does to the cell [(r0, c0)] of the player
    and to the other cells. *)
Definition monsters_only (g g' : grid) (r0 c0 : Z) : Prop :=
  forall r c,
    load_cell g' r c = load_cell g r c \/
    load_cell g' r c = Done TILE_MONSTER \/
    ((r, c) <> (r0, c0) /\ load_cell g' r c = Done TILE_OPEN).

(** the four directions of the table [dir] *)
Definition is_dir (dr dc : Z) : Prop :=
  (dr = 1 /\ dc = 0) \/ (dr = -1 /\ dc = 0) \/ (dr = 0 /\ dc = 1) \/ (dr = 0 /\ dc = -1).

(** an upper bound on the passes a scan still makes from [(r, c)] *)
Definition passes_left (maxRow maxCol dr dc r c : Z) : Z :=
  (if dr =? 1 then maxRow - r else if dr =? -1 then r + 1 else 0) +
  (if dc =? 1 then maxCol - c else if dc =? -1 then c + 1 else 0).

(** ** Well-formed game states *)

(** The storage has the declared dimensions, which are [int]s, and the
    player stands inside the map. *)
Definition wf_world (maxRow maxCol : Z) (w : World) : Prop :=
  shape (cells w) maxRow maxCol /\
  maxRow <= INT32_MAX /\ maxCol <= INT32_MAX /\
  0 <= row (player w) < maxRow /\ 0 <= col (player w) < maxCol.

(** [only_player_at g r c]: the cell [(r, c)] holds the Player tile and
    no other cell of the storage does. *)
Definition only_player_at (g : grid) (r c : Z) : Prop :=
  load_cell g r c = Done TILE_PLAYER /\
  forall r' c', load_cell g r' c' = Done TILE_PLAYER -> r' = r /\ c' = c.

End Logic.

(** ** The heap

    The functions above compute with the content of the map.  What
    [new[]] and [delete[]] do to the free store is the subject of this
    second reading of [loadLevel] and [deleteMap], in which a [char **]
    is an address, every [new[]] adds an array to the heap and every
    [delete[]] releases one. *)

Module Heap.

(** a value of type [char *] or [char **] *)
Inductive ptr : Type :=
| Null              (* nullptr *)
| At (a : nat)      (* the array at address a *)
| Wild.             (* indeterminate: an element of a new char *[n] never assigned *)

Inductive block : Type :=
| Chars (line : list ascii)    (* made by new char[n] *)
| Rows (lines : list ptr).     (* made by new char *[n] *)

(** The heap holds the arrays in the order of their allocation: the
    address of an array is its index.  A released array leaves [None]
    behind, and its address is not given out again. *)
Abbreviation heap := (list (option block)).

Definition H (A : Type) : Type := heap -> result (A * heap).

Definition ret {A : Type} (a : A) : H A := fun h => Done (a, h).
Definition bind {A B : Type} (m : H A) (k : A -> H B) : H B :=
  fun h => match m h with
           | Done (a, h') => k a h'
           | Fault e => Fault e
           end.

Declare Scope heap_scope.
Delimit Scope heap_scope with heap.
Notation "x <- c1 ;; c2" := (bind c1 (fun x => c2)) : heap_scope.
Notation "c1 ;; c2" := (bind c1 (fun _ => c2)) : heap_scope.

(** [new char[n]] *)
Definition new_chars (n : Z) (init : ascii) : H ptr :=
  fun h => if n <? 0 then Fault BadArrayLength
           else Done (At (length h), h ++ [Some (Chars (replicate (Z.to_nat n) init))]).

(** [new char *[n]] *)
Definition new_rows (n : Z) : H ptr :=
  fun h => if n <? 0 then Fault BadArrayLength
           else Done (At (length h), h ++ [Some (Rows (replicate (Z.to_nat n) Wild))]).

(** [delete[] p]: nothing on [nullptr], the release of a live array *)
Definition delete_array (p : ptr) : H unit :=
  fun h => match p with
           | Null => Done (tt, h)
           | At a =>
               match h !! a with
               | Some (Some _) => Done (tt, <[a := None]> h)
               | _ => Fault InvalidDelete
               end
           | Wild => Fault InvalidDelete
           end.

(** read of [p[r]] for a [char **p] *)
Definition load_row (p : ptr) (r : Z) : H ptr :=
  fun h => match p with
           | Null => Fault NullPointer
           | At a =>
               match h !! a with
               | Some (Some (Rows lines)) =>
                   if r <? 0 then Fault OutOfBounds
                   else match lines !! Z.to_nat r with
                        | Some q => Done (q, h)
                        | None => Fault OutOfBounds
                        end
               | _ => Fault OutOfBounds
               end
           | Wild => Fault OutOfBounds
           end.

(** write [p[r] = q] for a [char **p] *)
Definition store_row (p : ptr) (r : Z) (q : ptr) : H unit :=
  fun h => match p with
           | Null => Fault NullPointer
           | At a =>
               match h !! a with
               | Some (Some (Rows lines)) =>
                   if r <? 0 then Fault OutOfBounds
                   else if decide (Z.to_nat r < length lines)%nat
                        then Done (tt, <[a := Some (Rows (<[Z.to_nat r := q]> lines))]> h)
                        else Fault OutOfBounds
               | _ => Fault OutOfBounds
               end
           | Wild => Fault OutOfBounds
           end.

(** read of [q[c]] for a [char *q] *)
Definition load_char (q : ptr) (c : Z) : H ascii :=
  fun h => match q with
           | Null => Fault NullPointer
           | At a =>
               match h !! a with
               | Some (Some (Chars line)) =>
                   if c <? 0 then Fault OutOfBounds
                   else match line !! Z.to_nat c with
                        | Some x => Done (x, h)
                        | None => Fault OutOfBounds
                        end
               | _ => Fault OutOfBounds
               end
           | Wild => Fault OutOfBounds
           end.

(** write [q[c] = x] for a [char *q] *)
Definition store_char (q : ptr) (c : Z) (x : ascii) : H unit :=
  fun h => match q with
           | Null => Fault NullPointer
           | At a =>
               match h !! a with
               | Some (Some (Chars line)) =>
                   if c <? 0 then Fault OutOfBounds
                   else if decide (Z.to_nat c < length line)%nat
                        then Done (tt, <[a := Some (Chars (<[Z.to_nat c := x]> line))]> h)
                        else Fault OutOfBounds
               | _ => Fault OutOfBounds
               end
           | Wild => Fault OutOfBounds
           end.

(** [for (int i = lo; i < hi; i++) body], with the local state [St]
    beside the heap *)
Definition for_loop {St : Type} (lo hi : Z) (body : Z -> St -> H St) (s : St) : H St :=
  fun h => for_range lo hi (fun i '(s, h) => body i s h) (s, h).

Section Functions.
Context `{LogicH}.
Variable indeterminate : ascii.
Local Open Scope heap_scope.

(** [loadLevel]: the returned pointer and the three variables updated
    through references, in the heap the call leaves *)
Definition loadLevel (fs : file_system) (fileName : string)
  (maxRow maxCol : Z) (player : Player) : H (ptr * Z * Z * Player) :=
  let f := open fs fileName in
  if negb (is_open f) then ret (Null, maxRow, maxCol, player)
  else
    let '(maxRow, f) := extract_int f maxRow in
    let '(maxCol, f) := extract_int f maxCol in
    let '(prow, f) := extract_int f (row player) in
    let '(pcol, f) := extract_int f (col player) in
    let player := mkPlayer prow pcol (treasure player) in
    if load_guard maxRow maxCol then ret (Null, maxRow, maxCol, player)
    else
      mat <- new_rows maxRow ;;
      for_loop 0 maxRow (fun i (u : unit) =>
        line <- new_chars maxCol indeterminate ;;
        store_row mat i line ;;
        ret u) tt ;;
      for_loop 0 maxRow (fun r f =>
        for_loop 0 maxCol (fun c f =>
          line <- load_row mat r ;;
          old <- load_char line c ;;
          let '(x, f) := extract_char f old in
          store_char line c x ;;
          ret f) f) f ;;
      line <- load_row mat (row player) ;;
      store_char line (col player) TILE_PLAYER ;;
      ret (mat, maxRow, maxCol, player).

(** [deleteMap]: the two variables passed by reference, in the heap the
    call leaves *)
Definition deleteMap (map : ptr) (maxRow : Z) : H (ptr * Z) :=
  for_loop 0 maxRow (fun r (u : unit) =>
    line <- load_row map r ;;
    delete_array line ;;
    ret u) tt ;;
  delete_array map ;;
  ret (Null, 0).

End Functions.

End Heap.

(** [owns h map maxRow top lines]: in the heap [h] the pointer [map]
    designates a map of [maxRow] rows: the array of row pointers at the
    address [top], and one array of characters for each row, at the
    addresses [lines], all of them live and no two the same. *)
Definition owns (h : Heap.heap) (map : Heap.ptr) (maxRow : Z) (top : nat) (lines : list nat)
  : Prop :=
  map = Heap.At top /\
  h !! top = Some (Some (Heap.Rows (Heap.At <$> lines))) /\
  Z.of_nat (length lines) = maxRow /\
  NoDup (top :: lines) /\
  forall a, a ∈ lines -> exists line, h !! a = Some (Some (Heap.Chars line)).

(** ** Concrete symbols for evaluation

    One choice of pairwise different tile symbols and status codes, used
    wherever a statement is evaluated on a concrete map. *)

#[local] Instance sample_header : LogicH := {|
  TILE_OPEN := "-"%char;
  TILE_PLAYER := "o"%char;
  TILE_TREASURE := "$"%char;
  TILE_AMULET := "@"%char;
  TILE_MONSTER := "M"%char;
  TILE_PILLAR := "+"%char;
  TILE_DOOR := "?"%char;
  TILE_EXIT := "!"%char;
  STATUS_STAY := 0;
  STATUS_MOVE := 1;
  STATUS_TREASURE := 2;
  STATUS_AMULET := 3;
  STATUS_LEAVE := 4;
  STATUS_ESCAPE := 5;
  MOVE_UP := "w"%char;
  MOVE_DOWN := "s"%char;
  MOVE_LEFT := "a"%char;
  MOVE_RIGHT := "d"%char
|}.

(** a map given by its rows, written as strings *)
Definition rows_of (l : list string) : grid := map list_ascii_of_string l.

(** ** Sample worlds and files *)

(** a corridor with two monsters in line with the player *)
Definition corridor_two_monsters : World :=
  mkWorld (rows_of ["o-M-M"]%string) (mkPlayer 0 0 0).

(** a treasure between the player and a monster *)
Definition corridor_treasure : World :=
  mkWorld (rows_of ["o$M"]%string) (mkPlayer 0 0 0).

(** a monster next to the player *)
Definition corridor_adjacent : World :=
  mkWorld (rows_of ["oM"]%string) (mkPlayer 0 0 0).

(** a room with a monster, a pillar, a treasure and an exit *)
Definition small_room : World :=
  mkWorld (rows_of ["-M-"; "$o!"; "-+M"]%string) (mkPlayer 1 1 0).

(** a file system with one level whose declared size overflows *)
Definition oversized_level : file_system :=
  fun name =>
    if String.eqb name "huge.txt"
    then Some (list_ascii_of_string "65536 65536 1 1")
    else None.

(** a corridor with a door and no monster *)
Definition corridor_door : World :=
  mkWorld (rows_of ["o?-"]%string) (mkPlayer 0 0 0).

(** the room with another treasure count *)
Definition small_room_with (t : Z) : World :=
  mkWorld (cells small_room) (mkPlayer 1 1 t).

(** a Pillar between the player and a monster *)
Definition corridor_pillar : World :=
  mkWorld (rows_of ["o+M"]%string) (mkPlayer 0 0 0).


(** a heap with a map of two rows, at the addresses 1, 2 and 4, among
    two arrays that belong to no map *)
Definition sample_heap : Heap.heap :=
  [Some (Heap.Chars (list_ascii_of_string "kept"));
   Some (Heap.Rows [Heap.At 2; Heap.At 4]);
   Some (Heap.Chars (list_ascii_of_string "o?"));
   Some (Heap.Chars (list_ascii_of_string "left"));
   Some (Heap.Chars (list_ascii_of_string "-M"))].

(** a file system with one level of three rows and three columns *)
Definition room_level : file_system :=
  fun name =>
    if String.eqb name "room.txt"
    then Some (list_ascii_of_string "3 3 1 1 - $ M - - - + ? !")
    else None.

(** ** Tactics *)

(** unfolds the operations of the turn monad *)
Ltac run_turn :=
  unfold get_cell, set_cell, bind, ret, lift, player_row, player_col,
    player_treasure, set_player_row, set_player_col, set_player_treasure;
  simpl.

(** the shape and the well-formedness of a concrete world *)
Ltac solve_shape := split; [reflexivity | repeat constructor].
Ltac solve_wf :=
  unfold wf_world; simpl; split; [solve_shape | unfold INT32_MAX; lia].

(** * Proofs *)

(** ** Cells of a well-shaped storage *)

Section CellLemmas.

Lemma load_cell_inv (g : grid) (r c : Z) (x : ascii) :
  load_cell g r c = Done x ->
  0 <= r /\ 0 <= c /\
  exists line, g !! Z.to_nat r = Some line /\ line !! Z.to_nat c = Some x.
Proof.
  unfold load_cell. intros Hl.
  destruct (r <? 0) eqn:Hr; [discriminate|].
  destruct (c <? 0) eqn:Hc; [discriminate|]. simpl in Hl.
  destruct (g !! Z.to_nat r) as [line|] eqn:Hg; [|discriminate].
  destruct (line !! Z.to_nat c) as [y|] eqn:Hy; [|discriminate].
  injection Hl as ->. repeat split; try lia. eauto.
Qed.

Lemma load_cell_bounds (g : grid) (R C r c : Z) (x : ascii) :
  shape g R C -> load_cell g r c = Done x -> 0 <= r < R /\ 0 <= c < C.
Proof.
  intros [Hlen Hall] Hl.
  apply load_cell_inv in Hl as (Hr & Hc & line & Hg & Hx).
  pose proof (lookup_lt_Some _ _ _ Hg) as Hlt.
  pose proof (lookup_lt_Some _ _ _ Hx) as Hlt'.
  rewrite Forall_lookup in Hall. specialize (Hall _ _ Hg). simpl in Hall.
  lia.
Qed.

Lemma load_cell_defined (g : grid) (R C r c : Z) :
  shape g R C -> 0 <= r < R -> 0 <= c < C -> exists x, load_cell g r c = Done x.
Proof.
  intros [Hlen Hall] Hr Hc. unfold load_cell.
  destruct (r <? 0) eqn:Er; [lia|]. destruct (c <? 0) eqn:Ec; [lia|]. simpl.
  destruct (lookup_lt_is_Some_2 g (Z.to_nat r)) as [line Hg]; [lia|].
  rewrite Hg. rewrite Forall_lookup in Hall. specialize (Hall _ _ Hg). simpl in Hall.
  destruct (lookup_lt_is_Some_2 line (Z.to_nat c)) as [x Hx]; [lia|].
  rewrite Hx. eauto.
Qed.

Lemma store_cell_shape (g g' : grid) (R C r c : Z) (x : ascii) :
  shape g R C -> store_cell g r c x = Done g' -> shape g' R C.
Proof.
  intros [Hlen Hall]. unfold store_cell.
  destruct ((r <? 0) || (c <? 0)); [discriminate|].
  destruct (g !! Z.to_nat r) as [line|] eqn:Hg; [|discriminate].
  destruct (decide _); [|discriminate]. intros [= <-]. split.
  - rewrite length_insert. exact Hlen.
  - apply Forall_insert; [exact Hall|]. rewrite length_insert.
    rewrite Forall_lookup in Hall. exact (Hall _ _ Hg).
Qed.

Lemma store_cell_defined (g : grid) (R C r c : Z) (x : ascii) :
  shape g R C -> 0 <= r < R -> 0 <= c < C -> exists g', store_cell g r c x = Done g'.
Proof.
  intros [Hlen Hall] Hr Hc. unfold store_cell.
  destruct (r <? 0) eqn:Er; [lia|]. destruct (c <? 0) eqn:Ec; [lia|]. simpl.
  destruct (lookup_lt_is_Some_2 g (Z.to_nat r)) as [line Hg]; [lia|].
  rewrite Hg. rewrite Forall_lookup in Hall. specialize (Hall _ _ Hg). simpl in Hall.
  destruct (decide _); [eauto|lia].
Qed.

Lemma load_store_same (g g' : grid) (r c : Z) (x : ascii) :
  store_cell g r c x = Done g' -> load_cell g' r c = Done x.
Proof.
  unfold store_cell, load_cell.
  destruct ((r <? 0) || (c <? 0)); [discriminate|].
  destruct (g !! Z.to_nat r) as [line|] eqn:Hg; [|discriminate].
  destruct (decide _) as [Hlt|]; [|discriminate]. intros [= <-].
  rewrite list_lookup_insert_eq by (eapply lookup_lt_Some; eauto).
  rewrite list_lookup_insert_eq by exact Hlt. reflexivity.
Qed.

Lemma load_store_other (g g' : grid) (r c r' c' : Z) (x : ascii) :
  store_cell g r c x = Done g' -> (r', c') <> (r, c) ->
  load_cell g' r' c' = load_cell g r' c'.
Proof.
  unfold store_cell. destruct ((r <? 0) || (c <? 0)) eqn:Hneg; [discriminate|].
  apply orb_false_elim in Hneg as [Hr Hc].
  destruct (g !! Z.to_nat r) as [line|] eqn:Hg; [|discriminate].
  destruct (decide _) as [Hlt|]; [|discriminate]. intros [= <-] Hne.
  unfold load_cell. destruct ((r' <? 0) || (c' <? 0)) eqn:Hneg'; [reflexivity|].
  apply orb_false_elim in Hneg' as [Hr' Hc'].
  destruct (decide (Z.to_nat r' = Z.to_nat r)) as [Heq|Hdiff].
  - rewrite Heq, list_lookup_insert_eq by (eapply lookup_lt_Some; eauto).
    rewrite Hg. rewrite list_lookup_insert_ne; [reflexivity|].
    intros Heqc. apply Hne. f_equal; lia.
  - rewrite list_lookup_insert_ne by congruence. reflexivity.
Qed.

End CellLemmas.

Section MoveProofs.
Context `{LogicH}.

(** Consequences of [tiles_distinct] used below. *)
Lemma tiles_distinct_facts :
  tiles_distinct ->
  TILE_OPEN <> TILE_PLAYER /\ TILE_OPEN <> TILE_MONSTER /\ TILE_OPEN <> TILE_PILLAR /\
  TILE_PLAYER <> TILE_MONSTER /\ TILE_PLAYER <> TILE_PILLAR /\
  TILE_MONSTER <> TILE_PILLAR /\
  TILE_TREASURE <> TILE_PILLAR /\ TILE_TREASURE <> TILE_MONSTER /\
  TILE_TREASURE <> TILE_EXIT /\ TILE_TREASURE <> TILE_PLAYER /\
  TILE_TREASURE <> TILE_OPEN.
Proof.
  unfold tiles_distinct. intros Hnd.
  repeat match goal with
         | Hn : NoDup (_ :: _) |- _ => apply NoDup_cons in Hn as [? Hn]
         end.
  repeat match goal with
         | Hn : _ ∉ _ :: _ |- _ => apply not_elem_of_cons in Hn as [? Hn]
         end.
  repeat split; congruence.
Qed.

(** C7. When the target cell lies outside the map, or holds Pillar or
    Monster, or holds Exit while the player carries no treasure,
    [doPlayerMove] returns [STATUS_STAY] and the world it leaves is the
    world it was given: the player's row, column and treasure and every
    cell of the map are unchanged. *)
Theorem doPlayerMove_blocked_stays (maxRow maxCol nextRow nextCol : Z) (w : World) :
  (nextRow >= maxRow \/ nextRow < 0 \/ nextCol >= maxCol \/ nextCol < 0) \/
  load_cell (cells w) nextRow nextCol = Done TILE_PILLAR \/
  load_cell (cells w) nextRow nextCol = Done TILE_MONSTER \/
  (load_cell (cells w) nextRow nextCol = Done TILE_EXIT /\ treasure (player w) = 0) ->
  doPlayerMove maxRow maxCol nextRow nextCol w = Done (STATUS_STAY, w).
Proof.
  intros Hcase. unfold doPlayerMove.
  destruct ((nextRow >=? maxRow) || (nextRow <? 0) || (nextCol >=? maxCol) || (nextCol <? 0))
    eqn:Hout; [reflexivity|].
  destruct Hcase as [Hoob | [Hp | [Hm | [He Ht]]]].
  - exfalso. repeat (apply orb_false_elim in Hout as [Hout ?]). lia.
  - run_turn. rewrite Hp. rewrite bool_decide_eq_true_2 by reflexivity. reflexivity.
  - run_turn. rewrite Hm. rewrite (bool_decide_eq_true_2 (_ = TILE_MONSTER)) by reflexivity.
    rewrite orb_true_r. reflexivity.
  - run_turn. rewrite He.
    destruct (bool_decide (TILE_EXIT = TILE_PILLAR) || bool_decide (TILE_EXIT = TILE_MONSTER));
      [reflexivity|].
    rewrite bool_decide_eq_true_2 by reflexivity. rewrite Ht. reflexivity.
Qed.

Lemma int_add_in_range (a b : Z) :
  INT32_MIN <= a + b <= INT32_MAX -> int_add a b = Done (a + b).
Proof.
  intros Hr. unfold int_add, in_int.
  destruct (INT32_MIN <=? a + b) eqn:E1; [|lia].
  destruct (a + b <=? INT32_MAX) eqn:E2; [reflexivity|lia].
Qed.

Lemma int_sub_in_range (a b : Z) :
  INT32_MIN <= a - b <= INT32_MAX -> int_sub a b = Done (a - b).
Proof.
  intros Hr. unfold int_sub, in_int.
  destruct (INT32_MIN <=? a - b) eqn:E1; [|lia].
  destruct (a - b <=? INT32_MAX) eqn:E2; [reflexivity|lia].
Qed.

Lemma int_mul_in_range (a b : Z) :
  INT32_MIN <= a * b <= INT32_MAX -> int_mul a b = Done (a * b).
Proof.
  intros Hr. unfold int_mul, in_int.
  destruct (INT32_MIN <=? a * b) eqn:E1; [|lia].
  destruct (a * b <=? INT32_MAX) eqn:E2; [reflexivity|lia].
Qed.

(** The two writes that end an allowed move. *)
Lemma move_writes (g : grid) (R C pr pc nr nc : Z) :
  shape g R C -> 0 <= pr < R -> 0 <= pc < C -> 0 <= nr < R -> 0 <= nc < C ->
  exists g1 g2,
    store_cell g pr pc TILE_OPEN = Done g1 /\
    store_cell g1 nr nc TILE_PLAYER = Done g2 /\
    shape g2 R C.
Proof.
  intros Hs Hpr Hpc Hnr Hnc.
  destruct (store_cell_defined g R C pr pc TILE_OPEN Hs Hpr Hpc) as [g1 Hg1].
  pose proof (store_cell_shape _ _ _ _ _ _ _ Hs Hg1) as Hs1.
  destruct (store_cell_defined g1 R C nr nc TILE_PLAYER Hs1 Hnr Hnc) as [g2 Hg2].
  exists g1, g2. repeat split; try assumption.
  - exact (proj1 (store_cell_shape _ _ _ _ _ _ _ Hs1 Hg2)).
  - exact (proj2 (store_cell_shape _ _ _ _ _ _ _ Hs1 Hg2)).
Qed.

Lemma target_in_bounds (maxRow maxCol nextRow nextCol : Z) :
  0 <= nextRow < maxRow -> 0 <= nextCol < maxCol ->
  (nextRow >=? maxRow) || (nextRow <? 0) || (nextCol >=? maxCol) || (nextCol <? 0) = false.
Proof.
  intros Hr Hc.
  destruct (nextRow >=? maxRow) eqn:E1; [lia|].
  destruct (nextRow <? 0) eqn:E2; [lia|].
  destruct (nextCol >=? maxCol) eqn:E3; [lia|].
  destruct (nextCol <? 0) eqn:E4; [lia|]. reflexivity.
Qed.

(** C8. A move onto an in-bounds cell that holds Treasure returns
    [STATUS_TREASURE], raises the treasure count by exactly one, makes
    the player's row and column those of the target, leaves Player in
    the target cell and Open in the cell the player came from, and
    changes no other cell.  The target is a cell other than the one the
    player stands on, and the count is below [INT32_MAX], so that the
    increment is defined. *)
Theorem doPlayerMove_treasure (maxRow maxCol nextRow nextCol : Z) (w : World) :
  tiles_distinct ->
  shape (cells w) maxRow maxCol ->
  0 <= row (player w) < maxRow -> 0 <= col (player w) < maxCol ->
  0 <= nextRow < maxRow -> 0 <= nextCol < maxCol ->
  (nextRow, nextCol) <> (row (player w), col (player w)) ->
  load_cell (cells w) nextRow nextCol = Done TILE_TREASURE ->
  INT32_MIN <= treasure (player w) < INT32_MAX ->
  exists g',
    doPlayerMove maxRow maxCol nextRow nextCol w
      = Done (STATUS_TREASURE,
              mkWorld g' (mkPlayer nextRow nextCol (treasure (player w) + 1))) /\
    load_cell g' nextRow nextCol = Done TILE_PLAYER /\
    load_cell g' (row (player w)) (col (player w)) = Done TILE_OPEN /\
    forall r c, (r, c) <> (nextRow, nextCol) ->
                (r, c) <> (row (player w), col (player w)) ->
                load_cell g' r c = load_cell (cells w) r c.
Proof.
  intros Hd Hs Hpr Hpc Hnr Hnc Hne Ht Htr.
  destruct (tiles_distinct_facts Hd)
    as (_ & _ & _ & _ & _ & _ & Htp & Htm & Hte & _ & _).
  destruct (move_writes _ _ _ _ _ _ _ Hs Hpr Hpc Hnr Hnc) as (g1 & g2 & Hg1 & Hg2 & _).
  exists g2. unfold doPlayerMove.
  rewrite (target_in_bounds _ _ _ _ Hnr Hnc). run_turn. rewrite Ht.
  rewrite (bool_decide_eq_false_2 (_ = TILE_PILLAR)) by exact Htp.
  rewrite (bool_decide_eq_false_2 (_ = TILE_MONSTER)) by exact Htm.
  rewrite (bool_decide_eq_false_2 (_ = TILE_EXIT)) by exact Hte.
  rewrite (bool_decide_eq_true_2 (_ = TILE_TREASURE)) by reflexivity. simpl.
  rewrite int_add_in_range by lia. simpl. rewrite Hg1. simpl. rewrite Hg2.
  split; [reflexivity|]. split; [exact (load_store_same _ _ _ _ _ Hg2)|]. split.
  - rewrite (load_store_other _ _ _ _ _ _ _ Hg2) by congruence.
    exact (load_store_same _ _ _ _ _ Hg1).
  - intros r c Hn1 Hn2.
    rewrite (load_store_other _ _ _ _ _ _ _ Hg2) by exact Hn1.
    exact (load_store_other _ _ _ _ _ _ _ Hg1 Hn2).
Qed.

(** Every call of [doPlayerMove] on a well-shaped map with the player
    inside either leaves the world as it was or performs the two writes
    of an allowed move. *)
Lemma doPlayerMove_outcome (maxRow maxCol nextRow nextCol : Z) (w : World) :
  shape (cells w) maxRow maxCol ->
  0 <= row (player w) < maxRow -> 0 <= col (player w) < maxCol ->
  INT32_MIN <= treasure (player w) < INT32_MAX ->
  exists s w',
    doPlayerMove maxRow maxCol nextRow nextCol w = Done (s, w') /\
    (w' = w \/
     exists g1,
       store_cell (cells w) (row (player w)) (col (player w)) TILE_OPEN = Done g1 /\
       store_cell g1 nextRow nextCol TILE_PLAYER = Done (cells w') /\
       row (player w') = nextRow /\ col (player w') = nextCol).
Proof.
  intros Hs Hpr Hpc Htr. unfold doPlayerMove.
  destruct ((nextRow >=? maxRow) || (nextRow <? 0) || (nextCol >=? maxCol) || (nextCol <? 0))
    eqn:Hout; [eexists _, _; split; [reflexivity|left; reflexivity]|].
  assert (0 <= nextRow < maxRow /\ 0 <= nextCol < maxCol) as [Hnr Hnc].
  { repeat (apply orb_false_elim in Hout as [Hout ?]). lia. }
  destruct (load_cell_defined _ _ _ _ _ Hs Hnr Hnc) as [x Hx].
  destruct (move_writes _ _ _ _ _ _ _ Hs Hpr Hpc Hnr Hnc) as (g1 & g2 & Hg1 & Hg2 & _).
  run_turn. rewrite Hx.
  destruct (bool_decide (x = TILE_PILLAR) || bool_decide (x = TILE_MONSTER));
    [eexists _, _; split; [reflexivity|left; reflexivity]|].
  destruct (bool_decide (x = TILE_EXIT) && (treasure (player w) =? 0));
    [eexists _, _; split; [reflexivity|left; reflexivity]|].
  destruct (bool_decide (x = TILE_TREASURE)).
  - rewrite int_add_in_range by lia. simpl. rewrite Hg1. simpl. rewrite Hg2.
    eexists _, _. split; [reflexivity|]. right. exists g1. simpl. auto.
  - simpl. rewrite Hg1. simpl. rewrite Hg2.
    eexists _, _. split; [reflexivity|]. right. exists g1. simpl. auto.
Qed.

(** [doPlayerMove] keeps the Player tile and the player's coordinates
    in step. *)
Lemma doPlayerMove_only_player (maxRow maxCol nextRow nextCol : Z) (w : World) :
  tiles_distinct ->
  shape (cells w) maxRow maxCol ->
  only_player_at (cells w) (row (player w)) (col (player w)) ->
  INT32_MIN <= treasure (player w) < INT32_MAX ->
  exists s w',
    doPlayerMove maxRow maxCol nextRow nextCol w = Done (s, w') /\
    shape (cells w') maxRow maxCol /\
    only_player_at (cells w') (row (player w')) (col (player w')).
Proof.
  intros Hd Hs [Hat Honly] Htr.
  destruct (tiles_distinct_facts Hd) as (Hop & _).
  destruct (load_cell_bounds _ _ _ _ _ _ Hs Hat) as [Hpr Hpc].
  destruct (doPlayerMove_outcome maxRow maxCol nextRow nextCol w Hs Hpr Hpc Htr)
    as (s & w' & Hrun & [-> | (g1 & Hg1 & Hg2 & Hr & Hc)]).
  - exists s, w. split; [exact Hrun|]. split; [exact Hs|]. split; assumption.
  - exists s, w'. split; [exact Hrun|]. rewrite Hr, Hc. split.
    { eapply store_cell_shape; [|exact Hg2]. eapply store_cell_shape; [exact Hs|exact Hg1]. }
    split; [exact (load_store_same _ _ _ _ _ Hg2)|].
    intros r' c' Hl.
    destruct (decide ((r', c') = (nextRow, nextCol))) as [[= -> ->]|Hn1]; [auto|].
    rewrite (load_store_other _ _ _ _ _ _ _ Hg2 Hn1) in Hl.
    destruct (decide ((r', c') = (row (player w), col (player w)))) as [[= -> ->]|Hn2].
    + rewrite (load_store_same _ _ _ _ _ Hg1) in Hl. congruence.
    + rewrite (load_store_other _ _ _ _ _ _ _ Hg1 Hn2) in Hl.
      apply Honly in Hl. destruct Hl as [-> ->]. congruence.
Qed.

End MoveProofs.

Section RayProofs.
Context `{LogicH}.

Lemma dir_is_dir (i : nat) : is_dir (dir i).1 (dir i).2.
Proof.
  unfold is_dir. destruct i as [|[|[|i]]]; simpl; lia.
Qed.

Lemma ray_cond_true (R C r c : Z) :
  ray_cond R C r c = true <-> 0 <= r < R /\ 0 <= c < C.
Proof. unfold ray_cond. rewrite !andb_true_iff. lia. Qed.

Lemma ray_cond_false (R C r c : Z) :
  ray_cond R C r c = false <-> ~ (0 <= r < R /\ 0 <= c < C).
Proof. rewrite <- ray_cond_true. destruct (ray_cond R C r c); split; congruence. Qed.

(** One pass of the loop body, by the tile under the cursor. *)
Lemma ray_body_cases (R C dr dc r c : Z) (w : World) :
  shape (cells w) R C -> R <= INT32_MAX -> C <= INT32_MAX ->
  is_dir dr dc ->
  0 <= r < R -> 0 <= c < C ->
  0 <= r - dr < R -> 0 <= c - dc < C ->
  exists x, load_cell (cells w) r c = Done x /\
    ((x = TILE_PILLAR /\ ray_body dr dc r c w = Done (None, w)) \/
     (x <> TILE_PILLAR /\ x = TILE_MONSTER /\
      exists g1 g2,
        store_cell (cells w) (r - dr) (c - dc) TILE_MONSTER = Done g1 /\
        store_cell g1 r c TILE_OPEN = Done g2 /\
        ray_body dr dc r c w = Done (Some (r + dr, c + dc), mkWorld g2 (player w))) \/
     (x <> TILE_PILLAR /\ x <> TILE_MONSTER /\
      ray_body dr dc r c w = Done (Some (r + dr, c + dc), w))).
Proof.
  intros Hs HR HC Hdir Hr Hc Hr0 Hc0.
  destruct (load_cell_defined _ _ _ _ _ Hs Hr Hc) as [x Hx].
  exists x. split; [exact Hx|].
  assert (INT32_MIN <= r + dr <= INT32_MAX /\ INT32_MIN <= c + dc <= INT32_MAX /\
          INT32_MIN <= r - dr <= INT32_MAX /\ INT32_MIN <= c - dc <= INT32_MAX)
    as (Ha1 & Ha2 & Ha3 & Ha4).
  { unfold INT32_MIN, INT32_MAX in *. unfold is_dir in Hdir. lia. }
  unfold ray_body. run_turn. rewrite Hx. simpl.
  destruct (decide (x = TILE_PILLAR)) as [Hp|Hp].
  { left. rewrite bool_decide_eq_true_2 by exact Hp. auto. }
  right. rewrite bool_decide_eq_false_2 by exact Hp. rewrite Hx. simpl.
  destruct (decide (x = TILE_MONSTER)) as [Hm|Hm].
  - left. rewrite bool_decide_eq_true_2 by exact Hm.
    destruct (store_cell_defined (cells w) R C (r - dr) (c - dc) TILE_MONSTER Hs Hr0 Hc0)
      as [g1 Hg1].
    pose proof (store_cell_shape _ _ _ _ _ _ _ Hs Hg1) as Hs1.
    destruct (store_cell_defined g1 R C r c TILE_OPEN Hs1 Hr Hc) as [g2 Hg2].
    split; [exact Hp|]. split; [exact Hm|]. exists g1, g2.
    split; [exact Hg1|]. split; [exact Hg2|].
    rewrite (int_sub_in_range r dr Ha3), (int_sub_in_range c dc Ha4). simpl.
    rewrite Hg1. simpl. rewrite Hg2.
    rewrite (int_add_in_range r dr Ha1), (int_add_in_range c dc Ha2). reflexivity.
  - right. rewrite bool_decide_eq_false_2 by exact Hm.
    split; [exact Hp|]. split; [exact Hm|].
    rewrite (int_add_in_range r dr Ha1), (int_add_in_range c dc Ha2). reflexivity.
Qed.

Section OneRay.
Variables (R C dr dc : Z).
Hypothesis (Hd : tiles_distinct).
Hypothesis (Hdir : is_dir dr dc).

Lemma ray_cell_shift (g : grid) (r0 c0 n : Z) :
  ray_cell g (r0 + dr) (c0 + dc) dr dc n = ray_cell g r0 c0 dr dc (n + 1).
Proof. unfold ray_cell. f_equal; ring. Qed.

Lemma ray_pos_inj (r0 c0 n m : Z) :
  (r0 + n * dr, c0 + n * dc) = (r0 + m * dr, c0 + m * dc) -> n = m.
Proof. intros [= E1 E2]. unfold is_dir in Hdir. lia. Qed.

(** Inside the map the cells of a ray form a segment. *)
Lemma ray_segment (r0 c0 n i : Z) :
  0 <= r0 < R -> 0 <= c0 < C ->
  ray_cond R C (r0 + n * dr) (c0 + n * dc) = true ->
  0 <= i <= n ->
  ray_cond R C (r0 + i * dr) (c0 + i * dc) = true.
Proof.
  rewrite !ray_cond_true. intros Hr Hc Hn Hi. unfold is_dir in Hdir. nia.
Qed.

Lemma in_sight_shift (g g1 : grid) (r0 c0 m : Z) :
  (forall i, 2 <= i -> ray_cell g1 r0 c0 dr dc i = ray_cell g r0 c0 dr dc i) ->
  in_sight g R C r0 c0 dr dc (m + 1) ->
  in_sight g1 R C (r0 + dr) (c0 + dc) dr dc m.
Proof.
  intros Hsame [Hin Hclear]. split.
  - replace (r0 + dr + m * dr) with (r0 + (m + 1) * dr) by ring.
    replace (c0 + dc + m * dc) with (c0 + (m + 1) * dc) by ring. exact Hin.
  - intros i Hi. rewrite ray_cell_shift, Hsame by lia. apply Hclear. lia.
Qed.

Lemma in_sight_unshift (g g1 : grid) (r0 c0 m : Z) :
  (forall i, 2 <= i -> ray_cell g1 r0 c0 dr dc i = ray_cell g r0 c0 dr dc i) ->
  ray_cell g r0 c0 dr dc 1 <> Done TILE_PILLAR ->
  in_sight g1 R C (r0 + dr) (c0 + dc) dr dc m ->
  in_sight g R C r0 c0 dr dc (m + 1).
Proof.
  intros Hsame Hfirst [Hin Hclear]. split.
  - replace (r0 + (m + 1) * dr) with (r0 + dr + m * dr) by ring.
    replace (c0 + (m + 1) * dc) with (c0 + dc + m * dc) by ring. exact Hin.
  - intros i Hi. destruct (decide (i = 1)) as [->|Hne]; [exact Hfirst|].
    rewrite <- Hsame by lia. replace i with (i - 1 + 1) by ring.
    rewrite <- ray_cell_shift. apply Hclear. lia.
Qed.

(** The effect of a scan, from the effect of the scan that follows its
    first pass. *)
Lemma ray_effect_step (g g1 g' : grid) (r0 c0 : Z) :
  ray_cond R C (r0 + dr) (c0 + dc) = true ->
  ray_cell g r0 c0 dr dc 1 <> Done TILE_PILLAR ->
  (forall r c, (r, c) <> (r0, c0) -> (r, c) <> (r0 + dr, c0 + dc) ->
               load_cell g1 r c = load_cell g r c) ->
  ((ray_cell g r0 c0 dr dc 1 = Done TILE_MONSTER /\
    load_cell g1 r0 c0 = Done TILE_MONSTER /\
    load_cell g1 (r0 + dr) (c0 + dc) = Done TILE_OPEN) \/
   (ray_cell g r0 c0 dr dc 1 <> Done TILE_MONSTER /\
    load_cell g1 r0 c0 = load_cell g r0 c0 /\
    load_cell g1 (r0 + dr) (c0 + dc) = load_cell g (r0 + dr) (c0 + dc))) ->
  ray_effect g1 g' R C (r0 + dr) (c0 + dc) dr dc ->
  ray_effect g g' R C r0 c0 dr dc.
Proof.
  intros Hin Hfirst Hrest Hhead (HW & HF & HA & HV & HU).
  destruct (tiles_distinct_facts Hd) as (_ & Hom & _).
  assert (Hcell0 : forall g0 : grid, ray_cell g0 r0 c0 dr dc 0 = load_cell g0 r0 c0).
  { intros g0. unfold ray_cell. f_equal; ring. }
  assert (Hcell1 : forall g0 : grid,
             ray_cell g0 r0 c0 dr dc 1 = load_cell g0 (r0 + dr) (c0 + dc)).
  { intros g0. unfold ray_cell. f_equal; ring. }
  assert (Hsame : forall i, 2 <= i -> ray_cell g1 r0 c0 dr dc i = ray_cell g r0 c0 dr dc i).
  { intros i Hi. unfold ray_cell. apply Hrest.
    - intros [= E1 E2]. unfold is_dir in Hdir. lia.
    - intros [= E1 E2]. unfold is_dir in Hdir. lia. }
  assert (Hbase : load_cell g' r0 c0 = load_cell g1 r0 c0).
  { apply HF. intros n Hn [= E1 E2]. unfold is_dir in Hdir. lia. }
  assert (Hsight1 : in_sight g R C r0 c0 dr dc 1).
  { split; [|intros i Hi; lia].
    replace (r0 + 1 * dr) with (r0 + dr) by ring.
    replace (c0 + 1 * dc) with (c0 + dc) by ring. exact Hin. }
  repeat split.
  - (* every cell *)
    intros r c.
    destruct (decide ((r, c) = (r0, c0))) as [[= -> ->]|Hn0].
    { rewrite Hbase. destruct Hhead as [(_ & E & _) | (_ & E & _)]; rewrite E; auto. }
    destruct (HW r c) as [E | [E | [Hn1 E]]]; [|auto|auto].
    destruct (decide ((r, c) = (r0 + dr, c0 + dc))) as [[= -> ->]|Hn1].
    + rewrite E. destruct Hhead as [(_ & _ & E1) | (_ & _ & E1)]; rewrite E1; auto.
    + rewrite E. left. apply Hrest; assumption.
  - (* cells off the ray *)
    intros r c Hoff. rewrite HF.
    + apply Hrest.
      * specialize (Hoff 0). replace (r0 + 0 * dr) with r0 in Hoff by ring.
        replace (c0 + 0 * dc) with c0 in Hoff by ring. apply Hoff. lia.
      * specialize (Hoff 1). replace (r0 + 1 * dr) with (r0 + dr) in Hoff by ring.
        replace (c0 + 1 * dc) with (c0 + dc) in Hoff by ring. apply Hoff. lia.
    + intros n Hn. replace (r0 + dr + n * dr) with (r0 + (n + 1) * dr) by ring.
      replace (c0 + dc + n * dc) with (c0 + (n + 1) * dc) by ring. apply Hoff. lia.
  - (* a Monster in sight moves in *)
    intros n Hn Hs Hm.
    destruct (decide (n = 0)) as [->|Hn0].
    + rewrite Hcell0, Hbase. simpl in Hm.
      destruct Hhead as [(_ & E & _) | (Hno & _)]; [exact E|contradiction].
    + replace n with (n - 1 + 1) by ring. rewrite <- ray_cell_shift.
      apply HA; [lia| |].
      * apply (in_sight_shift g); [exact Hsame|].
        replace (n - 1 + 1 + 1) with (n + 1) by ring. exact Hs.
      * rewrite ray_cell_shift, Hsame by lia.
        replace (n - 1 + 1 + 1) with (n + 1) by ring. exact Hm.
  - (* a Monster in sight moves out *)
    intros n Hn Hs Hm Hnext.
    destruct (decide (n = 1)) as [->|Hn1].
    + destruct Hhead as [(_ & _ & E) | (Hno & _)]; [|contradiction].
      rewrite Hcell1, <- E. specialize (HU 0). rewrite !ray_cell_shift in HU.
      simpl in HU. rewrite !Hcell1 in HU. apply HU; [lia| |lia].
      intros [_ Hm2]. rewrite Hsame in Hm2 by lia. exact (Hnext Hm2).
    + replace n with (n - 1 + 1) by ring. rewrite <- ray_cell_shift.
      apply HV; [lia| | |].
      * apply (in_sight_shift g); [exact Hsame|].
        replace (n - 1 + 1) with n by ring. exact Hs.
      * rewrite ray_cell_shift, Hsame by lia.
        replace (n - 1 + 1) with n by ring. exact Hm.
      * rewrite ray_cell_shift, Hsame by lia.
        replace (n - 1 + 1 + 1) with (n + 1) by ring. exact Hnext.
  - (* neither *)
    intros n Hn HnA HnB.
    destruct (decide (n = 0)) as [->|Hn0].
    { rewrite !Hcell0, Hbase.
      destruct Hhead as [(Hm & _ & _) | (_ & E & _)]; [|exact E].
      exfalso. apply HnA. split; [exact Hsight1|exact Hm]. }
    destruct (decide (n = 1)) as [->|Hn1].
    { destruct Hhead as [(Hm & _ & _) | (_ & _ & E)].
      - exfalso. apply HnB. split; [lia|]. split; [exact Hsight1|exact Hm].
      - rewrite !Hcell1, <- E. specialize (HU 0). rewrite !ray_cell_shift in HU.
        simpl in HU. rewrite !Hcell1 in HU. apply HU; [lia| |lia].
        intros [Hs2 Hm2]. apply HnA. split.
        + apply (in_sight_unshift g g1); assumption.
        + rewrite <- Hsame by lia. exact Hm2. }
    replace n with (n - 1 + 1) by ring.
    rewrite <- (Hsame (n - 1 + 1)) by lia. rewrite <- !ray_cell_shift.
    apply HU; [lia| |].
    + intros [Hs2 Hm2]. apply HnA. split.
      * replace (n + 1) with (n - 1 + 1 + 1) by ring.
        apply (in_sight_unshift g g1); assumption.
      * rewrite ray_cell_shift, Hsame in Hm2 by lia.
        replace (n - 1 + 1 + 1) with (n + 1) in Hm2 by ring. exact Hm2.
    + intros (Hge & Hs2 & Hm2). apply HnB. split; [lia|]. split.
      * replace n with (n - 1 + 1) by ring.
        apply (in_sight_unshift g g1); assumption.
      * rewrite ray_cell_shift, Hsame in Hm2 by lia.
        replace (n - 1 + 1) with n in Hm2 by ring. exact Hm2.
Qed.

(** A scan that stops at once, at the border or at a Pillar, changes
    nothing. *)
Lemma ray_effect_stop (g : grid) (r0 c0 : Z) :
  0 <= r0 < R -> 0 <= c0 < C ->
  ray_cond R C (r0 + dr) (c0 + dc) = false \/
  ray_cell g r0 c0 dr dc 1 = Done TILE_PILLAR ->
  ray_effect g g R C r0 c0 dr dc.
Proof.
  intros Hr0 Hc0 Hstop.
  destruct (tiles_distinct_facts Hd) as (_ & _ & _ & _ & _ & Hmp & _).
  assert (Hblocked : forall n, 1 <= n -> in_sight g R C r0 c0 dr dc n ->
                               ray_cell g r0 c0 dr dc n = Done TILE_MONSTER -> False).
  { intros n Hn [Hin Hclear] Hm. destruct Hstop as [Hout | Hp].
    - pose proof (ray_segment r0 c0 n 1 Hr0 Hc0 Hin ltac:(lia)) as H1.
      replace (r0 + 1 * dr) with (r0 + dr) in H1 by ring.
      replace (c0 + 1 * dc) with (c0 + dc) in H1 by ring. congruence.
    - destruct (decide (n = 1)) as [->|Hn1]; [congruence|].
      apply (Hclear 1); [lia|exact Hp]. }
  repeat split.
  - intros r c. left. reflexivity.
  - intros n Hn Hs Hm. exfalso. apply (Hblocked (n + 1)); [lia|exact Hs|exact Hm].
  - intros n Hn Hs Hm _. exfalso. apply (Hblocked n); [lia|exact Hs|exact Hm].
Qed.

Lemma passes_left_positive (r c : Z) :
  ray_cond R C r c = true -> 1 <= passes_left R C dr dc r c.
Proof.
  rewrite ray_cond_true. intros [Hr Hc]. unfold passes_left.
  destruct Hdir as [[-> ->] | [[-> ->] | [[-> ->] | [-> ->]]]]; simpl; lia.
Qed.

Lemma passes_left_next (r c : Z) :
  passes_left R C dr dc (r + dr) (c + dc) = passes_left R C dr dc r c - 1.
Proof.
  unfold passes_left.
  destruct Hdir as [[-> ->] | [[-> ->] | [[-> ->] | [-> ->]]]]; simpl; lia.
Qed.

Hypothesis (HR : R <= INT32_MAX) (HC : C <= INT32_MAX).

(** The [while] loop of one direction, started next to a cell
    [(r0, c0)] of a well-shaped map, ends without a fault and keeps the
    shape of the map and the player. *)
Lemma ray_loop_total (fuel : nat) :
  forall (r0 c0 : Z) (w : World),
    shape (cells w) R C -> 0 <= r0 < R -> 0 <= c0 < C ->
    passes_left R C dr dc (r0 + dr) (c0 + dc) <= Z.of_nat fuel ->
    exists w',
      ray_loop fuel R C dr dc (r0 + dr) (c0 + dc) w = Done (tt, w') /\
      player w' = player w /\
      shape (cells w') R C.
Proof.
  induction fuel as [|fuel IH]; intros r0 c0 w Hs Hr0 Hc0 Hfuel; simpl;
    destruct (ray_cond R C (r0 + dr) (c0 + dc)) eqn:Hcond;
    try (exists w; split; [reflexivity|split; [reflexivity|exact Hs]]).
  - pose proof (passes_left_positive _ _ Hcond). lia.
  - pose proof Hcond as Hin. apply ray_cond_true in Hin as [Hr1 Hc1].
    assert (Hr0' : 0 <= r0 + dr - dr < R) by lia.
    assert (Hc0' : 0 <= c0 + dc - dc < C) by lia.
    destruct (ray_body_cases R C dr dc (r0 + dr) (c0 + dc) w Hs HR HC Hdir Hr1 Hc1 Hr0' Hc0')
      as (x & Hx & [[Hp Hrun] | [(Hnp & Hm & g1 & g2 & Hg1 & Hg2 & Hrun) | (Hnp & Hnm & Hrun)]]);
      unfold bind; rewrite Hrun.
    + exists w. split; [reflexivity|split; [reflexivity|exact Hs]].
    + pose proof (store_cell_shape _ _ _ _ _ _ _ Hs Hg1) as Hs1.
      pose proof (store_cell_shape _ _ _ _ _ _ _ Hs1 Hg2) as Hs2.
      apply (IH (r0 + dr) (c0 + dc) (mkWorld g2 (player w)) Hs2 Hr1 Hc1).
      rewrite passes_left_next. lia.
    + apply (IH (r0 + dr) (c0 + dc) w Hs Hr1 Hc1). rewrite passes_left_next. lia.
Qed.

(** The [while] loop of one direction, started next to a cell
    [(r0, c0)] of a well-shaped map, ends without a fault, keeps the
    shape and the player, and has the effect [ray_effect]. *)
Lemma ray_loop_effect (fuel : nat) :
  forall (r0 c0 : Z) (w : World),
    shape (cells w) R C -> 0 <= r0 < R -> 0 <= c0 < C ->
    passes_left R C dr dc (r0 + dr) (c0 + dc) <= Z.of_nat fuel ->
    exists w',
      ray_loop fuel R C dr dc (r0 + dr) (c0 + dc) w = Done (tt, w') /\
      player w' = player w /\
      shape (cells w') R C /\
      ray_effect (cells w) (cells w') R C r0 c0 dr dc.
Proof.
  induction fuel as [|fuel IH]; intros r0 c0 w Hs Hr0 Hc0 Hfuel.
  - simpl. destruct (ray_cond R C (r0 + dr) (c0 + dc)) eqn:Hcond.
    + pose proof (passes_left_positive _ _ Hcond). lia.
    + exists w. split; [reflexivity|]. split; [reflexivity|]. split; [exact Hs|].
      apply ray_effect_stop; auto.
  - simpl. destruct (ray_cond R C (r0 + dr) (c0 + dc)) eqn:Hcond.
    2:{ exists w. split; [reflexivity|]. split; [reflexivity|]. split; [exact Hs|]. apply ray_effect_stop; auto. }
    pose proof Hcond as Hin. apply ray_cond_true in Hin as [Hr1 Hc1].
    assert (Hr0' : 0 <= r0 + dr - dr < R) by lia.
    assert (Hc0' : 0 <= c0 + dc - dc < C) by lia.
    destruct (ray_body_cases R C dr dc (r0 + dr) (c0 + dc) w Hs HR HC Hdir Hr1 Hc1 Hr0' Hc0')
      as (x & Hx & [[Hp Hrun] | [(Hnp & Hm & g1 & g2 & Hg1 & Hg2 & Hrun) | (Hnp & Hnm & Hrun)]]).
    + (* Pillar: break *)
      unfold bind. rewrite Hrun. exists w. split; [reflexivity|]. split; [reflexivity|]. split; [exact Hs|].
      apply ray_effect_stop; auto. right. unfold ray_cell.
      replace (r0 + 1 * dr) with (r0 + dr) by ring.
      replace (c0 + 1 * dc) with (c0 + dc) by ring. congruence.
    + (* Monster: advance, go on *)
      replace (r0 + dr - dr) with r0 in Hg1 by ring.
      replace (c0 + dc - dc) with c0 in Hg1 by ring.
      pose proof (store_cell_shape _ _ _ _ _ _ _ Hs Hg1) as Hs1.
      pose proof (store_cell_shape _ _ _ _ _ _ _ Hs1 Hg2) as Hs2.
      assert (Hne : (r0, c0) <> (r0 + dr, c0 + dc)).
      { intros [= E1 E2]. unfold is_dir in Hdir. lia. }
      destruct (IH (r0 + dr) (c0 + dc) (mkWorld g2 (player w)) Hs2 Hr1 Hc1)
        as (w' & Hloop & Hpl & Hs' & Heff).
      { rewrite passes_left_next. lia. }
      unfold bind. rewrite Hrun. exists w'.
      split; [exact Hloop|]. split; [exact Hpl|]. split; [exact Hs'|].
      apply (ray_effect_step (cells w) g2 (cells w')); simpl in Heff; try exact Heff; try exact Hcond.
      * unfold ray_cell. replace (r0 + 1 * dr) with (r0 + dr) by ring.
        replace (c0 + 1 * dc) with (c0 + dc) by ring. congruence.
      * intros r c Hn0 Hn1.
        rewrite (load_store_other _ _ _ _ _ _ _ Hg2 Hn1).
        exact (load_store_other _ _ _ _ _ _ _ Hg1 Hn0).
      * left. split; [|split].
        -- unfold ray_cell. replace (r0 + 1 * dr) with (r0 + dr) by ring.
           replace (c0 + 1 * dc) with (c0 + dc) by ring. congruence.
        -- rewrite (load_store_other _ _ _ _ _ _ _ Hg2 Hne).
           exact (load_store_same _ _ _ _ _ Hg1).
        -- exact (load_store_same _ _ _ _ _ Hg2).
    + (* any other tile: go on *)
      destruct (IH (r0 + dr) (c0 + dc) w Hs Hr1 Hc1) as (w' & Hloop & Hpl & Hs' & Heff).
      { rewrite passes_left_next. lia. }
      unfold bind. rewrite Hrun. exists w'.
      split; [exact Hloop|]. split; [exact Hpl|]. split; [exact Hs'|].
      apply (ray_effect_step (cells w) (cells w) (cells w')); try exact Heff; try exact Hcond.
      * unfold ray_cell. replace (r0 + 1 * dr) with (r0 + dr) by ring.
        replace (c0 + 1 * dc) with (c0 + dc) by ring. congruence.
      * reflexivity.
      * right. split; [|split; reflexivity].
        unfold ray_cell. replace (r0 + 1 * dr) with (r0 + dr) by ring.
        replace (c0 + 1 * dc) with (c0 + dc) by ring. congruence.
Qed.

End OneRay.

Section Reach.
Variables (R C dr dc : Z).
Hypothesis (Hd : tiles_distinct).
Hypothesis (Hdir : is_dir dr dc).
Hypothesis (HR : R <= INT32_MAX) (HC : C <= INT32_MAX).

(** The [break] leaves the world as it is. *)
Lemma ray_body_break (r c : Z) (w w' : World) :
  ray_body dr dc r c w = Done (None, w') -> w' = w.
Proof.
  unfold ray_body. run_turn.
  destruct (load_cell (cells w) r c) as [x|e]; simpl; [|discriminate].
  destruct (bool_decide (x = TILE_PILLAR)); simpl; [intros [= <-]; reflexivity|].
  destruct (load_cell (cells w) r c) as [y|e]; simpl; [|discriminate].
  destruct (bool_decide (y = TILE_MONSTER)); simpl.
  - destruct (int_sub r dr); simpl; [|discriminate].
    destruct (int_sub c dc); simpl; [|discriminate].
    destruct (store_cell (cells w) a a0 TILE_MONSTER); simpl; [|discriminate].
    destruct (store_cell a1 r c TILE_OPEN); simpl; [|discriminate].
    destruct (int_add r dr); simpl; [|discriminate].
    destruct (int_add c dc); simpl; discriminate.
  - destruct (int_add r dr); simpl; [|discriminate].
    destruct (int_add c dc); simpl; discriminate.
Qed.

Lemma ray_reach_trans (s0 s1 s2 : World * Z * Z) :
  ray_reach R C dr dc s0 s1 -> ray_reach R C dr dc s1 s2 -> ray_reach R C dr dc s0 s2.
Proof.
  intros H01 H12. induction H12 as [s|s w r c w' r' c' Hprev IH Hc Hb].
  - exact H01.
  - eapply ray_reach_pass; [exact (IH H01)|exact Hc|exact Hb].
Qed.

(** The world in which a scan ends is one of the states it passes
    through. *)
Lemma ray_loop_reaches (fuel : nat) :
  forall (r c : Z) (w w' : World),
    ray_loop fuel R C dr dc r c w = Done (tt, w') ->
    exists r' c', ray_reach R C dr dc (w, r, c) (w', r', c').
Proof.
  induction fuel as [|fuel IH]; intros r c w w'; simpl.
  - destruct (ray_cond R C r c); [discriminate|].
    intros [= <-]. exists r, c. constructor.
  - destruct (ray_cond R C r c) eqn:Hcond.
    2:{ intros [= <-]. exists r, c. constructor. }
    unfold bind. destruct (ray_body dr dc r c w) as [[[[r1 c1]|] w1]|e] eqn:Hbody;
      [| |discriminate].
    + intros Hloop. destruct (IH _ _ _ _ Hloop) as (r' & c' & Hreach).
      exists r', c'. eapply ray_reach_trans; [|exact Hreach].
      eapply ray_reach_pass; [constructor|exact Hcond|exact Hbody].
    + intros [= <-]. apply ray_body_break in Hbody as ->. exists r, c. constructor.
Qed.

(** At the top of every pass of a scan started next to [(r0, c0)], the
    cell behind the cursor lies in the map and either is [(r0, c0)]
    itself or holds a tile that is neither Pillar nor Monster. *)
Lemma ray_reach_behind (r0 c0 : Z) (w0 : World) (s : World * Z * Z) :
  shape (cells w0) R C -> 0 <= r0 < R -> 0 <= c0 < C ->
  ray_reach R C dr dc (w0, r0 + dr, c0 + dc) s ->
  shape (cells s.1.1) R C /\
  player s.1.1 = player w0 /\
  0 <= s.1.2 - dr < R /\ 0 <= s.2 - dc < C /\
  ((s.1.2 - dr, s.2 - dc) = (r0, c0) \/
   exists x, load_cell (cells s.1.1) (s.1.2 - dr) (s.2 - dc) = Done x /\
             x <> TILE_PILLAR /\ x <> TILE_MONSTER).
Proof.
  intros Hs0 Hr0 Hc0 Hreach.
  destruct (tiles_distinct_facts Hd) as (_ & Hom & Hop & _).
  remember (w0, r0 + dr, c0 + dc) as s0 eqn:Es0.
  induction Hreach as [s|s w r c w' r' c' Hprev IH Hcond Hbody]; subst; simpl.
  - replace (r0 + dr - dr) with r0 by ring. replace (c0 + dc - dc) with c0 by ring.
    auto 6.
  - specialize (IH eq_refl). simpl in IH.
    destruct IH as (Hs & Hpl & Hrb & Hcb & _).
    pose proof Hcond as Hin. apply ray_cond_true in Hin as [Hr Hc].
    destruct (ray_body_cases R C dr dc r c w Hs HR HC Hdir Hr Hc Hrb Hcb)
      as (x & Hx & [[Hp Hrun] | [(Hnp & Hm & g1 & g2 & Hg1 & Hg2 & Hrun) | (Hnp & Hnm & Hrun)]]);
      rewrite Hrun in Hbody; [discriminate| |].
    + injection Hbody as <- <- <-. simpl.
      replace (r + dr - dr) with r by ring. replace (c + dc - dc) with c by ring.
      split. { eapply store_cell_shape; [|exact Hg2]. eapply store_cell_shape; eauto. }
      split; [exact Hpl|]. split; [lia|]. split; [lia|]. right.
      exists TILE_OPEN. split; [exact (load_store_same _ _ _ _ _ Hg2)|]. split; congruence.
    + injection Hbody as <- <- <-.
      replace (r + dr - dr) with r by ring. replace (c + dc - dc) with c by ring.
      split; [exact Hs|]. split; [exact Hpl|]. split; [lia|]. split; [lia|]. right.
      exists x. auto.
Qed.

End Reach.

Section Attack.
Variables (R C : Z) (fuel : nat).
Hypothesis (Hd : tiles_distinct).
Hypothesis (Hfuel : Z.max R C <= Z.of_nat fuel).

Lemma start_passes_left (i : nat) (w : World) :
  wf_world R C w ->
  passes_left R C (dir i).1 (dir i).2
    (row (player w) + (dir i).1) (col (player w) + (dir i).2) <= Z.of_nat fuel.
Proof.
  intros (_ & _ & _ & Hr & Hc). unfold passes_left.
  destruct (dir_is_dir i) as [[-> ->] | [[-> ->] | [[-> ->] | [-> ->]]]]; simpl; lia.
Qed.

Lemma start_in_int (i : nat) (w : World) :
  wf_world R C w ->
  INT32_MIN <= row (player w) + (dir i).1 <= INT32_MAX /\
  INT32_MIN <= col (player w) + (dir i).2 <= INT32_MAX.
Proof.
  intros (_ & HR & HC & Hr & Hc). pose proof (dir_is_dir i) as Hdir.
  unfold INT32_MIN, INT32_MAX, is_dir in *. lia.
Qed.

(** One direction of [doMonsterAttack] ends without a fault. *)
Lemma scan_direction_total (i : nat) (w : World) :
  wf_world R C w ->
  exists w',
    scan_direction fuel R C i w = Done (tt, w') /\
    player w' = player w /\
    wf_world R C w'.
Proof.
  intros Hwf. pose proof Hwf as (Hs & HR & HC & Hr & Hc).
  destruct (ray_loop_total R C (dir i).1 (dir i).2 (dir_is_dir i) HR HC fuel
              (row (player w)) (col (player w)) w Hs Hr Hc (start_passes_left i w Hwf))
    as (w' & Hloop & Hpl & Hs').
  destruct (start_in_int i w Hwf) as [Hi1 Hi2].
  exists w'. split; [|split; [exact Hpl|]].
  - unfold scan_direction. run_turn.
    rewrite (int_add_in_range _ _ Hi1), (int_add_in_range _ _ Hi2). simpl. exact Hloop.
  - unfold wf_world. rewrite Hpl. auto.
Qed.

Lemma for_each_total (l : list nat) :
  forall w, wf_world R C w ->
  exists w',
    for_each l (scan_direction fuel R C) w = Done (tt, w') /\
    player w' = player w /\
    wf_world R C w'.
Proof.
  induction l as [|j l IH]; intros w Hwf.
  - exists w. auto.
  - destruct (scan_direction_total j w Hwf) as (w1 & Hrun1 & Hpl1 & Hwf1).
    destruct (IH w1 Hwf1) as (w' & Hrun & Hpl & Hwf').
    exists w'. split; [|split; [congruence|exact Hwf']].
    simpl. unfold bind. rewrite Hrun1. exact Hrun.
Qed.

(** One direction of [doMonsterAttack]. *)
Lemma scan_direction_effect (i : nat) (w : World) :
  wf_world R C w ->
  exists w',
    scan_direction fuel R C i w = Done (tt, w') /\
    player w' = player w /\
    wf_world R C w' /\
    ray_effect (cells w) (cells w') R C (row (player w)) (col (player w))
      (dir i).1 (dir i).2.
Proof.
  intros (Hs & HR & HC & Hr & Hc).
  pose proof (dir_is_dir i) as Hdir.
  destruct (ray_loop_effect R C (dir i).1 (dir i).2 Hd Hdir HR HC fuel
              (row (player w)) (col (player w)) w Hs Hr Hc)
    as (w' & Hloop & Hpl & Hs' & Heff).
  { unfold passes_left. unfold is_dir in Hdir.
    destruct Hdir as [[-> ->] | [[-> ->] | [[-> ->] | [-> ->]]]]; simpl; lia. }
  exists w'. split; [|split; [exact Hpl|split; [|exact Heff]]].
  - unfold scan_direction. run_turn.
    rewrite !int_add_in_range.
    + simpl. exact Hloop.
    + unfold INT32_MIN, INT32_MAX, is_dir in *. lia.
    + unfold INT32_MIN, INT32_MAX, is_dir in *. lia.
  - unfold wf_world. rewrite Hpl. auto.
Qed.

Lemma for_each_cons (i : nat) (l : list nat) (body : nat -> M unit) (w w1 w2 : World) :
  body i w = Done (tt, w1) -> for_each l body w1 = Done (tt, w2) ->
  for_each (i :: l) body w = Done (tt, w2).
Proof. intros H1 H2. simpl. unfold bind. rewrite H1. exact H2. Qed.

Lemma for_each_app (l1 l2 : list nat) (body : nat -> M unit) (w w1 w2 : World) :
  for_each l1 body w = Done (tt, w1) -> for_each l2 body w1 = Done (tt, w2) ->
  for_each (l1 ++ l2) body w = Done (tt, w2).
Proof.
  revert w. induction l1 as [|i l1 IH]; intros w H1 H2.
  - simpl in H1. unfold ret in H1. injection H1 as ->. exact H2.
  - simpl in *. unfold bind in *.
    destruct (body i w) as [[[] wa]|e]; [|discriminate].
    apply IH; assumption.
Qed.

(** The scans of the directions in [l] end without a fault and only
    move monsters; when none of them is the direction [(dr, dc)], the
    cells of that ray at distance 1 and beyond stay as they were. *)
Lemma scan_list_effect (l : list nat) :
  forall w, wf_world R C w ->
  exists w',
    for_each l (scan_direction fuel R C) w = Done (tt, w') /\
    player w' = player w /\
    wf_world R C w' /\
    monsters_only (cells w) (cells w') (row (player w)) (col (player w)) /\
    (forall dr dc, is_dir dr dc ->
       Forall (fun j => (dir j).1 <> dr \/ (dir j).2 <> dc) l ->
       forall n, 1 <= n ->
         ray_cell (cells w') (row (player w)) (col (player w)) dr dc n
         = ray_cell (cells w) (row (player w)) (col (player w)) dr dc n).
Proof.
  induction l as [|j l IH]; intros w Hwf.
  - exists w. split; [reflexivity|]. split; [reflexivity|]. split; [exact Hwf|].
    split; [intros r c; left; reflexivity|reflexivity].
  - destruct (scan_direction_effect j w Hwf) as (w1 & Hrun1 & Hpl1 & Hwf1 & Heff).
    destruct (IH w1 Hwf1) as (w' & Hrun & Hpl & Hwf' & Hmono & Hstable).
    rewrite Hpl1 in Hmono, Hstable.
    exists w'. split; [exact (for_each_cons _ _ _ _ _ _ Hrun1 Hrun)|].
    split; [congruence|]. split; [exact Hwf'|].
    destruct Heff as (HW & HF & _). split.
    + intros r c. destruct (Hmono r c) as [E | [E | E]]; [|auto|auto].
      rewrite E. apply HW.
    + intros dr dc Hdir Hall n Hn. apply Forall_cons in Hall as [Hj Hall].
      rewrite (Hstable dr dc Hdir Hall n Hn). unfold ray_cell. apply HF.
      intros m Hm [= E1 E2]. pose proof (dir_is_dir j) as Hdj.
      unfold is_dir in Hdir, Hdj. nia.
Qed.

Lemma for_each_four (i : nat) :
  (i < 4)%nat ->
  exists l1 l2,
    [0; 1; 2; 3]%nat = l1 ++ i :: l2 /\
    Forall (fun j => (dir j).1 <> (dir i).1 \/ (dir j).2 <> (dir i).2) l1 /\
    Forall (fun j => (dir j).1 <> (dir i).1 \/ (dir j).2 <> (dir i).2) l2.
Proof.
  intros Hi. destruct i as [|[|[|[|i]]]]; [| | | |lia].
  - exists [], [1; 2; 3]%nat. split; [reflexivity|].
    split; repeat constructor; simpl; lia.
  - exists [0]%nat, [2; 3]%nat. split; [reflexivity|].
    split; repeat constructor; simpl; lia.
  - exists [0; 1]%nat, [3]%nat. split; [reflexivity|].
    split; repeat constructor; simpl; lia.
  - exists [0; 1; 2]%nat, []. split; [reflexivity|].
    split; repeat constructor; simpl; lia.
Qed.

(** The whole call: the four scans, then the test of the player's cell. *)
Lemma doMonsterAttack_run (w : World) :
  wf_world R C w ->
  exists w' x,
    for_each [0; 1; 2; 3]%nat (scan_direction fuel R C) w = Done (tt, w') /\
    load_cell (cells w') (row (player w)) (col (player w)) = Done x /\
    doMonsterAttack fuel R C w = Done (bool_decide (x = TILE_MONSTER), w') /\
    player w' = player w /\
    wf_world R C w' /\
    monsters_only (cells w) (cells w') (row (player w)) (col (player w)).
Proof.
  intros Hwf.
  destruct (scan_list_effect [0; 1; 2; 3]%nat w Hwf) as (w' & Hrun & Hpl & Hwf' & Hmono & _).
  pose proof Hwf' as (Hs' & _ & _ & Hr' & Hc').
  destruct (load_cell_defined _ _ _ _ _ Hs' Hr' Hc') as [x Hx].
  rewrite Hpl in Hx. exists w', x.
  split; [exact Hrun|]. split; [exact Hx|]. split; [|auto].
  unfold doMonsterAttack, bind at 1. rewrite Hrun. run_turn.
  rewrite Hpl, Hx. simpl. destruct (bool_decide (x = TILE_MONSTER)); reflexivity.
Qed.

(** C10. [doMonsterAttack] returns without a fault and leaves the
    player as it was: row, column and treasure count after the call are
    those before it.  What changes is confined to the cells of the map,
    whose shape is kept. *)
Theorem doMonsterAttack_keeps_player (w : World) :
  wf_world R C w ->
  exists b w',
    doMonsterAttack fuel R C w = Done (b, w') /\
    row (player w') = row (player w) /\
    col (player w') = col (player w) /\
    treasure (player w') = treasure (player w) /\
    shape (cells w') R C.
Proof.
  intros Hwf.
  destruct (for_each_total [0; 1; 2; 3]%nat w Hwf) as (w' & Hrun & Hpl & Hwf').
  pose proof Hwf' as (Hs' & _ & _ & Hr' & Hc').
  destruct (load_cell_defined _ _ _ _ _ Hs' Hr' Hc') as [x Hx].
  exists (bool_decide (x = TILE_MONSTER)), w'. split.
  - unfold doMonsterAttack, bind at 1. rewrite Hrun. run_turn.
    rewrite Hx. simpl. destruct (bool_decide (x = TILE_MONSTER)); reflexivity.
  - rewrite Hpl. repeat (split; [reflexivity|]). exact Hs'.
Qed.

(** C9. The capture test is made once, on the map that the four scans
    leave behind: the call runs the scans of the directions 0, 1, 2 and
    3 one after the other, and its result is [true] exactly when, in
    the world after the fourth scan, the player's cell holds Monster. *)
Theorem doMonsterAttack_capture_check (w : World) :
  wf_world R C w ->
  exists (w1 w2 w3 w4 : World) (b : bool),
    scan_direction fuel R C 0 w = Done (tt, w1) /\
    scan_direction fuel R C 1 w1 = Done (tt, w2) /\
    scan_direction fuel R C 2 w2 = Done (tt, w3) /\
    scan_direction fuel R C 3 w3 = Done (tt, w4) /\
    doMonsterAttack fuel R C w = Done (b, w4) /\
    (b = true <->
     load_cell (cells w4) (row (player w4)) (col (player w4)) = Done TILE_MONSTER).
Proof.
  intros Hwf.
  destruct (scan_direction_total 0 w Hwf) as (w1 & H1 & Hp1 & Hwf1).
  destruct (scan_direction_total 1 w1 Hwf1) as (w2 & H2 & Hp2 & Hwf2).
  destruct (scan_direction_total 2 w2 Hwf2) as (w3 & H3 & Hp3 & Hwf3).
  destruct (scan_direction_total 3 w3 Hwf3) as (w4 & H4 & Hp4 & Hwf4).
  pose proof Hwf4 as (Hs4 & _ & _ & Hr4 & Hc4).
  destruct (load_cell_defined _ _ _ _ _ Hs4 Hr4 Hc4) as [x Hx].
  exists w1, w2, w3, w4, (bool_decide (x = TILE_MONSTER)).
  repeat (split; [assumption|]). split.
  - unfold doMonsterAttack, bind at 1. simpl. unfold bind at 1. rewrite H1.
    unfold bind at 1. rewrite H2. unfold bind at 1. rewrite H3.
    unfold bind at 1. rewrite H4. run_turn. rewrite Hx. simpl.
    destruct (bool_decide (x = TILE_MONSTER)); reflexivity.
  - rewrite Hx. rewrite bool_decide_eq_true. split; congruence.
Qed.

(** After [doMonsterAttack] on a world in which the player's cell, and
    no other, holds the Player tile: when the call returns [false] this
    is still so; when it returns [true] the player's cell holds Monster
    and no cell holds the Player tile. *)
Lemma doMonsterAttack_only_player (w : World) :
  wf_world R C w ->
  only_player_at (cells w) (row (player w)) (col (player w)) ->
  exists b w',
    doMonsterAttack fuel R C w = Done (b, w') /\
    player w' = player w /\
    (b = false -> only_player_at (cells w') (row (player w')) (col (player w'))) /\
    (b = true ->
     load_cell (cells w') (row (player w')) (col (player w')) = Done TILE_MONSTER /\
     forall r c, load_cell (cells w') r c <> Done TILE_PLAYER).
Proof.
  intros Hwf [Hat Honly].
  destruct (tiles_distinct_facts Hd) as (Hop & _ & _ & Hpm & _).
  destruct (doMonsterAttack_run w Hwf) as (w' & x & _ & Hx & Hrun & Hpl & _ & Hmono).
  exists (bool_decide (x = TILE_MONSTER)), w'.
  split; [exact Hrun|]. split; [exact Hpl|]. rewrite Hpl.
  assert (Hothers : forall r c, load_cell (cells w') r c = Done TILE_PLAYER ->
                                load_cell (cells w) r c = Done TILE_PLAYER).
  { intros r c Hl. destruct (Hmono r c) as [E | [E | [_ E]]]; congruence. }
  split.
  - intros Hb. apply bool_decide_eq_false in Hb. split.
    + destruct (Hmono (row (player w)) (col (player w))) as [E | [E | [E _]]];
        [congruence|congruence|contradiction].
    + intros r c Hl. apply Honly, Hothers, Hl.
  - intros Hb. apply bool_decide_eq_true in Hb. subst x. split; [exact Hx|].
    intros r c Hl. pose proof (Honly _ _ (Hothers _ _ Hl)) as [-> ->]. congruence.
Qed.

(** C2, as the code has it.  Every Monster in sight of the player
    advances in the same call, not only the nearest one.  A Monster at
    distance [n] on the ray of direction [i], with no Pillar between it
    and the player, leaves a Monster in the cell at distance [n - 1];
    its own cell is Open afterwards, unless the cell at distance
    [n + 1] held a Monster as well, which then stands there. *)
Theorem doMonsterAttack_advances (w : World) (i : nat) (n : Z) :
  wf_world R C w -> (i < 4)%nat -> 1 <= n ->
  in_sight (cells w) R C (row (player w)) (col (player w)) (dir i).1 (dir i).2 n ->
  ray_cell (cells w) (row (player w)) (col (player w)) (dir i).1 (dir i).2 n
    = Done TILE_MONSTER ->
  exists b w',
    doMonsterAttack fuel R C w = Done (b, w') /\
    ray_cell (cells w') (row (player w)) (col (player w)) (dir i).1 (dir i).2 (n - 1)
      = Done TILE_MONSTER /\
    (ray_cell (cells w) (row (player w)) (col (player w)) (dir i).1 (dir i).2 (n + 1)
       = Done TILE_MONSTER ->
     ray_cell (cells w') (row (player w)) (col (player w)) (dir i).1 (dir i).2 n
       = Done TILE_MONSTER) /\
    (ray_cell (cells w) (row (player w)) (col (player w)) (dir i).1 (dir i).2 (n + 1)
       <> Done TILE_MONSTER ->
     ray_cell (cells w') (row (player w)) (col (player w)) (dir i).1 (dir i).2 n
       = Done TILE_OPEN).
Proof.
  intros Hwf Hi Hn Hsight Hm.
  destruct (tiles_distinct_facts Hd) as (_ & _ & _ & _ & _ & Hmp & _).
  pose proof (dir_is_dir i) as Hdir.
  set (dr := (dir i).1) in *. set (dc := (dir i).2) in *.
  set (pr := row (player w)) in *. set (pc := col (player w)) in *.
  destruct (for_each_four i Hi) as (l1 & l2 & Hsplit & Hl1 & Hl2).
  fold dr dc in Hl1, Hl2.
  destruct (scan_list_effect l1 w Hwf) as (wa & Hrun1 & Hpa & Hwfa & _ & Hst1).
  specialize (Hst1 dr dc Hdir Hl1). fold pr pc in Hst1.
  destruct (scan_direction_effect i wa Hwfa) as (wb & Hrun2 & Hpb & Hwfb & Heff).
  rewrite Hpa in Heff. fold pr pc dr dc in Heff.
  destruct (scan_list_effect l2 wb Hwfb) as (wc & Hrun3 & Hpc & Hwfc & Hmono & Hst2).
  specialize (Hst2 dr dc Hdir Hl2).
  rewrite Hpb, Hpa in Hmono, Hst2. fold pr pc in Hmono, Hst2.
  assert (Hrun : for_each [0; 1; 2; 3]%nat (scan_direction fuel R C) w = Done (tt, wc)).
  { rewrite Hsplit. eapply for_each_app; [exact Hrun1|].
    eapply for_each_cons; [exact Hrun2|exact Hrun3]. }
  assert (Hsight_a : forall m, 1 <= m -> in_sight (cells w) R C pr pc dr dc m ->
                               in_sight (cells wa) R C pr pc dr dc m).
  { intros m Hm1 [Hin Hclear]. split; [exact Hin|].
    intros j Hj. rewrite Hst1 by lia. apply Hclear, Hj. }
  destruct Heff as (_ & _ & HA & HV & _).
  assert (Hfinal : forall m, 0 <= m ->
             ray_cell (cells wb) pr pc dr dc m = Done TILE_MONSTER \/ 1 <= m ->
             ray_cell (cells wc) pr pc dr dc m = ray_cell (cells wb) pr pc dr dc m).
  { intros m Hm0 Hcase. destruct (decide (m = 0)) as [->|Hm1].
    - destruct Hcase as [Hmon|?]; [|lia]. rewrite Hmon. unfold ray_cell in *.
      destruct (Hmono (pr + 0 * dr) (pc + 0 * dc)) as [E | [E | [E _]]].
      + congruence.
      + exact E.
      + exfalso. apply E. f_equal; ring.
    - apply Hst2. lia. }
  destruct (doMonsterAttack_run w Hwf) as (w' & x & Hrun' & _ & Hcall & _).
  rewrite Hrun in Hrun'. injection Hrun' as <-.
  exists (bool_decide (x = TILE_MONSTER)), wc. split; [exact Hcall|].
  assert (Hadv : ray_cell (cells wb) pr pc dr dc (n - 1) = Done TILE_MONSTER).
  { apply HA; [lia| |]; replace (n - 1 + 1) with n by ring.
    - apply Hsight_a; [lia|exact Hsight].
    - rewrite Hst1 by lia. exact Hm. }
  split; [|split].
  - rewrite Hfinal; [exact Hadv|lia|left; exact Hadv].
  - intros Hnext. rewrite Hfinal; [|lia|right; lia].
    apply HA; [lia| |].
    + destruct Hsight as [Hin Hclear].
      assert (Hin' : ray_cond R C (pr + (n + 1) * dr) (pc + (n + 1) * dc) = true).
      { unfold ray_cell in Hnext. destruct Hwf as (Hs & _).
        apply (load_cell_bounds _ _ _ _ _ _ Hs) in Hnext. apply ray_cond_true. exact Hnext. }
      split; [exact Hin'|]. intros j Hj. rewrite Hst1 by lia.
      destruct (decide (j = n)) as [->|Hjn]; [congruence|]. apply Hclear. lia.
    + rewrite Hst1 by lia. exact Hnext.
  - intros Hnext. rewrite Hfinal; [|lia|right; lia].
    apply HV; [lia| | |].
    + apply Hsight_a; [lia|exact Hsight].
    + rewrite Hst1 by lia. exact Hm.
    + rewrite Hst1 by lia. exact Hnext.
Qed.

(** C3, as the code has it.  Whenever a scan of [doMonsterAttack]
    finds a Monster under its
    cursor, the cell the Monster is about to be written into, the one
    just behind the cursor, lies in the map and is the player's own
    cell or holds a tile that is neither Pillar nor Monster.  The tile
    need not be Open. *)
Theorem advance_target (i : nat) (w0 w : World) (r c : Z) :
  wf_world R C w0 ->
  ray_reach R C (dir i).1 (dir i).2
    (w0, row (player w0) + (dir i).1, col (player w0) + (dir i).2) (w, r, c) ->
  ray_cond R C r c = true ->
  load_cell (cells w) r c = Done TILE_MONSTER ->
  exists x g1,
    load_cell (cells w) (r - (dir i).1) (c - (dir i).2) = Done x /\
    store_cell (cells w) (r - (dir i).1) (c - (dir i).2) TILE_MONSTER = Done g1 /\
    ((r - (dir i).1, c - (dir i).2) = (row (player w0), col (player w0)) \/
     (x <> TILE_PILLAR /\ x <> TILE_MONSTER)).
Proof.
  intros (Hs0 & HR & HC & Hr0 & Hc0) Hreach Hcond Hm.
  destruct (ray_reach_behind R C _ _ Hd (dir_is_dir i) HR HC _ _ _ _ Hs0 Hr0 Hc0 Hreach)
    as (Hs & _ & Hrb & Hcb & Hbehind). simpl in *.
  destruct (load_cell_defined _ _ _ _ _ Hs Hrb Hcb) as [x Hx].
  destruct (store_cell_defined _ _ _ _ _ TILE_MONSTER Hs Hrb Hcb) as [g1 Hg1].
  exists x, g1. split; [exact Hx|]. split; [exact Hg1|].
  destruct Hbehind as [E | (y & Hy & Hyp & Hym)]; [left; exact E|right].
  rewrite Hx in Hy. injection Hy as <-. auto.
Qed.

(** C5, as the code has it.  On a world in which the cell at the
    player's coordinates, and no other, holds the Player tile:
    [doPlayerMove] leaves a world of which this is again true, for the
    updated coordinates; [doMonsterAttack] does so when it returns
    [false], and when it returns [true] the player's cell holds Monster
    and no cell holds the Player tile. *)
Theorem player_tile_kept (w : World) (nextRow nextCol : Z) :
  wf_world R C w ->
  only_player_at (cells w) (row (player w)) (col (player w)) ->
  INT32_MIN <= treasure (player w) < INT32_MAX ->
  (exists s w',
      doPlayerMove R C nextRow nextCol w = Done (s, w') /\
      only_player_at (cells w') (row (player w')) (col (player w'))) /\
  (exists b w',
      doMonsterAttack fuel R C w = Done (b, w') /\
      player w' = player w /\
      (b = false -> only_player_at (cells w') (row (player w')) (col (player w'))) /\
      (b = true ->
       load_cell (cells w') (row (player w')) (col (player w')) = Done TILE_MONSTER /\
       forall r c, load_cell (cells w') r c <> Done TILE_PLAYER)).
Proof.
  intros Hwf Honly Htr. split.
  - destruct (doPlayerMove_only_player R C nextRow nextCol w Hd (proj1 Hwf) Honly Htr)
      as (s & w' & Hrun & _ & Hkeep).
    exists s, w'. split; assumption.
  - exact (doMonsterAttack_only_player w Hwf Honly).
Qed.

End Attack.

End RayProofs.

Section Loops.
Context {St : Type}.

(** A counted loop establishes at its end what every pass maintains. *)
Lemma iterate_invariant (P : Z -> St -> Prop) (body : Z -> St -> result St) (n : nat) :
  forall (lo : Z) (s : St),
    P lo s ->
    (forall i s0, lo <= i < lo + Z.of_nat n -> P i s0 ->
                  exists s1, body i s0 = Done s1 /\ P (i + 1) s1) ->
    exists s', iterate n lo body s = Done s' /\ P (lo + Z.of_nat n) s'.
Proof.
  induction n as [|n IH]; intros lo s Hstart Hstep.
  - exists s. split; [reflexivity|]. replace (lo + Z.of_nat 0) with lo by lia. exact Hstart.
  - destruct (Hstep lo s ltac:(lia) Hstart) as (s1 & Hb & Hp1).
    destruct (IH (lo + 1) s1 Hp1) as (s' & Hrun & Hend).
    { intros i s0 Hi. apply Hstep. lia. }
    exists s'. split.
    + simpl. rewrite Hb. exact Hrun.
    + replace (lo + Z.of_nat (S n)) with (lo + 1 + Z.of_nat n) by lia. exact Hend.
Qed.

Lemma for_range_invariant (P : Z -> St -> Prop) (body : Z -> St -> result St)
  (lo hi : Z) (s : St) :
  lo <= hi ->
  P lo s ->
  (forall i s0, lo <= i < hi -> P i s0 -> exists s1, body i s0 = Done s1 /\ P (i + 1) s1) ->
  exists s', for_range lo hi body s = Done s' /\ P hi s'.
Proof.
  intros Hle Hstart Hstep. unfold for_range.
  destruct (iterate_invariant P body (Z.to_nat (hi - lo)) lo s Hstart) as (s' & Hrun & Hend).
  { intros i s0 Hi. apply Hstep. lia. }
  exists s'. split; [exact Hrun|].
  replace (lo + Z.of_nat (Z.to_nat (hi - lo))) with hi in Hend by lia. exact Hend.
Qed.

End Loops.

Section StorageProofs.
Context `{LogicH}.
Variable junk : ascii.

(** The two allocation statements: the array of rows, then the rows. *)
Lemma allocation_shape (R C : Z) :
  0 <= R -> 0 <= C ->
  exists rows mat,
    new_array R [] = Done rows /\
    for_range 0 R (fun i mat =>
      rbind (new_array C junk) (fun line => store_row mat i line)) rows = Done mat /\
    shape mat R C.
Proof.
  intros HR HC. unfold new_array at 1.
  destruct (R <? 0) eqn:ER; [lia|]. eexists. 
  destruct (for_range_invariant
              (fun i (mat : grid) =>
                 Z.of_nat (length mat) = R /\
                 forall j line, mat !! j = Some line -> Z.of_nat j < i ->
                                Z.of_nat (length line) = C)
              (fun i mat => rbind (new_array C junk) (fun line => store_row mat i line))
              0 R (replicate (Z.to_nat R) []) HR) as (mat & Hrun & Hlen & Hrows).
  - split; [rewrite length_replicate; lia|]. intros j line _ Hj. lia.
  - intros i mat Hi [Hlen Hrows]. unfold new_array.
    destruct (C <? 0) eqn:EC; [lia|]. simpl. unfold store_row.
    destruct (i <? 0) eqn:Ei; [lia|].
    destruct (decide (Z.to_nat i < length mat)%nat) as [Hlt|]; [|lia].
    eexists. split; [reflexivity|]. split; [rewrite length_insert; exact Hlen|].
    intros j line Hj Hji.
    destruct (decide (j = Z.to_nat i)) as [->|Hne].
    + rewrite list_lookup_insert_eq in Hj by exact Hlt. injection Hj as <-.
      rewrite length_replicate. lia.
    + rewrite list_lookup_insert_ne in Hj by congruence. apply (Hrows j line Hj). lia.
  - exists mat. split; [reflexivity|]. split; [exact Hrun|]. split; [exact Hlen|].
    apply Forall_lookup. intros j line Hj. apply (Hrows j line Hj).
    apply lookup_lt_Some in Hj. lia.
Qed.

(** A pair of nested loops that assigns [val r c] to each cell
    [(r, c)] of a block fills the block and touches nothing else. *)
Lemma block_fill (body : Z -> Z -> grid -> result grid) (val : Z -> Z -> ascii)
  (R C r1 r2 c1 c2 : Z) (mat : grid) :
  shape mat R C ->
  0 <= r1 <= r2 -> r2 <= R -> 0 <= c1 <= c2 -> c2 <= C ->
  (forall r c m, r1 <= r < r2 -> c1 <= c < c2 -> body r c m = store_cell m r c (val r c)) ->
  exists mat',
    for_range r1 r2 (fun r m => for_range c1 c2 (fun c m => body r c m) m) mat = Done mat' /\
    shape mat' R C /\
    (forall r c, r1 <= r < r2 -> c1 <= c < c2 -> load_cell mat' r c = Done (val r c)) /\
    (forall r c, ~ (r1 <= r < r2 /\ c1 <= c < c2) -> load_cell mat' r c = load_cell mat r c).
Proof.
  intros Hs Hr12 Hr2 Hc12 Hc2 Hbody.
  destruct (for_range_invariant
              (fun i (m : grid) =>
                 shape m R C /\
                 (forall r c, r1 <= r < i -> c1 <= c < c2 -> load_cell m r c = Done (val r c)) /\
                 (forall r c, ~ (r1 <= r < i /\ c1 <= c < c2) ->
                              load_cell m r c = load_cell mat r c))
              (fun r m => for_range c1 c2 (fun c m => body r c m) m)
              r1 r2 mat ltac:(lia)) as (mat' & Hrun & Hs' & Hin & Hout).
  - split; [exact Hs|]. split; [intros; lia|reflexivity].
  - intros r m Hr (Hsm & Hinm & Houtm).
    destruct (for_range_invariant
                (fun j (m' : grid) =>
                   shape m' R C /\
                   (forall c, c1 <= c < j -> load_cell m' r c = Done (val r c)) /\
                   (forall r' c, ~ (r' = r /\ c1 <= c < j) ->
                                 load_cell m' r' c = load_cell m r' c))
                (fun c m => body r c m) c1 c2 m ltac:(lia)) as (m' & Hrun' & Hsm' & Hrow & Hrest).
    + split; [exact Hsm|]. split; [intros; lia|reflexivity].
    + intros c m0 Hc (Hs0 & Hrow0 & Hrest0).
      rewrite (Hbody r c m0 Hr Hc).
      destruct (store_cell_defined m0 R C r c (val r c) Hs0 ltac:(lia) ltac:(lia)) as [m1 Hm1].
      exists m1. split; [exact Hm1|]. split; [exact (store_cell_shape _ _ _ _ _ _ _ Hs0 Hm1)|].
      split.
      * intros c' Hc'. destruct (decide (c' = c)) as [->|Hne].
        -- exact (load_store_same _ _ _ _ _ Hm1).
        -- rewrite (load_store_other _ _ _ _ _ _ _ Hm1) by congruence. apply Hrow0. lia.
      * intros r' c' Hn. rewrite (load_store_other _ _ _ _ _ _ _ Hm1).
        -- apply Hrest0. intros [-> Hc']. apply Hn. split; [reflexivity|lia].
        -- intros [= -> ->]. apply Hn. split; [reflexivity|lia].
    + exists m'. split; [exact Hrun'|]. split; [exact Hsm'|]. split.
      * intros r' c Hr' Hc. destruct (decide (r' = r)) as [->|Hne].
        -- apply Hrow. exact Hc.
        -- rewrite Hrest by (intros [-> _]; congruence). apply Hinm; [lia|exact Hc].
      * intros r' c Hn. rewrite Hrest.
        -- apply Houtm. intros [Hr' Hc]. apply Hn. split; [lia|exact Hc].
        -- intros [-> Hc]. apply Hn. split; [lia|exact Hc].
  - exists mat'. auto.
Qed.

(** [createMap] on dimensions that are not negative: a map of that
    shape with Open in every cell. *)
Lemma createMap_open (R C : Z) :
  0 <= R -> 0 <= C ->
  exists g,
    createMap junk R C = Done (Some g) /\
    shape g R C /\
    forall r c, 0 <= r < R -> 0 <= c < C -> load_cell g r c = Done TILE_OPEN.
Proof.
  intros HR HC. unfold createMap.
  destruct (R <? 0) eqn:ER; [lia|]. destruct (C <? 0) eqn:EC; [lia|]. simpl.
  destruct (allocation_shape R C HR HC) as (rows & mat & Hrows & Halloc & Hs).
  rewrite Hrows. unfold rbind at 1. rewrite Halloc. unfold rbind at 1.
  destruct (block_fill (fun r c m => store_cell m r c TILE_OPEN) (fun _ _ => TILE_OPEN)
              R C 0 R 0 C mat Hs) as (g & Hrun & Hs' & Hin & _); try lia.
  { reflexivity. }
  unfold rbind. rewrite Hrun. exists g. auto.
Qed.

Lemma createMap_negative (R C : Z) :
  R < 0 \/ C < 0 -> createMap junk R C = Done None.
Proof.
  intros Hneg. unfold createMap.
  destruct (R <? 0) eqn:ER; [reflexivity|]. destruct (C <? 0) eqn:EC; [reflexivity|]. lia.
Qed.

Lemma copy_without_player_store (g : grid) (ra ca r c : Z) (x : ascii) (m : grid) :
  load_cell g ra ca = Done x ->
  copy_without_player (Some g) ra ca r c m = store_cell m r c (player_as_open x).
Proof.
  intros Hx. unfold copy_without_player, player_as_open. simpl. rewrite Hx. simpl.
  destruct (decide (x = TILE_PLAYER)) as [E|E].
  - rewrite bool_decide_eq_false_2 by auto. rewrite bool_decide_eq_true_2 by exact E.
    reflexivity.
  - rewrite bool_decide_eq_true_2 by exact E. rewrite bool_decide_eq_false_2 by exact E.
    reflexivity.
Qed.

Lemma tile_at_load (g : grid) (R C r c : Z) :
  shape g R C -> 0 <= r < R -> 0 <= c < C -> load_cell g r c = Done (tile_at g r c).
Proof.
  intros Hs Hr Hc. unfold tile_at.
  destruct (load_cell_defined g R C r c Hs Hr Hc) as [x ->]. reflexivity.
Qed.

Lemma deleteMap_some (g : grid) (R C : Z) :
  shape g R C -> deleteMap (Some g) R = Done (None, 0).
Proof.
  intros [Hlen Hall]. unfold deleteMap.
  destruct (for_range_invariant (fun _ (_ : unit) => True)
              (fun r (u : unit) => rbind (load_row (Some g) r) (fun _ => Done u))
              0 R tt ltac:(lia) I) as ([] & Hrun & _).
  - intros i [] Hi _. exists tt. split; [|exact I]. unfold load_row.
    destruct (i <? 0) eqn:Ei; [lia|].
    destruct (lookup_lt_is_Some_2 g (Z.to_nat i)) as [line Hl]; [lia|].
    rewrite Hl. reflexivity.
  - rewrite Hrun. reflexivity.
Qed.

(** The four sections of [resizeMap], block by block: section A copies
    the source, sections B, C and D copy it with Open for Player. *)
Lemma resizeMap_spec (g : grid) (R C : Z) :
  shape g R C -> 0 <= C -> 2 * R <= INT32_MAX -> 2 * C <= INT32_MAX ->
  exists g',
    resizeMap junk (Some g) R C = Done (Some g', 2 * R, 2 * C) /\
    shape g' (2 * R) (2 * C) /\
    (forall r c, 0 <= r < R -> 0 <= c < C ->
       load_cell g' r c = Done (tile_at g r c)) /\
    (forall r c, 0 <= r < R -> C <= c < 2 * C ->
       load_cell g' r c = Done (player_as_open (tile_at g r (c - C)))) /\
    (forall r c, R <= r < 2 * R -> 0 <= c < C ->
       load_cell g' r c = Done (player_as_open (tile_at g (r - R) c))) /\
    (forall r c, R <= r < 2 * R -> C <= c < 2 * C ->
       load_cell g' r c = Done (player_as_open (tile_at g (r - R) (c - C)))).
Proof.
  intros Hs HC HR2 HC2.
  assert (HR : 0 <= R) by (destruct Hs as [Hlen _]; lia).
  replace (2 * R) with (R * 2) by ring. replace (2 * C) with (C * 2) by ring.
  unfold resizeMap.
  destruct (resize_guard (Some g) R C); unfold rbind at 1;
    (rewrite (int_mul_in_range R 2) by (unfold INT32_MIN; lia); unfold rbind at 1;
     rewrite (int_mul_in_range C 2) by (unfold INT32_MIN; lia); unfold rbind at 1).
  all: destruct (allocation_shape (R * 2) (C * 2) ltac:(lia) ltac:(lia))
         as (rows & mat0 & Hrows & Halloc & Hs0).
  all: rewrite Hrows; unfold rbind at 1; rewrite Halloc; unfold rbind at 1.
  all: destruct (block_fill
                   (fun r c m => rbind (load_map (Some g) r c) (fun x => store_cell m r c x))
                   (fun r c => tile_at g r c)
                   (R * 2) (C * 2) 0 R 0 C mat0 Hs0 ltac:(lia) ltac:(lia) ltac:(lia) ltac:(lia))
         as (matA & HrunA & HsA & HinA & HoutA);
    [intros r c m Hr Hc; simpl; rewrite (tile_at_load g R C r c Hs Hr Hc); reflexivity|].
  all: rewrite HrunA; unfold rbind at 1.
  all: destruct (block_fill
                   (fun r c m => rbind (int_sub c C)
                                   (fun ca => copy_without_player (Some g) r ca r c m))
                   (fun r c => player_as_open (tile_at g r (c - C)))
                   (R * 2) (C * 2) 0 R C (C * 2) matA HsA
                   ltac:(lia) ltac:(lia) ltac:(lia) ltac:(lia))
         as (matB & HrunB & HsB & HinB & HoutB);
    [intros r c m Hr Hc;
     rewrite int_sub_in_range by (unfold INT32_MIN; lia); unfold rbind;
     apply copy_without_player_store, (tile_at_load g R C); [exact Hs|lia|lia]|].
  all: rewrite HrunB; unfold rbind at 1.
  all: destruct (block_fill
                   (fun r c m => rbind (int_sub r R)
                                   (fun ra => copy_without_player (Some g) ra c r c m))
                   (fun r c => player_as_open (tile_at g (r - R) c))
                   (R * 2) (C * 2) R (R * 2) 0 C matB HsB
                   ltac:(lia) ltac:(lia) ltac:(lia) ltac:(lia))
         as (matC & HrunC & HsC & HinC & HoutC);
    [intros r c m Hr Hc;
     rewrite int_sub_in_range by (unfold INT32_MIN; lia); unfold rbind;
     apply copy_without_player_store, (tile_at_load g R C); [exact Hs|lia|lia]|].
  all: rewrite HrunC; unfold rbind at 1.
  all: destruct (block_fill
                   (fun r c m => rbind (int_sub r R) (fun ra =>
                                   rbind (int_sub c C) (fun ca =>
                                     copy_without_player (Some g) ra ca r c m)))
                   (fun r c => player_as_open (tile_at g (r - R) (c - C)))
                   (R * 2) (C * 2) R (R * 2) C (C * 2) matC HsC
                   ltac:(lia) ltac:(lia) ltac:(lia) ltac:(lia))
         as (matD & HrunD & HsD & HinD & HoutD);
    [intros r c m Hr Hc;
     rewrite !int_sub_in_range by (unfold INT32_MIN; lia); unfold rbind;
     apply copy_without_player_store, (tile_at_load g R C); [exact Hs|lia|lia]|].
  all: rewrite HrunD; unfold rbind at 1.
  all: rewrite (deleteMap_some g R C Hs); unfold rbind.
  all: exists matD; split; [reflexivity|]; split; [exact HsD|].
  all: split; [|split; [|split]]; intros r c Hr Hc.
  all: try (rewrite HoutD by lia; rewrite HoutC by lia; rewrite HoutB by lia;
            apply HinA; lia).
  all: try (rewrite HoutD by lia; rewrite HoutC by lia; apply HinB; lia).
  all: try (rewrite HoutD by lia; apply HinC; lia).
  all: try (apply HinD; lia).
Qed.

(** C6. [resizeMap] on a map of [R] rows and [C] columns, whose doubled
    dimensions are still [int]s, returns a map of [2 * R] rows and
    [2 * C] columns and sets the two dimensions to these values.  Its
    top-left quadrant repeats every cell of the original, a Player tile
    included; the top-right, bottom-left and bottom-right quadrants
    repeat the original with Open in place of every Player tile. *)
Theorem resizeMap_quadrants (g : grid) (R C : Z) :
  shape g R C -> 0 <= C -> 2 * R <= INT32_MAX -> 2 * C <= INT32_MAX ->
  exists g',
    resizeMap junk (Some g) R C = Done (Some g', 2 * R, 2 * C) /\
    shape g' (2 * R) (2 * C) /\
    forall r c, 0 <= r < R -> 0 <= c < C ->
      exists x,
        load_cell g r c = Done x /\
        load_cell g' r c = Done x /\
        load_cell g' r (c + C) = Done (player_as_open x) /\
        load_cell g' (r + R) c = Done (player_as_open x) /\
        load_cell g' (r + R) (c + C) = Done (player_as_open x).
Proof.
  intros Hs HC HR2 HC2.
  destruct (resizeMap_spec g R C Hs HC HR2 HC2)
    as (g' & Hrun & Hs' & HA & HB & HCq & HD).
  exists g'. split; [exact Hrun|]. split; [exact Hs'|].
  intros r c Hr Hc. exists (tile_at g r c).
  split; [exact (tile_at_load g R C r c Hs Hr Hc)|].
  split; [exact (HA r c Hr Hc)|]. split; [|split].
  - rewrite (HB r (c + C)) by lia. replace (c + C - C) with c by ring. reflexivity.
  - rewrite (HCq (r + R) c) by lia. replace (r + R - R) with r by ring. reflexivity.
  - rewrite (HD (r + R) (c + C)) by lia.
    replace (r + R - R) with r by ring. replace (c + C - C) with c by ring. reflexivity.
Qed.

(** C1. Neither [createMap] nor [resizeMap] rejects dimensions whose
    product exceeds [INT32_MAX]: [createMap] at 65536 by 65536 returns
    a map of that shape, and [resizeMap] applied to the 32768 by 32768
    map that [createMap] gives returns a map and the dimensions 65536
    and 65536, although 65536 * 65536 cells are more than [INT32_MAX]. *)
Theorem overflow_not_rejected :
  INT32_MAX < 65536 * 65536 /\
  (exists g, createMap junk 65536 65536 = Done (Some g) /\ shape g 65536 65536) /\
  (exists g g',
      createMap junk 32768 32768 = Done (Some g) /\
      resizeMap junk (Some g) 32768 32768 = Done (Some g', 65536, 65536) /\
      shape g' 65536 65536).
Proof.
  split; [unfold INT32_MAX; lia|]. split.
  - destruct (createMap_open 65536 65536 ltac:(lia) ltac:(lia)) as (g & Hg & Hs & _).
    exists g. split; assumption.
  - destruct (createMap_open 32768 32768 ltac:(lia) ltac:(lia)) as (g & Hg & Hs & _).
    destruct (resizeMap_spec g 32768 32768 Hs ltac:(lia)
                ltac:(unfold INT32_MAX; lia) ltac:(unfold INT32_MAX; lia))
      as (g' & Hrun & Hs' & _).
    exists g, g'. split; [exact Hg|]. split; [exact Hrun|exact Hs'].
Qed.

(** [resizeMap] never returns the null pointer: on a well-shaped map it
    returns a map whenever the doubled dimensions are [int]s, whatever
    their product. *)
Lemma resizeMap_never_null (map : option grid) (R C : Z) (r : option grid * Z * Z) :
  resizeMap junk map R C = Done r -> r.1.1 <> None.
Proof.
  unfold resizeMap.
  repeat match goal with
         | |- rbind ?x _ = _ -> _ => destruct x; simpl; [|discriminate]
         end.
  intros [= <-]. simpl. discriminate.
Qed.

End StorageProofs.

Section LoadProofs.
Context `{LogicH}.
Variable junk : ascii.

(** [loadLevel] when the file cannot be opened: the null pointer, and
    the three variables passed by reference as they were. *)
Lemma loadLevel_unopened (fs : file_system) (fileName : string)
  (maxRow maxCol : Z) (p : Player) :
  fs fileName = None ->
  loadLevel junk fs fileName maxRow maxCol p = Done (None, maxRow, maxCol, p).
Proof. intros Hfs. unfold loadLevel, open. rewrite Hfs. reflexivity. Qed.

(** [loadLevel] when the guard on the dimensions fires: the null
    pointer, with the dimensions and the player's position that were
    read from the file already stored. *)
Lemma loadLevel_guarded (fs : file_system) (fileName : string) (text : list ascii)
  (maxRow maxCol : Z) (p : Player) :
  fs fileName = Some text ->
  let '(r, f1) := extract_int (mkStream true false text) maxRow in
  let '(c, f2) := extract_int f1 maxCol in
  let '(pr, f3) := extract_int f2 (row p) in
  let '(pc, f4) := extract_int f3 (col p) in
  load_guard r c = true ->
  loadLevel junk fs fileName maxRow maxCol p
  = Done (None, r, c, mkPlayer pr pc (treasure p)).
Proof.
  intros Hfs. unfold loadLevel, open. rewrite Hfs. simpl.
  destruct (extract_int (mkStream true false text) maxRow) as [r f1].
  destruct (extract_int f1 maxCol) as [c f2].
  destruct (extract_int f2 (row p)) as [pr f3].
  destruct (extract_int f3 (col p)) as [pc f4].
  intros ->. reflexivity.
Qed.

(** [loadLevel] returns the null pointer in these two cases only. *)
Lemma loadLevel_null_cases (fs : file_system) (fileName : string)
  (maxRow maxCol : Z) (p : Player) (maxRow' maxCol' : Z) (p' : Player) :
  loadLevel junk fs fileName maxRow maxCol p = Done (None, maxRow', maxCol', p') ->
  fs fileName = None \/
  (is_Some (fs fileName) /\ load_guard maxRow' maxCol' = true).
Proof.
  unfold loadLevel, open. destruct (fs fileName) as [text|]; [|auto]. simpl.
  destruct (extract_int (mkStream true false text) maxRow) as [r f1].
  destruct (extract_int f1 maxCol) as [c f2].
  destruct (extract_int f2 (row p)) as [pr f3].
  destruct (extract_int f3 (col p)) as [pc f4].
  destruct (load_guard r c) eqn:Hg.
  - intros [= <- <- <-]. right. split; [eauto|exact Hg].
  - repeat match goal with
           | |- rbind ?x _ = _ -> _ => destruct x; simpl; [|discriminate]
           end.
    discriminate.
Qed.

(** The same two returns in the heap: nothing has been allocated. *)
Lemma loadLevel_unopened_heap (fs : file_system) (fileName : string)
  (maxRow maxCol : Z) (p : Player) (h : Heap.heap) :
  fs fileName = None ->
  Heap.loadLevel junk fs fileName maxRow maxCol p h
  = Done ((Heap.Null, maxRow, maxCol, p), h).
Proof. intros Hfs. unfold Heap.loadLevel, open. rewrite Hfs. reflexivity. Qed.

Lemma loadLevel_guarded_heap (fs : file_system) (fileName : string) (text : list ascii)
  (maxRow maxCol : Z) (p : Player) (h : Heap.heap) :
  fs fileName = Some text ->
  let '(r, f1) := extract_int (mkStream true false text) maxRow in
  let '(c, f2) := extract_int f1 maxCol in
  let '(pr, f3) := extract_int f2 (row p) in
  let '(pc, f4) := extract_int f3 (col p) in
  load_guard r c = true ->
  Heap.loadLevel junk fs fileName maxRow maxCol p h
  = Done ((Heap.Null, r, c, mkPlayer pr pc (treasure p)), h).
Proof.
  intros Hfs. unfold Heap.loadLevel, open. rewrite Hfs. simpl.
  destruct (extract_int (mkStream true false text) maxRow) as [r f1].
  destruct (extract_int f1 maxCol) as [c f2].
  destruct (extract_int f2 (row p)) as [pr f3].
  destruct (extract_int f3 (col p)) as [pc f4].
  intros ->. reflexivity.
Qed.

(** Past the guard [loadLevel] returns the pointer that [new char *[maxRow]]
    gave, which is not null: a call that returns the null pointer has
    left by one of the two early returns, with the heap it was given
    and the outputs the reading by content reports. *)
Lemma loadLevel_null_heap (fs : file_system) (fileName : string)
  (maxRow maxCol : Z) (p : Player) (h : Heap.heap)
  (R C : Z) (p' : Player) (h' : Heap.heap) :
  Heap.loadLevel junk fs fileName maxRow maxCol p h = Done ((Heap.Null, R, C, p'), h') ->
  h' = h /\ loadLevel junk fs fileName maxRow maxCol p = Done (None, R, C, p').
Proof.
  unfold Heap.loadLevel, loadLevel, open. destruct (fs fileName) as [text|]; simpl.
  - destruct (extract_int (mkStream true false text) maxRow) as [r f1].
    destruct (extract_int f1 maxCol) as [c f2].
    destruct (extract_int f2 (row p)) as [pr f3].
    destruct (extract_int f3 (col p)) as [pc f4].
    destruct (load_guard r c) eqn:Hg.
    + unfold Heap.ret. intros [= <- <- <- <-]. split; reflexivity.
    + unfold Heap.bind, Heap.new_rows. destruct (r <? 0); [discriminate|].
      repeat match goal with
             | |- match ?x with Done _ => _ | Fault _ => _ end = _ -> _ =>
                 destruct x as [[? ?]|]; [|discriminate]
             end.
      unfold Heap.ret. discriminate.
  - unfold Heap.ret. intros [= <- <- <- <-]. split; reflexivity.
Qed.

(** Conversely, a null pointer in the reading by content is a null
    pointer in every heap, with the same outputs. *)
Lemma loadLevel_null_heap_back (fs : file_system) (fileName : string)
  (maxRow maxCol : Z) (p : Player) (h : Heap.heap) (R C : Z) (p' : Player) :
  loadLevel junk fs fileName maxRow maxCol p = Done (None, R, C, p') ->
  Heap.loadLevel junk fs fileName maxRow maxCol p h = Done ((Heap.Null, R, C, p'), h).
Proof.
  unfold Heap.loadLevel, loadLevel, open. destruct (fs fileName) as [text|]; simpl.
  - destruct (extract_int (mkStream true false text) maxRow) as [r f1].
    destruct (extract_int f1 maxCol) as [c f2].
    destruct (extract_int f2 (row p)) as [pr f3].
    destruct (extract_int f3 (col p)) as [pc f4].
    destruct (load_guard r c) eqn:Hg.
    + intros [= <- <- <-]. reflexivity.
    + repeat match goal with
             | |- rbind ?x _ = _ -> _ => destruct x; simpl; [|discriminate]
             end.
      discriminate.
  - intros [= <- <- <-]. reflexivity.
Qed.

(** C4, as the code has it.  A [loadLevel] that fails, returning the
    null pointer, has allocated no map: the heap is the one the call
    was given, and the outputs are those that the reading by content
    reports with its null pointer.  When the file cannot be opened the row count, the
    column count and the player are as they were; when the guard on
    the dimensions fires they hold the values read from the file (the
    treasure count apart, which is never written). *)
Theorem loadLevel_failure (fs : file_system) (fileName : string)
  (maxRow maxCol : Z) (p : Player) (h : Heap.heap) :
  (forall R C p' h',
     Heap.loadLevel junk fs fileName maxRow maxCol p h
     = Done ((Heap.Null, R, C, p'), h') <->
     h' = h /\ loadLevel junk fs fileName maxRow maxCol p = Done (None, R, C, p')) /\
  (fs fileName = None ->
   Heap.loadLevel junk fs fileName maxRow maxCol p h
   = Done ((Heap.Null, maxRow, maxCol, p), h)) /\
  (forall text, fs fileName = Some text ->
     let '(r, f1) := extract_int (mkStream true false text) maxRow in
     let '(c, f2) := extract_int f1 maxCol in
     let '(pr, f3) := extract_int f2 (row p) in
     let '(pc, f4) := extract_int f3 (col p) in
     load_guard r c = true ->
     Heap.loadLevel junk fs fileName maxRow maxCol p h
     = Done ((Heap.Null, r, c, mkPlayer pr pc (treasure p)), h)).
Proof.
  split; [|split].
  - intros R C p' h'. split; [apply loadLevel_null_heap|].
    intros [-> Hnull]. apply loadLevel_null_heap_back. exact Hnull.
  - apply loadLevel_unopened_heap.
  - intros text Hfs. apply loadLevel_guarded_heap. exact Hfs.
Qed.

End LoadProofs.

(** * The statements on concrete worlds *)

Lemma sample_tiles_distinct : tiles_distinct.
Proof. unfold tiles_distinct. apply (bool_decide_unpack _). vm_compute. exact I. Qed.

Lemma small_room_wf : wf_world 3 3 small_room.
Proof. solve_wf. Qed.

Lemma small_room_only_player : only_player_at (cells small_room) 1 1.
Proof.
  split; [reflexivity|]. intros r c Hl.
  destruct (load_cell_bounds (cells small_room) 3 3 r c _ ltac:(solve_shape) Hl) as [Hr Hc].
  assert (r = 0 \/ r = 1 \/ r = 2) as [-> | [-> | ->]] by lia;
    assert (c = 0 \/ c = 1 \/ c = 2) as [-> | [-> | ->]] by lia;
    first [split; reflexivity | vm_compute in Hl; discriminate].
Qed.

(** C7 on the sample room: the move down runs into the Pillar. *)
Lemma doPlayerMove_blocked_stays_witness :
  doPlayerMove 3 3 2 1 small_room = Done (STATUS_STAY, small_room).
Proof.
  apply (doPlayerMove_blocked_stays 3 3 2 1 small_room).
  right. left. vm_compute. reflexivity.
Defined.

(** C8 on the sample room: the move left picks the treasure up. *)
Lemma doPlayerMove_treasure_witness :
  exists g',
    doPlayerMove 3 3 1 0 small_room
      = Done (STATUS_TREASURE, mkWorld g' (mkPlayer 1 0 1)) /\
    load_cell g' 1 0 = Done TILE_PLAYER /\
    load_cell g' 1 1 = Done TILE_OPEN /\
    forall r c, (r, c) <> (1, 0) -> (r, c) <> (1, 1) ->
                load_cell g' r c = load_cell (cells small_room) r c.
Proof.
  apply (doPlayerMove_treasure 3 3 1 0 small_room sample_tiles_distinct).
  - solve_shape.
  - simpl. lia.
  - simpl. lia.
  - lia.
  - lia.
  - simpl. intros [= E]. 
  - vm_compute. reflexivity.
  - unfold INT32_MIN, INT32_MAX. simpl. lia.
Defined.

(** C10 on the sample room. *)
Lemma doMonsterAttack_keeps_player_witness :
  exists b w',
    doMonsterAttack 3 3 3 small_room = Done (b, w') /\
    row (player w') = 1 /\ col (player w') = 1 /\ treasure (player w') = 0 /\
    shape (cells w') 3 3.
Proof.
  apply (doMonsterAttack_keeps_player 3 3 3).
  - simpl. lia.
  - solve_wf.
Defined.

(** C9 on the sample room. *)
Lemma doMonsterAttack_capture_check_witness :
  exists (w1 w2 w3 w4 : World) (b : bool),
    scan_direction 3 3 3 0 small_room = Done (tt, w1) /\
    scan_direction 3 3 3 1 w1 = Done (tt, w2) /\
    scan_direction 3 3 3 2 w2 = Done (tt, w3) /\
    scan_direction 3 3 3 3 w3 = Done (tt, w4) /\
    doMonsterAttack 3 3 3 small_room = Done (b, w4) /\
    (b = true <->
     load_cell (cells w4) (row (player w4)) (col (player w4)) = Done TILE_MONSTER).
Proof.
  apply (doMonsterAttack_capture_check 3 3 3).
  - simpl. lia.
  - solve_wf.
Defined.

Lemma corridor_two_monsters_in_sight :
  in_sight (cells corridor_two_monsters) 1 5 0 0 0 1 4.
Proof.
  split; [reflexivity|]. intros i Hi.
  assert (i = 1 \/ i = 2 \/ i = 3) as [-> | [-> | ->]] by lia;
    vm_compute; discriminate.
Qed.

(** C2 as amended, on the corridor: the farther of the two monsters,
    at distance 4, advances to distance 3 and leaves Open behind. *)
Lemma doMonsterAttack_advances_witness :
  exists b w',
    doMonsterAttack 5 1 5 corridor_two_monsters = Done (b, w') /\
    ray_cell (cells w') 0 0 0 1 3 = Done TILE_MONSTER /\
    (ray_cell (cells corridor_two_monsters) 0 0 0 1 5 = Done TILE_MONSTER ->
     ray_cell (cells w') 0 0 0 1 4 = Done TILE_MONSTER) /\
    (ray_cell (cells corridor_two_monsters) 0 0 0 1 5 <> Done TILE_MONSTER ->
     ray_cell (cells w') 0 0 0 1 4 = Done TILE_OPEN).
Proof.
  apply (doMonsterAttack_advances 1 5 5 sample_tiles_distinct ltac:(simpl; lia)
           corridor_two_monsters 2 4).
  - solve_wf.
  - lia.
  - lia.
  - exact corridor_two_monsters_in_sight.
  - vm_compute. reflexivity.
Defined.

(** C2 as stated fails: in the corridor the nearest monster, at
    distance 2, advances to distance 1, and in the same call the
    monster further out on the same ray, at distance 4, moves to
    distance 3. *)
Lemma far_monster_also_moves :
  ray_cell (cells corridor_two_monsters) 0 0 0 1 1 = Done TILE_OPEN /\
  ray_cell (cells corridor_two_monsters) 0 0 0 1 2 = Done TILE_MONSTER /\
  ray_cell (cells corridor_two_monsters) 0 0 0 1 3 = Done TILE_OPEN /\
  ray_cell (cells corridor_two_monsters) 0 0 0 1 4 = Done TILE_MONSTER /\
  doMonsterAttack 5 1 5 corridor_two_monsters
  = Done (false, mkWorld (rows_of ["oM-M-"]%string) (mkPlayer 0 0 0)).
Proof. vm_compute. repeat split. Qed.

Lemma corridor_treasure_reach :
  ray_reach 1 3 0 1 (corridor_treasure, 0, 1) (corridor_treasure, 0, 2).
Proof.
  eapply ray_reach_pass; [apply ray_reach_start|reflexivity|vm_compute; reflexivity].
Qed.

(** C3 as amended, on the corridor with a treasure. *)
Lemma advance_target_witness :
  exists x g1,
    load_cell (cells corridor_treasure) 0 1 = Done x /\
    store_cell (cells corridor_treasure) 0 1 TILE_MONSTER = Done g1 /\
    ((0, 1) = (0, 0) \/ (x <> TILE_PILLAR /\ x <> TILE_MONSTER)).
Proof.
  apply (advance_target 1 3 sample_tiles_distinct 2 corridor_treasure corridor_treasure 0 2).
  - solve_wf.
  - exact corridor_treasure_reach.
  - reflexivity.
  - vm_compute. reflexivity.
Defined.

(** C3 as stated fails: the scan to the right reaches the Monster at
    column 2 while the cell behind it, which is not the player's, holds
    Treasure; the Monster is written over the Treasure. *)
Lemma monster_tramples_treasure :
  ray_reach 1 3 0 1 (corridor_treasure, 0, 1) (corridor_treasure, 0, 2) /\
  load_cell (cells corridor_treasure) 0 2 = Done TILE_MONSTER /\
  load_cell (cells corridor_treasure) 0 1 = Done TILE_TREASURE /\
  TILE_TREASURE <> TILE_OPEN /\ TILE_TREASURE <> TILE_PLAYER /\
  doMonsterAttack 3 1 3 corridor_treasure
  = Done (false, mkWorld (rows_of ["oM-"]%string) (mkPlayer 0 0 0)).
Proof.
  split; [exact corridor_treasure_reach|].
  vm_compute. repeat split; discriminate.
Qed.

(** C5 as amended, on the sample room. *)
Lemma player_tile_kept_witness :
  (exists s w',
      doPlayerMove 3 3 1 0 small_room = Done (s, w') /\
      only_player_at (cells w') (row (player w')) (col (player w'))) /\
  (exists b w',
      doMonsterAttack 3 3 3 small_room = Done (b, w') /\
      player w' = player small_room /\
      (b = false -> only_player_at (cells w') (row (player w')) (col (player w'))) /\
      (b = true ->
       load_cell (cells w') (row (player w')) (col (player w')) = Done TILE_MONSTER /\
       forall r c, load_cell (cells w') r c <> Done TILE_PLAYER)).
Proof.
  apply (player_tile_kept 3 3 3 sample_tiles_distinct ltac:(simpl; lia) small_room 1 0).
  - exact small_room_wf.
  - exact small_room_only_player.
  - unfold INT32_MIN, INT32_MAX. simpl. lia.
Defined.

(** C5 as stated fails for [doMonsterAttack]: with a monster next to
    the player, the call writes Monster over the Player tile, and the
    cell at the player's coordinates no longer holds it. *)
Lemma capture_removes_player_tile :
  load_cell (cells corridor_adjacent) 0 0 = Done TILE_PLAYER /\
  load_cell (cells corridor_adjacent) 0 1 = Done TILE_MONSTER /\
  doMonsterAttack 2 1 2 corridor_adjacent
  = Done (true, mkWorld (rows_of ["M-"]%string) (mkPlayer 0 0 0)) /\
  load_cell (rows_of ["M-"]%string) 0 0 <> Done TILE_PLAYER.
Proof. vm_compute. repeat split. discriminate. Qed.

(** C6 on a map of two rows and two columns. *)
Lemma resizeMap_quadrants_witness :
  exists g',
    resizeMap "#"%char (Some (rows_of ["o$"; "M+"]%string)) 2 2 = Done (Some g', 4, 4) /\
    shape g' 4 4 /\
    forall r c, 0 <= r < 2 -> 0 <= c < 2 ->
      exists x,
        load_cell (rows_of ["o$"; "M+"]%string) r c = Done x /\
        load_cell g' r c = Done x /\
        load_cell g' r (c + 2) = Done (player_as_open x) /\
        load_cell g' (r + 2) c = Done (player_as_open x) /\
        load_cell g' (r + 2) (c + 2) = Done (player_as_open x).
Proof.
  apply (resizeMap_quadrants "#"%char (rows_of ["o$"; "M+"]%string) 2 2).
  - solve_shape.
  - lia.
  - unfold INT32_MAX. lia.
  - unfold INT32_MAX. lia.
Defined.

(** C4 as stated fails: on a level whose declared size trips the guard,
    [loadLevel] returns the null pointer after it has overwritten the
    row count, the column count and the player's position. *)
Lemma loadLevel_guard_overwrites_outputs :
  loadLevel "#"%char oversized_level "huge.txt" 7 8 (mkPlayer 5 6 0)
  = Done (None, 65536, 65536, mkPlayer 1 1 0).
Proof. vm_compute. reflexivity. Qed.

(** The guard of [loadLevel] does fire on 65536 by 65536. *)
Lemma load_guard_fires : load_guard 65536 65536 = true.
Proof. vm_compute. reflexivity. Qed.

(** * Further properties of the moves *)

Section MoveExtras.
Context `{LogicH}.

Lemma tiles_distinct_items :
  tiles_distinct ->
  TILE_DOOR <> TILE_EXIT /\ TILE_DOOR <> TILE_AMULET /\ TILE_EXIT <> TILE_AMULET /\
  TILE_DOOR <> TILE_TREASURE /\ TILE_EXIT <> TILE_TREASURE /\
  TILE_AMULET <> TILE_TREASURE.
Proof.
  unfold tiles_distinct. intros Hnd.
  repeat match goal with
         | Hn : NoDup (_ :: _) |- _ => apply NoDup_cons in Hn as [? Hn]
         end.
  repeat match goal with
         | Hn : _ ∉ _ :: _ |- _ => apply not_elem_of_cons in Hn as [? Hn]
         end.
  repeat split; congruence.
Qed.

(** Every call of [doPlayerMove] on a well-shaped map with the player
    inside: either nothing changes, or the target lies in the map and
    holds neither Pillar nor Monster, the two writes are made, the
    player stands on the target and the treasure count has grown by at
    most one. *)
Lemma doPlayerMove_effect (maxRow maxCol nextRow nextCol : Z) (w : World) :
  shape (cells w) maxRow maxCol ->
  0 <= row (player w) < maxRow -> 0 <= col (player w) < maxCol ->
  INT32_MIN <= treasure (player w) < INT32_MAX ->
  exists s w',
    doPlayerMove maxRow maxCol nextRow nextCol w = Done (s, w') /\
    (w' = w \/
     (0 <= nextRow < maxRow /\ 0 <= nextCol < maxCol /\
      exists x g1,
        load_cell (cells w) nextRow nextCol = Done x /\
        x <> TILE_PILLAR /\ x <> TILE_MONSTER /\
        store_cell (cells w) (row (player w)) (col (player w)) TILE_OPEN = Done g1 /\
        store_cell g1 nextRow nextCol TILE_PLAYER = Done (cells w') /\
        row (player w') = nextRow /\ col (player w') = nextCol /\
        (treasure (player w') = treasure (player w) \/
         treasure (player w') = treasure (player w) + 1))).
Proof.
  intros Hs Hpr Hpc Htr. unfold doPlayerMove.
  destruct ((nextRow >=? maxRow) || (nextRow <? 0) || (nextCol >=? maxCol) || (nextCol <? 0))
    eqn:Hout; [eexists _, _; split; [reflexivity|left; reflexivity]|].
  assert (0 <= nextRow < maxRow /\ 0 <= nextCol < maxCol) as [Hnr Hnc].
  { repeat (apply orb_false_elim in Hout as [Hout ?]). lia. }
  destruct (load_cell_defined _ _ _ _ _ Hs Hnr Hnc) as [x Hx].
  destruct (move_writes _ _ _ _ _ _ _ Hs Hpr Hpc Hnr Hnc) as (g1 & g2 & Hg1 & Hg2 & _).
  run_turn. rewrite Hx.
  destruct (bool_decide (x = TILE_PILLAR)) eqn:Ep;
    [eexists _, _; split; [reflexivity|left; reflexivity]|].
  destruct (bool_decide (x = TILE_MONSTER)) eqn:Em;
    [eexists _, _; split; [reflexivity|left; reflexivity]|].
  apply bool_decide_eq_false in Ep, Em. simpl.
  destruct (bool_decide (x = TILE_EXIT) && (treasure (player w) =? 0));
    [eexists _, _; split; [reflexivity|left; reflexivity]|].
  destruct (bool_decide (x = TILE_TREASURE)).
  - rewrite int_add_in_range by lia. simpl. rewrite Hg1. simpl. rewrite Hg2.
    eexists _, _. split; [reflexivity|]. right. split; [exact Hnr|]. split; [exact Hnc|].
    exists x, g1. simpl. auto 10.
  - simpl. rewrite Hg1. simpl. rewrite Hg2.
    eexists _, _. split; [reflexivity|]. right. split; [exact Hnr|]. split; [exact Hnc|].
    exists x, g1. simpl. auto 10.
Qed.

(** X1.  A move is never refused with a fault, and it keeps the world well
    formed: the map keeps its shape and the player stays inside it,
    either where it stood or on the target; the treasure count stays or
    grows by one. *)
Theorem doPlayerMove_keeps_wf (maxRow maxCol nextRow nextCol : Z) (w : World) :
  wf_world maxRow maxCol w ->
  INT32_MIN <= treasure (player w) < INT32_MAX ->
  exists s w',
    doPlayerMove maxRow maxCol nextRow nextCol w = Done (s, w') /\
    wf_world maxRow maxCol w' /\
    ((row (player w'), col (player w')) = (row (player w), col (player w)) \/
     (row (player w'), col (player w')) = (nextRow, nextCol)) /\
    (treasure (player w') = treasure (player w) \/
     treasure (player w') = treasure (player w) + 1).
Proof.
  intros (Hs & HR & HC & Hpr & Hpc) Htr.
  destruct (doPlayerMove_effect maxRow maxCol nextRow nextCol w Hs Hpr Hpc Htr)
    as (s & w' & Hrun & [-> | (Hnr & Hnc & x & g1 & _ & _ & _ & Hg1 & Hg2 & Hr & Hc & Ht)]).
  - exists s, w. split; [exact Hrun|]. unfold wf_world. auto 10.
  - exists s, w'. split; [exact Hrun|]. split; [|split; [right; congruence|exact Ht]].
    unfold wf_world. rewrite Hr, Hc. split; [|auto].
    eapply store_cell_shape; [|exact Hg2]. eapply store_cell_shape; [exact Hs|exact Hg1].
Qed.

(** X2.  A move never removes an obstacle: every cell other than the one
    the player stands on that holds Pillar or Monster holds the same
    tile after the call. *)
Theorem doPlayerMove_keeps_obstacles (maxRow maxCol nextRow nextCol : Z) (w : World) :
  wf_world maxRow maxCol w ->
  INT32_MIN <= treasure (player w) < INT32_MAX ->
  exists s w',
    doPlayerMove maxRow maxCol nextRow nextCol w = Done (s, w') /\
    forall r c x,
      (r, c) <> (row (player w), col (player w)) ->
      load_cell (cells w) r c = Done x ->
      x = TILE_PILLAR \/ x = TILE_MONSTER ->
      load_cell (cells w') r c = Done x.
Proof.
  intros (Hs & HR & HC & Hpr & Hpc) Htr.
  destruct (doPlayerMove_effect maxRow maxCol nextRow nextCol w Hs Hpr Hpc Htr)
    as (s & w' & Hrun & [-> | (Hnr & Hnc & y & g1 & Hy & Hyp & Hym & Hg1 & Hg2 & _)]).
  - exists s, w. split; [exact Hrun|]. auto.
  - exists s, w'. split; [exact Hrun|]. intros r c x Hne Hx Hobst.
    assert (Hnt : (r, c) <> (nextRow, nextCol)).
    { intros [= -> ->]. rewrite Hy in Hx. injection Hx as ->. destruct Hobst; contradiction. }
    rewrite (load_store_other _ _ _ _ _ _ _ Hg2 Hnt).
    rewrite (load_store_other _ _ _ _ _ _ _ Hg1 Hne). exact Hx.
Qed.

(** X3.  The status of an allowed move that collects no treasure.  On a
    target other than the player's own cell that holds neither Pillar,
    Monster nor Treasure, and is no Exit unless the player carries
    treasure, the move is made: the player stands on the target with
    the treasure count it had, the target holds Player, the cell left
    holds Open and no other cell changes.  The status is
    [STATUS_LEAVE] on Door, [STATUS_ESCAPE] on Exit, [STATUS_AMULET] on
    Amulet and [STATUS_MOVE] on every other tile. *)
Theorem doPlayerMove_allowed (maxRow maxCol nextRow nextCol : Z) (w : World) (x : ascii) :
  tiles_distinct ->
  shape (cells w) maxRow maxCol ->
  0 <= row (player w) < maxRow -> 0 <= col (player w) < maxCol ->
  0 <= nextRow < maxRow -> 0 <= nextCol < maxCol ->
  (nextRow, nextCol) <> (row (player w), col (player w)) ->
  load_cell (cells w) nextRow nextCol = Done x ->
  x <> TILE_PILLAR -> x <> TILE_MONSTER -> x <> TILE_TREASURE ->
  (x = TILE_EXIT -> 0 < treasure (player w)) ->
  exists s g',
    doPlayerMove maxRow maxCol nextRow nextCol w
      = Done (s, mkWorld g' (mkPlayer nextRow nextCol (treasure (player w)))) /\
    (x = TILE_DOOR -> s = STATUS_LEAVE) /\
    (x = TILE_EXIT -> s = STATUS_ESCAPE) /\
    (x = TILE_AMULET -> s = STATUS_AMULET) /\
    (x <> TILE_DOOR -> x <> TILE_EXIT -> x <> TILE_AMULET -> s = STATUS_MOVE) /\
    load_cell g' nextRow nextCol = Done TILE_PLAYER /\
    load_cell g' (row (player w)) (col (player w)) = Done TILE_OPEN /\
    forall r c, (r, c) <> (nextRow, nextCol) ->
                (r, c) <> (row (player w), col (player w)) ->
                load_cell g' r c = load_cell (cells w) r c.
Proof.
  intros Hd Hs Hpr Hpc Hnr Hnc Hne Hx Hxp Hxm Hxt Hexit.
  destruct (tiles_distinct_items Hd) as (Hde & Hda & Hea & _).
  destruct (move_writes _ _ _ _ _ _ _ Hs Hpr Hpc Hnr Hnc) as (g1 & g2 & Hg1 & Hg2 & _).
  assert (Hcells :
    load_cell g2 nextRow nextCol = Done TILE_PLAYER /\
    load_cell g2 (row (player w)) (col (player w)) = Done TILE_OPEN /\
    forall r c, (r, c) <> (nextRow, nextCol) ->
                (r, c) <> (row (player w), col (player w)) ->
                load_cell g2 r c = load_cell (cells w) r c).
  { split; [exact (load_store_same _ _ _ _ _ Hg2)|]. split.
    - rewrite (load_store_other _ _ _ _ _ _ _ Hg2) by congruence.
      exact (load_store_same _ _ _ _ _ Hg1).
    - intros r c Hn1 Hn2. rewrite (load_store_other _ _ _ _ _ _ _ Hg2 Hn1).
      exact (load_store_other _ _ _ _ _ _ _ Hg1 Hn2). }
  unfold doPlayerMove. rewrite (target_in_bounds _ _ _ _ Hnr Hnc). run_turn. rewrite Hx.
  rewrite (bool_decide_eq_false_2 (x = TILE_PILLAR)) by exact Hxp.
  rewrite (bool_decide_eq_false_2 (x = TILE_MONSTER)) by exact Hxm.
  rewrite (bool_decide_eq_false_2 (x = TILE_TREASURE)) by exact Hxt. simpl.
  destruct (decide (x = TILE_EXIT)) as [Ee|Ee].
  - specialize (Hexit Ee).
    rewrite (bool_decide_eq_true_2 (x = TILE_EXIT)) by exact Ee.
    destruct (treasure (player w) =? 0) eqn:E0; [lia|].
    destruct (treasure (player w) >? 0) eqn:E1; [|lia]. simpl.
    rewrite (bool_decide_eq_false_2 (x = TILE_AMULET)) by congruence.
    rewrite Hg1. simpl. rewrite Hg2.
    eexists _, g2. split; [reflexivity|].
    split; [congruence|]. split; [reflexivity|]. split; [congruence|].
    split; [contradiction|exact Hcells].
  - rewrite (bool_decide_eq_false_2 (x = TILE_EXIT)) by exact Ee. simpl.
    rewrite Hg1. simpl. rewrite Hg2.
    eexists _, g2. split; [reflexivity|].
    destruct (decide (x = TILE_AMULET)) as [Ea|Ea].
    + rewrite (bool_decide_eq_true_2 (x = TILE_AMULET)) by exact Ea.
      split; [congruence|]. split; [contradiction|]. split; [reflexivity|].
      split; [contradiction|exact Hcells].
    + rewrite (bool_decide_eq_false_2 (x = TILE_AMULET)) by exact Ea.
      destruct (decide (x = TILE_DOOR)) as [Edo|Edo].
      * rewrite (bool_decide_eq_true_2 (x = TILE_DOOR)) by exact Edo.
        split; [reflexivity|]. split; [contradiction|]. split; [contradiction|].
        split; [contradiction|exact Hcells].
      * rewrite (bool_decide_eq_false_2 (x = TILE_DOOR)) by exact Edo.
        split; [contradiction|]. split; [contradiction|]. split; [contradiction|].
        split; [reflexivity|exact Hcells].
Qed.

(** X4.  A key press moves the player by at most one cell, along one axis,
    and never out of the map: [getDirection] applied to the player's
    coordinates, followed by [doPlayerMove] on the result, leaves a
    well-formed world in which the player's row and column differ from
    the former ones by at most one step in total. *)
Theorem key_press_one_step (maxRow maxCol : Z) (input : ascii) (w : World) :
  wf_world maxRow maxCol w ->
  INT32_MIN <= treasure (player w) < INT32_MAX ->
  exists nextRow nextCol s w',
    getDirection input (row (player w)) (col (player w)) = Done (nextRow, nextCol) /\
    doPlayerMove maxRow maxCol nextRow nextCol w = Done (s, w') /\
    wf_world maxRow maxCol w' /\
    Z.abs (row (player w') - row (player w)) +
    Z.abs (col (player w') - col (player w)) <= 1.
Proof.
  intros Hwf Htr. pose proof Hwf as (Hs & HR & HC & Hpr & Hpc).
  assert (Hdirn : exists nr nc,
             getDirection input (row (player w)) (col (player w)) = Done (nr, nc) /\
             Z.abs (nr - row (player w)) + Z.abs (nc - col (player w)) <= 1).
  { unfold getDirection.
    repeat match goal with
           | |- context [bool_decide ?P] => destruct (bool_decide P)
           end;
      try (rewrite int_sub_in_range by (unfold INT32_MIN, INT32_MAX in *; lia));
      try (rewrite int_add_in_range by (unfold INT32_MIN, INT32_MAX in *; lia));
      simpl; eexists _, _; (split; [reflexivity|lia]). }
  destruct Hdirn as (nr & nc & Hdirn & Hstep).
  destruct (doPlayerMove_effect maxRow maxCol nr nc w Hs Hpr Hpc Htr)
    as (s & w' & Hrun & [-> | (Hnr & Hnc & x & g1 & _ & _ & _ & Hg1 & Hg2 & Hr & Hc & _)]).
  - exists nr, nc, s, w. split; [exact Hdirn|]. split; [exact Hrun|].
    split; [exact Hwf|lia].
  - exists nr, nc, s, w'. split; [exact Hdirn|]. split; [exact Hrun|].
    rewrite Hr, Hc. split; [|exact Hstep].
    unfold wf_world. rewrite Hr, Hc. split; [|auto].
    eapply store_cell_shape; [|exact Hg2]. eapply store_cell_shape; [exact Hs|exact Hg1].
Qed.

End MoveExtras.

(** * Further properties of the monsters' turn *)

Section GridEquality.

(** Two storages of one shape with the same cells are the same. *)
Lemma grid_ext (g g' : grid) (R C : Z) :
  shape g R C -> shape g' R C ->
  (forall r c, load_cell g' r c = load_cell g r c) ->
  g' = g.
Proof.
  intros [Hlen Hall] [Hlen' Hall'] Hcells.
  rewrite Forall_lookup in Hall. rewrite Forall_lookup in Hall'.
  apply list_eq. intros i.
  destruct (g !! i) as [l|] eqn:Hl; destruct (g' !! i) as [l'|] eqn:Hl'.
  - f_equal. pose proof (Hall _ _ Hl) as HC. pose proof (Hall' _ _ Hl') as HC'.
    simpl in HC, HC'. apply list_eq. intros j.
    specialize (Hcells (Z.of_nat i) (Z.of_nat j)). unfold load_cell in Hcells.
    rewrite (proj2 (Z.ltb_ge (Z.of_nat i) 0)), (proj2 (Z.ltb_ge (Z.of_nat j) 0)) in Hcells
      by lia.
    simpl in Hcells. rewrite !Nat2Z.id, Hl, Hl' in Hcells.
    destruct (l !! j) as [x|] eqn:Hx; destruct (l' !! j) as [x'|] eqn:Hx';
      [congruence| | |reflexivity].
    + apply lookup_lt_Some in Hx. apply lookup_ge_None in Hx'. lia.
    + apply lookup_lt_Some in Hx'. apply lookup_ge_None in Hx. lia.
  - apply lookup_lt_Some in Hl. apply lookup_ge_None in Hl'. lia.
  - apply lookup_lt_Some in Hl'. apply lookup_ge_None in Hl. lia.
  - reflexivity.
Qed.

End GridEquality.

Section AttackExtras.
Context `{LogicH}.
Variables (R C : Z) (fuel : nat).
Hypothesis (Hd : tiles_distinct).
Hypothesis (Hfuel : Z.max R C <= Z.of_nat fuel).

(** A cell lies on the ray of a direction, or on none of its cells. *)
Lemma on_ray_dec (dr dc r0 c0 r c : Z) :
  is_dir dr dc ->
  (exists n, 0 <= n /\ (r, c) = (r0 + n * dr, c0 + n * dc)) \/
  (forall n, 0 <= n -> (r, c) <> (r0 + n * dr, c0 + n * dc)).
Proof.
  intros [[-> ->] | [[-> ->] | [[-> ->] | [-> ->]]]].
  - destruct (decide (c = c0 /\ r0 <= r)) as [[-> Hr]|Hn].
    + left. exists (r - r0). split; [lia|]. f_equal; lia.
    + right. intros n Hn0 [= E1 E2]. lia.
  - destruct (decide (c = c0 /\ r <= r0)) as [[-> Hr]|Hn].
    + left. exists (r0 - r). split; [lia|]. f_equal; lia.
    + right. intros n Hn0 [= E1 E2]. lia.
  - destruct (decide (r = r0 /\ c0 <= c)) as [[-> Hc]|Hn].
    + left. exists (c - c0). split; [lia|]. f_equal; lia.
    + right. intros n Hn0 [= E1 E2]. lia.
  - destruct (decide (r = r0 /\ c <= c0)) as [[-> Hc]|Hn].
    + left. exists (c0 - c). split; [lia|]. f_equal; lia.
    + right. intros n Hn0 [= E1 E2]. lia.
Qed.

(** Two directions of the table are the same, or their rays share no
    cell but the one they start from. *)
Lemma rays_apart (dr dc dr' dc' r0 c0 : Z) :
  is_dir dr dc -> is_dir dr' dc' ->
  (dr = dr' /\ dc = dc') \/
  (forall n m, 1 <= n -> 0 <= m ->
     (r0 + n * dr, c0 + n * dc) <> (r0 + m * dr', c0 + m * dc')).
Proof.
  intros [[-> ->] | [[-> ->] | [[-> ->] | [-> ->]]]]
         [[-> ->] | [[-> ->] | [[-> ->] | [-> ->]]]];
    first [left; split; reflexivity | right; intros n m Hn Hm [= E1 E2]; lia].
Qed.

(** A relation between maps that every single scan establishes, and
    that is reflexive and transitive, holds between the map before and
    the map after the scans of a list of directions. *)
Lemma scan_list_related (Q : grid -> grid -> Prop) (pr pc : Z) (l : list nat) :
  (forall g, Q g g) ->
  (forall g1 g2 g3, shape g1 R C -> shape g2 R C -> Q g1 g2 -> Q g2 g3 -> Q g1 g3) ->
  (forall i g g', shape g R C ->
     ray_effect g g' R C pr pc (dir i).1 (dir i).2 -> Q g g') ->
  forall w, wf_world R C w -> row (player w) = pr -> col (player w) = pc ->
  exists w',
    for_each l (scan_direction fuel R C) w = Done (tt, w') /\
    player w' = player w /\
    wf_world R C w' /\
    Q (cells w) (cells w').
Proof.
  intros Hrefl Htrans Hstep. induction l as [|j l IH]; intros w Hwf Hpr Hpc.
  - exists w. split; [reflexivity|]. split; [reflexivity|]. split; [exact Hwf|apply Hrefl].
  - destruct (scan_direction_effect R C fuel Hd Hfuel j w Hwf)
      as (w1 & Hrun1 & Hpl1 & Hwf1 & Heff).
    rewrite Hpr, Hpc in Heff.
    destruct (IH w1 Hwf1) as (w' & Hrun & Hpl & Hwf' & HQ); [congruence|congruence|].
    exists w'. split; [exact (for_each_cons _ _ _ _ _ _ Hrun1 Hrun)|].
    split; [congruence|]. split; [exact Hwf'|].
    apply (Htrans _ (cells w1)); [apply Hwf|apply Hwf1| |exact HQ].
    apply (Hstep j); [apply Hwf|exact Heff].
Qed.

(** The call, with the map it leaves related to the map it was given. *)
Lemma doMonsterAttack_related (Q : grid -> grid -> Prop) (w : World) :
  (forall g, Q g g) ->
  (forall g1 g2 g3, shape g1 R C -> shape g2 R C -> Q g1 g2 -> Q g2 g3 -> Q g1 g3) ->
  (forall i g g', shape g R C ->
     ray_effect g g' R C (row (player w)) (col (player w)) (dir i).1 (dir i).2 ->
     Q g g') ->
  wf_world R C w ->
  exists x w',
    doMonsterAttack fuel R C w = Done (bool_decide (x = TILE_MONSTER), w') /\
    load_cell (cells w') (row (player w)) (col (player w)) = Done x /\
    player w' = player w /\
    wf_world R C w' /\
    Q (cells w) (cells w').
Proof.
  intros Hrefl Htrans Hstep Hwf.
  destruct (scan_list_related Q _ _ [0; 1; 2; 3]%nat Hrefl Htrans Hstep w Hwf eq_refl eq_refl)
    as (w' & Hrun & Hpl & Hwf' & HQ).
  destruct (doMonsterAttack_run R C fuel Hd Hfuel w Hwf)
    as (w'' & x & Hrun' & Hx & Hcall & _).
  rewrite Hrun in Hrun'. injection Hrun' as <-.
  exists x, w'. auto.
Qed.

(** X5.  [doMonsterAttack] touches the player's row and column only: a
    cell in another row and another column is the same after the call. *)
Theorem doMonsterAttack_row_and_column_only (w : World) :
  wf_world R C w ->
  exists b w',
    doMonsterAttack fuel R C w = Done (b, w') /\
    forall r c, r <> row (player w) -> c <> col (player w) ->
                load_cell (cells w') r c = load_cell (cells w) r c.
Proof.
  intros Hwf.
  destruct (doMonsterAttack_related
              (fun g g' => forall r c, r <> row (player w) -> c <> col (player w) ->
                                       load_cell g' r c = load_cell g r c) w)
    as (x & w' & Hcall & _ & _ & _ & HQ); [auto| | |exact Hwf|].
  - intros g1 g2 g3 _ _ H12 H23 r c Hr Hc. rewrite H23, H12; auto.
  - intros i g g' _ (_ & HF & _) r c Hr Hc. apply HF.
    intros n Hn [= E1 E2]. pose proof (dir_is_dir i) as Hdir. unfold is_dir in Hdir. nia.
  - exists (bool_decide (x = TILE_MONSTER)), w'. split; [exact Hcall|exact HQ].
Qed.

(** X6.  A Pillar cuts the line of sight.  When the cell at distance [k] on
    the ray of a direction holds a Pillar, that cell and every cell
    further out on the ray are the same after the call: no Monster
    behind the Pillar moves along this ray. *)
Theorem doMonsterAttack_pillar_blocks (w : World) (i : nat) (k : Z) :
  wf_world R C w -> 1 <= k ->
  ray_cell (cells w) (row (player w)) (col (player w)) (dir i).1 (dir i).2 k
    = Done TILE_PILLAR ->
  exists b w',
    doMonsterAttack fuel R C w = Done (b, w') /\
    forall n, k <= n ->
      ray_cell (cells w') (row (player w)) (col (player w)) (dir i).1 (dir i).2 n
      = ray_cell (cells w) (row (player w)) (col (player w)) (dir i).1 (dir i).2 n.
Proof.
  intros Hwf Hk Hpillar.
  destruct (tiles_distinct_facts Hd) as (_ & _ & _ & _ & _ & Hmp & _).
  set (pr := row (player w)) in *. set (pc := col (player w)) in *.
  destruct (doMonsterAttack_related
              (fun g g' =>
                 ray_cell g pr pc (dir i).1 (dir i).2 k = Done TILE_PILLAR ->
                 forall n, k <= n ->
                   ray_cell g' pr pc (dir i).1 (dir i).2 n
                   = ray_cell g pr pc (dir i).1 (dir i).2 n) w)
    as (x & w' & Hcall & _ & _ & _ & HQ); [auto| | |exact Hwf|].
  - intros g1 g2 g3 _ _ H12 H23 Hp n Hn.
    rewrite H23; [apply H12; assumption| |exact Hn].
    rewrite H12 by (assumption || lia). exact Hp.
  - fold pr pc. intros j g g' _ (_ & HF & _ & _ & HU) Hp n Hn.
    destruct (rays_apart (dir i).1 (dir i).2 (dir j).1 (dir j).2 pr pc
                (dir_is_dir i) (dir_is_dir j)) as [[E1 E2] | Hapart].
    + rewrite <- E1, <- E2 in HU. apply HU; [lia| |].
      * intros [[_ Hclear] _]. apply (Hclear k); [lia|exact Hp].
      * intros (_ & [_ Hclear] & Hm). destruct (decide (n = k)) as [->|Hnk].
        -- congruence.
        -- apply (Hclear k); [lia|exact Hp].
    + unfold ray_cell. apply HF. intros m Hm. apply Hapart; lia.
  - exists (bool_decide (x = TILE_MONSTER)), w'. split; [exact Hcall|].
    apply HQ. exact Hpillar.
Qed.

(** The part of [ray_effect] that concerns the cell the scan starts
    next to: it holds Monster afterwards exactly when it did before or
    the first cell of the ray held one. *)
Lemma ray_effect_base (g g' : grid) (r0 c0 dr dc : Z) :
  shape g R C ->
  ray_effect g g' R C r0 c0 dr dc ->
  (load_cell g' r0 c0 = Done TILE_MONSTER <->
   load_cell g r0 c0 = Done TILE_MONSTER \/
   ray_cell g r0 c0 dr dc 1 = Done TILE_MONSTER).
Proof.
  intros Hs (_ & _ & HA & _ & HU).
  assert (Hcell0 : forall g0 : grid, ray_cell g0 r0 c0 dr dc 0 = load_cell g0 r0 c0).
  { intros g0. unfold ray_cell. f_equal; ring. }
  specialize (HA 0). specialize (HU 0).
  replace (0 + 1) with 1 in HA, HU by lia.
  rewrite (Hcell0 g') in HA. rewrite (Hcell0 g'), !(Hcell0 g) in HU.
  assert (Hsight : ray_cell g r0 c0 dr dc 1 = Done TILE_MONSTER ->
                   in_sight g R C r0 c0 dr dc 1).
  { intros Hm. split; [|intros j Hj; lia]. apply ray_cond_true.
    exact (load_cell_bounds _ _ _ _ _ _ Hs Hm). }
  destruct (ray_cell g r0 c0 dr dc 1) as [y|e] eqn:Hy.
  - destruct (decide (y = TILE_MONSTER)) as [->|Hne].
    + split; [intros _; right; reflexivity|].
      intros _. apply HA; [lia|auto|reflexivity].
    + rewrite HU; [|lia| |lia].
      * split; [intros E; left; exact E|]. intros [E|E]; [exact E|congruence].
      * intros [_ E]. congruence.
  - rewrite HU; [|lia| |lia].
    + split; [intros E; left; exact E|]. intros [E|E]; [exact E|discriminate].
    + intros [_ E]. discriminate.
Qed.

(** After the scans of a list of different directions the player's
    cell holds Monster exactly when it did before or the first cell of
    one of the rays held one. *)
Lemma capture_list (l : list nat) :
  NoDup (dir <$> l) ->
  forall w, wf_world R C w ->
  exists w',
    for_each l (scan_direction fuel R C) w = Done (tt, w') /\
    player w' = player w /\
    (load_cell (cells w') (row (player w)) (col (player w)) = Done TILE_MONSTER <->
     load_cell (cells w) (row (player w)) (col (player w)) = Done TILE_MONSTER \/
     exists j, j ∈ l /\
       ray_cell (cells w) (row (player w)) (col (player w)) (dir j).1 (dir j).2 1
       = Done TILE_MONSTER).
Proof.
  induction l as [|j l IH]; intros Hnd w Hwf.
  - exists w. split; [reflexivity|]. split; [reflexivity|].
    split; [auto|]. intros [E|(j & Hj & _)]; [exact E|]. apply elem_of_nil in Hj. contradiction.
  - rewrite fmap_cons in Hnd. apply NoDup_cons in Hnd as [Hfresh Hnd].
    destruct (scan_direction_effect R C fuel Hd Hfuel j w Hwf)
      as (w1 & Hrun1 & Hpl1 & Hwf1 & Heff).
    destruct (IH Hnd w1 Hwf1) as (w' & Hrun & Hpl & Hiff).
    rewrite Hpl1 in Hiff.
    exists w'. split; [exact (for_each_cons _ _ _ _ _ _ Hrun1 Hrun)|].
    split; [congruence|].
    pose proof (ray_effect_base _ _ _ _ _ _ (proj1 Hwf) Heff) as Hbase.
    assert (Hkeep : forall k, k ∈ l ->
              ray_cell (cells w1) (row (player w)) (col (player w)) (dir k).1 (dir k).2 1
              = ray_cell (cells w) (row (player w)) (col (player w)) (dir k).1 (dir k).2 1).
    { intros k Hk. destruct Heff as (_ & HF & _). unfold ray_cell. apply HF.
      destruct (rays_apart (dir k).1 (dir k).2 (dir j).1 (dir j).2
                  (row (player w)) (col (player w)) (dir_is_dir k) (dir_is_dir j))
        as [[E1 E2] | Hapart].
      - exfalso. apply Hfresh. apply list_elem_of_fmap. exists k.
        split; [|exact Hk]. destruct (dir j), (dir k). simpl in *. congruence.
      - intros m Hm. apply Hapart; lia. }
    rewrite Hiff, Hbase. split.
    + intros [[E|E] | (k & Hk & E)].
      * left. exact E.
      * right. exists j. split; [apply list_elem_of_here|exact E].
      * right. exists k. split; [apply list_elem_of_further; exact Hk|].
        rewrite <- Hkeep by exact Hk. exact E.
    + intros [E | (k & Hk & E)]; [left; left; exact E|].
      apply elem_of_cons in Hk as [->|Hk]; [left; right; exact E|].
      right. exists k. split; [exact Hk|]. rewrite Hkeep by exact Hk. exact E.
Qed.

(** X7.  The player is captured exactly when a Monster stood next to it:
    [doMonsterAttack] returns [true] if and only if, in the map it was
    given, one of the four cells adjacent to the player held Monster,
    or the player's own cell did. *)
Theorem doMonsterAttack_captured_iff (w : World) :
  wf_world R C w ->
  exists b w',
    doMonsterAttack fuel R C w = Done (b, w') /\
    (b = true <->
     load_cell (cells w) (row (player w)) (col (player w)) = Done TILE_MONSTER \/
     exists i, (i < 4)%nat /\
       ray_cell (cells w) (row (player w)) (col (player w)) (dir i).1 (dir i).2 1
       = Done TILE_MONSTER).
Proof.
  intros Hwf.
  destruct (capture_list [0; 1; 2; 3]%nat) with (w := w) as (w' & Hrun & Hpl & Hiff);
    [|exact Hwf|].
  { apply (bool_decide_unpack _). vm_compute. exact I. }
  destruct (doMonsterAttack_run R C fuel Hd Hfuel w Hwf)
    as (w'' & x & Hrun' & Hx & Hcall & _).
  rewrite Hrun in Hrun'. injection Hrun' as <-.
  exists (bool_decide (x = TILE_MONSTER)), w'. split; [exact Hcall|].
  rewrite bool_decide_eq_true. rewrite Hx in Hiff. split.
  - intros ->. destruct (proj1 Hiff eq_refl) as [E | (j & Hj & E)]; [left; exact E|].
    right. exists j. split; [|exact E].
    repeat (apply elem_of_cons in Hj as [->|Hj]; [lia|]). apply elem_of_nil in Hj. contradiction.
  - intros Hcase. assert (Hm : Done x = Done TILE_MONSTER); [|congruence].
    apply Hiff. destruct Hcase as [E | (i & Hi & E)]; [left; exact E|].
    right. exists i. split; [|exact E].
    destruct i as [|[|[|[|i]]]]; [| | | |lia];
      repeat first [apply list_elem_of_here | apply list_elem_of_further].
Qed.

(** X8.  With no Monster in sight nothing happens: when no ray holds a
    Monster that no Pillar hides, [doMonsterAttack] returns the world
    it was given, and reports a capture only if the player's own cell
    already held Monster. *)
Theorem doMonsterAttack_quiet (w : World) :
  wf_world R C w ->
  (forall i n, 1 <= n ->
     in_sight (cells w) R C (row (player w)) (col (player w)) (dir i).1 (dir i).2 n ->
     ray_cell (cells w) (row (player w)) (col (player w)) (dir i).1 (dir i).2 n
     <> Done TILE_MONSTER) ->
  exists b,
    doMonsterAttack fuel R C w = Done (b, w) /\
    (b = true <->
     load_cell (cells w) (row (player w)) (col (player w)) = Done TILE_MONSTER).
Proof.
  intros Hwf Hquiet.
  set (pr := row (player w)) in *. set (pc := col (player w)) in *.
  destruct (doMonsterAttack_related
              (fun g g' =>
                 (forall i n, 1 <= n ->
                    in_sight g R C pr pc (dir i).1 (dir i).2 n ->
                    ray_cell g pr pc (dir i).1 (dir i).2 n <> Done TILE_MONSTER) ->
                 forall r c, load_cell g' r c = load_cell g r c) w)
    as (x & w' & Hcall & Hx & Hpl & Hwf' & HQ); [auto| | |exact Hwf|].
  - intros g1 g2 g3 _ _ H12 H23 Hq r c.
    specialize (H12 Hq). rewrite H23; [apply H12|].
    intros i n Hn [Hin Hclear]. unfold ray_cell in *. rewrite H12. apply Hq; [exact Hn|].
    split; [exact Hin|]. intros j Hj. unfold ray_cell. rewrite <- H12. apply Hclear, Hj.
  - fold pr pc. intros i g g' _ (_ & HF & _ & _ & HU) Hq r c.
    destruct (on_ray_dec (dir i).1 (dir i).2 pr pc r c (dir_is_dir i))
      as [(n & Hn & [= -> ->]) | Hoff]; [|exact (HF r c Hoff)].
    apply (HU n Hn).
    + intros [Hs Hm]. exact (Hq i (n + 1) ltac:(lia) Hs Hm).
    + intros (Hn1 & Hs & Hm). exact (Hq i n Hn1 Hs Hm).
  - specialize (HQ Hquiet).
    assert (Hsame : w' = w).
    { destruct w as [g p], w' as [g' p']. simpl in *. subst p'. f_equal.
      apply (grid_ext _ _ R C); [apply Hwf|apply Hwf'|exact HQ]. }
    subst w'. exists (bool_decide (x = TILE_MONSTER)). split; [exact Hcall|].
    rewrite bool_decide_eq_true. unfold pr, pc. rewrite Hx. split; congruence.
Qed.

End AttackExtras.

(** * Further properties of the map store *)

Section StoreExtras.
Context `{LogicH}.
Variable junk : ascii.

Lemma load_cell_outside (g : grid) (R C r c : Z) :
  shape g R C -> ~ (0 <= r < R /\ 0 <= c < C) -> load_cell g r c = Fault OutOfBounds.
Proof.
  intros Hs Hout. destruct (load_cell g r c) as [x|e] eqn:Hl.
  - exfalso. apply Hout. exact (load_cell_bounds _ _ _ _ _ _ Hs Hl).
  - unfold load_cell in Hl.
    repeat match type of Hl with
           | (if ?b then _ else _) = _ => destruct b
           | match ?o with Some _ => _ | None => _ end = _ => destruct o
           end; congruence.
Qed.

Lemma shape_replicate (R C : Z) (x : ascii) :
  0 <= R -> 0 <= C -> shape (replicate (Z.to_nat R) (replicate (Z.to_nat C) x)) R C.
Proof.
  intros HR HC. split.
  - rewrite length_replicate. lia.
  - apply Forall_replicate. rewrite length_replicate. lia.
Qed.

Lemma load_cell_replicate (R C r c : Z) (x : ascii) :
  0 <= r < R -> 0 <= c < C ->
  load_cell (replicate (Z.to_nat R) (replicate (Z.to_nat C) x)) r c = Done x.
Proof.
  intros Hr Hc. unfold load_cell.
  rewrite (proj2 (Z.ltb_ge r 0)), (proj2 (Z.ltb_ge c 0)) by lia. simpl.
  rewrite lookup_replicate_2 by lia. rewrite lookup_replicate_2 by lia. reflexivity.
Qed.

(** A storage of the given shape with one tile in every cell. *)
Lemma uniform_grid (g : grid) (R C : Z) (x : ascii) :
  0 <= C ->
  shape g R C ->
  (forall r c, 0 <= r < R -> 0 <= c < C -> load_cell g r c = Done x) ->
  g = replicate (Z.to_nat R) (replicate (Z.to_nat C) x).
Proof.
  intros HC Hs Hcells.
  assert (HR : 0 <= R) by (destruct Hs as [Hlen _]; lia).
  apply (grid_ext _ _ R C); [apply shape_replicate; assumption|exact Hs|].
  intros r c. destruct (decide (0 <= r < R /\ 0 <= c < C)) as [[Hr Hc]|Hout].
  - rewrite Hcells, load_cell_replicate by assumption. reflexivity.
  - rewrite (load_cell_outside _ R C r c Hs Hout).
    rewrite (load_cell_outside _ R C r c (shape_replicate R C x HR HC) Hout). reflexivity.
Qed.

(** X9.  [createMap] on dimensions that are not negative returns the map
    with [maxRow] rows of [maxCol] cells that all hold Open, whatever
    the allocated storage held before. *)
Theorem createMap_all_open (maxRow maxCol : Z) :
  0 <= maxRow -> 0 <= maxCol ->
  createMap junk maxRow maxCol
  = Done (Some (replicate (Z.to_nat maxRow) (replicate (Z.to_nat maxCol) TILE_OPEN))).
Proof.
  intros HR HC.
  destruct (createMap_open junk maxRow maxCol HR HC) as (g & Hrun & Hs & Hcells).
  rewrite Hrun. do 2 f_equal. exact (uniform_grid g maxRow maxCol TILE_OPEN HC Hs Hcells).
Qed.

(** X10.  [createMap] runs without a fault (no allocation fails in this
    model of the storage), and it returns the null pointer exactly when
    one of the dimensions is negative. *)
Theorem createMap_null_iff (maxRow maxCol : Z) :
  (exists m, createMap junk maxRow maxCol = Done m) /\
  (createMap junk maxRow maxCol = Done None <-> maxRow < 0 \/ maxCol < 0).
Proof.
  destruct (decide (maxRow < 0 \/ maxCol < 0)) as [Hneg|Hpos].
  - rewrite (createMap_negative junk maxRow maxCol Hneg). split; [eauto|]. split; auto.
  - destruct (createMap_open junk maxRow maxCol) as (g & Hrun & _); [lia|lia|].
    rewrite Hrun. split; [eauto|]. split; [discriminate|contradiction].
Qed.

(** A counted loop whose first pass faults has faulted. *)
Lemma for_range_first_fault {St : Type} (lo hi : Z) (body : Z -> St -> result St)
  (s : St) (e : fault) :
  lo < hi -> body lo s = Fault e -> for_range lo hi body s = Fault e.
Proof.
  intros Hlt Hb. unfold for_range.
  destruct (Z.to_nat (hi - lo)) as [|n] eqn:En; [lia|]. simpl. rewrite Hb. reflexivity.
Qed.

Lemma for_range_empty {St : Type} (lo hi : Z) (body : Z -> St -> result St) (s : St) :
  hi <= lo -> for_range lo hi body s = Done s.
Proof.
  intros Hle. unfold for_range. replace (Z.to_nat (hi - lo)) with 0%nat by lia. reflexivity.
Qed.

(** A heap in which the arrays at the addresses [done] of [h] have
    been released, and nothing else has changed. *)
Lemma released_step (h h0 : Heap.heap) (done : list nat) (a : nat) (b : Heap.block) :
  (forall x, h0 !! x = if decide (x ∈ done) then Some None else h !! x) ->
  h !! a = Some (Some b) ->
  forall x, <[a := None]> h0 !! x
            = if decide (x ∈ done ++ [a]) then Some None else h !! x.
Proof.
  intros Hrel Ha x.
  assert (Hlen : (a < length h0)%nat).
  { apply lookup_lt_is_Some_1. rewrite (Hrel a). destruct (decide (a ∈ done)); eauto. }
  destruct (decide (x = a)) as [->|Hne].
  - rewrite list_lookup_insert_eq by exact Hlen.
    rewrite decide_True by (apply elem_of_app; right; apply list_elem_of_singleton; reflexivity).
    reflexivity.
  - rewrite list_lookup_insert_ne by congruence. rewrite (Hrel x).
    destruct (decide (x ∈ done)) as [Hin|Hnin].
    + rewrite decide_True by (apply elem_of_app; left; exact Hin). reflexivity.
    + rewrite decide_False; [reflexivity|].
      intros [Hin|Hin]%elem_of_app; [contradiction|].
      apply list_elem_of_singleton in Hin. contradiction.
Qed.

Lemma deleteMap_owned (h : Heap.heap) (map : Heap.ptr) (maxRow : Z) (top : nat)
  (lines : list nat) :
  owns h map maxRow top lines ->
  exists h',
    Heap.deleteMap map maxRow h = Done ((Heap.Null, 0), h') /\
    forall a, h' !! a = if decide (a ∈ top :: lines) then Some None else h !! a.
Proof.
  intros (-> & Htop & Hlen & Hnd & Hlines).
  apply NoDup_cons in Hnd as [Hntop Hnd].
  destruct (for_range_invariant
              (fun i (st : unit * Heap.heap) =>
                 forall x, st.2 !! x
                           = if decide (x ∈ take (Z.to_nat i) lines) then Some None else h !! x)
              (fun r '(u, h0) =>
                 Heap.bind (Heap.load_row (Heap.At top) r)
                   (fun line => Heap.bind (Heap.delete_array line)
                                  (fun _ => Heap.ret u)) h0)
              0 maxRow (tt, h)) as ([[] h1] & Hrun & Hinv).
  - lia.
  - intros x. reflexivity.
  - intros i [[] h0] Hi Hinv. simpl in Hinv.
    destruct (lookup_lt_is_Some_2 lines (Z.to_nat i)) as [a Ha]; [lia|].
    assert (Hain : a ∈ lines) by (eapply list_elem_of_lookup_2; exact Ha).
    destruct (Hlines a Hain) as [line Hline].
    assert (Hafter : a ∉ take (Z.to_nat i) lines).
    { intros Hin. apply elem_of_take in Hin as (j & Hj & Hjlt).
      pose proof (NoDup_lookup _ _ _ _ Hnd Hj Ha). lia. }
    assert (Htop0 : h0 !! top = Some (Some (Heap.Rows (Heap.At <$> lines)))).
    { rewrite (Hinv top). rewrite decide_False; [exact Htop|].
      intros Hin. apply Hntop. apply elem_of_take in Hin as (j & Hj & _).
      eapply list_elem_of_lookup_2. exact Hj. }
    assert (Ha0 : h0 !! a = Some (Some (Heap.Chars line))).
    { rewrite (Hinv a). rewrite decide_False by exact Hafter. exact Hline. }
    unfold Heap.bind, Heap.load_row. rewrite Htop0.
    destruct (i <? 0) eqn:Ei; [lia|].
    rewrite list_lookup_fmap, Ha. simpl. rewrite Ha0.
    eexists (tt, _). split; [reflexivity|]. simpl.
    replace (Z.to_nat (i + 1)) with (S (Z.to_nat i)) by lia.
    rewrite (take_S_r _ _ _ Ha).
    exact (released_step h h0 _ a _ Hinv Hline).
  - simpl in Hinv. rewrite firstn_all2 in Hinv by lia.
    assert (Htop1 : h1 !! top = Some (Some (Heap.Rows (Heap.At <$> lines)))).
    { rewrite (Hinv top). rewrite decide_False by exact Hntop. exact Htop. }
    eexists. split.
    + unfold Heap.deleteMap, Heap.bind at 1, Heap.for_loop. rewrite Hrun.
      unfold Heap.bind, Heap.delete_array. rewrite Htop1. reflexivity.
    + intros x. pose proof (released_step h h1 lines top _ Hinv Htop x) as Hx.
      rewrite Hx. destruct (decide (x ∈ lines ++ [top])) as [Hin|Hnin].
      * rewrite decide_True; [reflexivity|].
        apply elem_of_app in Hin as [Hin|Hin]; [right; exact Hin|].
        apply list_elem_of_singleton in Hin as ->. left.
      * rewrite decide_False; [reflexivity|].
        intros Hin. apply Hnin. apply elem_of_app.
        apply elem_of_cons in Hin as [->|Hin]; [right; apply list_elem_of_singleton; reflexivity|left; exact Hin].
Qed.

Lemma deleteMap_null_heap (h : Heap.heap) (maxRow : Z) :
  (maxRow <= 0 -> Heap.deleteMap Heap.Null maxRow h = Done ((Heap.Null, 0), h)) /\
  (0 < maxRow -> Heap.deleteMap Heap.Null maxRow h = Fault NullPointer).
Proof.
  split; intros Hrow; unfold Heap.deleteMap, Heap.bind at 1, Heap.for_loop.
  - rewrite for_range_empty by lia. reflexivity.
  - rewrite (for_range_first_fault _ _ _ _ NullPointer) by (lia || reflexivity).
    reflexivity.
Qed.

(** X11.  [deleteMap] releases the map: when the pointer designates a
    map of [maxRow] rows, the arrays of its rows and the array of its
    row pointers are released, every other array of the heap is as it
    was, and the pointer is set to null and the row count to 0.  The
    null pointer is accepted with a row count that is not positive,
    and dereferenced with one that is. *)
Theorem deleteMap_cases (h : Heap.heap) (maxRow : Z) :
  (forall map top lines,
     owns h map maxRow top lines ->
     exists h',
       Heap.deleteMap map maxRow h = Done ((Heap.Null, 0), h') /\
       forall a, h' !! a = if decide (a ∈ top :: lines) then Some None else h !! a) /\
  (maxRow <= 0 -> Heap.deleteMap Heap.Null maxRow h = Done ((Heap.Null, 0), h)) /\
  (0 < maxRow -> Heap.deleteMap Heap.Null maxRow h = Fault NullPointer).
Proof.
  split.
  - intros map top lines Hown. exact (deleteMap_owned h map maxRow top lines Hown).
  - exact (deleteMap_null_heap h maxRow).
Qed.

(** X12.  [resizeMap] does not duplicate the player: when one cell of the
    map, and no other, holds the Player tile, the same is true of the
    resized map, at the same coordinates. *)
Theorem resizeMap_single_player (g : grid) (maxRow maxCol pr pc : Z) :
  tiles_distinct ->
  shape g maxRow maxCol -> 0 <= maxCol ->
  2 * maxRow <= INT32_MAX -> 2 * maxCol <= INT32_MAX ->
  only_player_at g pr pc ->
  exists g',
    resizeMap junk (Some g) maxRow maxCol = Done (Some g', 2 * maxRow, 2 * maxCol) /\
    shape g' (2 * maxRow) (2 * maxCol) /\
    only_player_at g' pr pc.
Proof.
  intros Hd Hs HC HR2 HC2 [Hat Honly].
  destruct (tiles_distinct_facts Hd) as (Hop & _).
  destruct (resizeMap_spec junk g maxRow maxCol Hs HC HR2 HC2)
    as (g' & Hrun & Hs' & HA & HB & HCq & HD).
  destruct (load_cell_bounds _ _ _ _ _ _ Hs Hat) as [Hpr Hpc].
  assert (Hnever : forall y, player_as_open y <> TILE_PLAYER).
  { intros y. unfold player_as_open. destruct (decide (y = TILE_PLAYER)) as [E|E].
    - rewrite bool_decide_eq_true_2 by exact E. exact Hop.
    - rewrite bool_decide_eq_false_2 by exact E. exact E. }
  exists g'. split; [exact Hrun|]. split; [exact Hs'|]. split.
  - rewrite (HA pr pc Hpr Hpc). rewrite (tile_at_load g _ _ _ _ Hs Hpr Hpc) in Hat. exact Hat.
  - intros r c Hl. destruct (load_cell_bounds _ _ _ _ _ _ Hs' Hl) as [Hr Hc].
    destruct (decide (r < maxRow)) as [Hr1|Hr1]; destruct (decide (c < maxCol)) as [Hc1|Hc1].
    + rewrite (HA r c) in Hl by lia. apply Honly.
      rewrite (tile_at_load g maxRow maxCol r c Hs) by lia. exact Hl.
    + rewrite (HB r c) in Hl by lia. injection Hl as Hl. destruct (Hnever _ Hl).
    + rewrite (HCq r c) in Hl by lia. injection Hl as Hl. destruct (Hnever _ Hl).
    + rewrite (HD r c) in Hl by lia. injection Hl as Hl. destruct (Hnever _ Hl).
Qed.

(** X13.  The test for a null map in [resizeMap] guards nothing: on the null
    pointer with positive dimensions the first copy dereferences it. *)
Theorem resizeMap_null_map (maxRow maxCol : Z) :
  0 < maxRow -> 0 < maxCol ->
  2 * maxRow <= INT32_MAX -> 2 * maxCol <= INT32_MAX ->
  resizeMap junk None maxRow maxCol = Fault NullPointer.
Proof.
  intros HR HC HR2 HC2. unfold resizeMap.
  destruct (resize_guard None maxRow maxCol); unfold rbind at 1;
    (rewrite (int_mul_in_range maxRow 2) by (unfold INT32_MIN; lia); unfold rbind at 1;
     rewrite (int_mul_in_range maxCol 2) by (unfold INT32_MIN; lia); unfold rbind at 1).
  all: destruct (allocation_shape junk (maxRow * 2) (maxCol * 2) ltac:(lia) ltac:(lia))
         as (rows & mat0 & Hrows & Halloc & Hs0).
  all: rewrite Hrows; unfold rbind at 1; rewrite Halloc; unfold rbind at 1.
  all: rewrite (for_range_first_fault _ _ _ _ NullPointer); [reflexivity|lia|].
  all: apply for_range_first_fault; [lia|reflexivity].
Qed.

(** X14.  Resizing a freshly created map gives the freshly created map of
    twice the dimensions. *)
Theorem resizeMap_of_createMap (maxRow maxCol : Z) :
  0 <= maxRow -> 0 <= maxCol ->
  2 * maxRow <= INT32_MAX -> 2 * maxCol <= INT32_MAX ->
  exists g g',
    createMap junk maxRow maxCol = Done (Some g) /\
    resizeMap junk (Some g) maxRow maxCol = Done (Some g', 2 * maxRow, 2 * maxCol) /\
    createMap junk (2 * maxRow) (2 * maxCol) = Done (Some g').
Proof.
  intros HR HC HR2 HC2.
  destruct (createMap_open junk maxRow maxCol HR HC) as (g & Hrun & Hs & Hcells).
  destruct (resizeMap_spec junk g maxRow maxCol Hs HC HR2 HC2)
    as (g' & Hrun' & Hs' & HA & HB & HCq & HD).
  destruct (createMap_open junk (2 * maxRow) (2 * maxCol) ltac:(lia) ltac:(lia))
    as (g2 & Hrun2 & Hs2 & Hcells2).
  exists g, g'. split; [exact Hrun|]. split; [exact Hrun'|]. rewrite Hrun2. do 2 f_equal.
  assert (Htile : forall r c, 0 <= r < maxRow -> 0 <= c < maxCol ->
                              tile_at g r c = TILE_OPEN).
  { intros r c Hr Hc. unfold tile_at. rewrite Hcells by assumption. reflexivity. }
  assert (Hopen : player_as_open TILE_OPEN = TILE_OPEN).
  { unfold player_as_open. destruct (bool_decide (TILE_OPEN = TILE_PLAYER)); reflexivity. }
  rewrite (uniform_grid g2 (2 * maxRow) (2 * maxCol) TILE_OPEN ltac:(lia) Hs2 Hcells2).
  symmetry. apply (uniform_grid g' (2 * maxRow) (2 * maxCol) TILE_OPEN ltac:(lia) Hs').
  intros r c Hr Hc.
  destruct (decide (r < maxRow)) as [Hr1|Hr1]; destruct (decide (c < maxCol)) as [Hc1|Hc1].
  - rewrite (HA r c) by lia. rewrite Htile by lia. reflexivity.
  - rewrite (HB r c) by lia. rewrite Htile by lia. rewrite Hopen. reflexivity.
  - rewrite (HCq r c) by lia. rewrite Htile by lia. rewrite Hopen. reflexivity.
  - rewrite (HD r c) by lia. rewrite Htile by lia. rewrite Hopen. reflexivity.
Qed.

End StoreExtras.

(** * Further properties of the level loader *)

Section LoadExtras.
Context `{LogicH}.
Variable junk : ascii.

Lemma extract_int_range (f : ifstream) (old : Z) :
  INT32_MIN <= old <= INT32_MAX ->
  INT32_MIN <= (extract_int f old).1 <= INT32_MAX.
Proof.
  intros Hold. unfold extract_int.
  destruct (failbit f); [exact Hold|].
  destruct (skip_space (pending f)) as [|a s]; [exact Hold|].
  destruct (if bool_decide (a = "-"%char) then (true, s)
            else if bool_decide (a = "+"%char) then (false, s) else (false, a :: s))
    as [negative s1].
  destruct s1 as [|d s1]; [simpl; unfold INT32_MIN, INT32_MAX; lia|].
  destruct (digit_of d); [|simpl; unfold INT32_MIN, INT32_MAX; lia].
  destruct (read_digits 0 (d :: s1)) as [v s2].
  destruct ((if negative then - v else v) >? INT32_MAX) eqn:E1;
    [simpl; unfold INT32_MIN, INT32_MAX; lia|].
  destruct ((if negative then - v else v) <? INT32_MIN) eqn:E2;
    [simpl; unfold INT32_MIN, INT32_MAX; lia|].
  simpl. lia.
Qed.

Lemma skip_space_tokens (s : list ascii) : tokens_of (skip_space s) = tokens_of s.
Proof.
  induction s as [|a s IH]; [reflexivity|]. simpl.
  destruct (is_space a) eqn:Ea; simpl; [exact IH|]. rewrite Ea. reflexivity.
Qed.

Lemma skip_space_head (s : list ascii) (a : ascii) (s' : list ascii) :
  skip_space s = a :: s' -> is_space a = false.
Proof.
  induction s as [|b s IH]; [discriminate|]. simpl.
  destruct (is_space b) eqn:Eb; [exact IH|]. intros [= -> _]. exact Eb.
Qed.

(** [f >> x] for a [char] on a stream that has not failed and still
    holds a character that is not white space. *)
Lemma extract_char_next (f : ifstream) (old x : ascii) (rest : list ascii) :
  failbit f = false ->
  tokens_of (pending f) = x :: rest ->
  exists f',
    extract_char f old = (x, f') /\
    failbit f' = false /\
    tokens_of (pending f') = rest.
Proof.
  intros Hok Htok. unfold extract_char. rewrite Hok.
  rewrite <- skip_space_tokens in Htok.
  destruct (skip_space (pending f)) as [|a s] eqn:Hskip; [discriminate|].
  pose proof (skip_space_head _ _ _ Hskip) as Ha.
  unfold tokens_of in Htok. simpl in Htok. rewrite Ha in Htok. simpl in Htok.
  injection Htok as -> Hrest.
  eexists. split; [reflexivity|]. split; [reflexivity|exact Hrest].
Qed.




(** The loop that reads the cells stores the tokens of the stream in
    row-major order. *)
Lemma fill_row_major (R C : Z) (mat : grid) (f : ifstream) :
  shape mat R C -> 0 <= R -> 0 <= C ->
  failbit f = false ->
  R * C <= Z.of_nat (length (tokens_of (pending f))) ->
  exists filled,
    for_range 0 R (fun r st =>
      for_range 0 C (fun c '(mat, f) =>
        rbind (load_cell mat r c) (fun old =>
          let '(x, f) := extract_char f old in
          rbind (store_cell mat r c x) (fun mat => Done (mat, f)))) st) (mat, f)
    = Done filled /\
    read_so_far R C (tokens_of (pending f)) (R * C) filled.
Proof.
  intros Hs HR HC Hok Hlen. set (T := tokens_of (pending f)) in *.
  apply (for_range_invariant (fun r st => read_so_far R C T (r * C) st)); [exact HR| |].
  { split; [exact Hs|]. split; [exact Hok|]. split; [reflexivity|]. intros r c Hr Hc Hk. nia. }
  intros r st Hr Hst.
  destruct (for_range_invariant (fun c st => read_so_far R C T (r * C + c) st)
              (fun c '(mat, f) =>
                 rbind (load_cell mat r c) (fun old =>
                   let '(x, f) := extract_char f old in
                   rbind (store_cell mat r c x) (fun mat => Done (mat, f))))
              0 C st HC) as (st' & Hrun & Hst').
  - replace (r * C + 0) with (r * C) by ring. exact Hst.
  - intros c [m f0] Hc (Hm & Hf0 & Htok & Hread). simpl in Hm, Hf0, Htok, Hread.
    destruct (load_cell_defined m R C r c Hm Hr Hc) as [old ->]. simpl.
    assert (Hk : (Z.to_nat (r * C + c) < length T)%nat) by nia.
    destruct (lookup_lt_is_Some_2 T _ Hk) as [x Hx].
    rewrite (drop_S T x _ Hx) in Htok.
    destruct (extract_char_next f0 old x _ Hf0 Htok) as (f1 & -> & Hf1 & Htok1).
    destruct (store_cell_defined m R C r c x Hm Hr Hc) as [m1 Hm1].
    rewrite Hm1. simpl. eexists. split; [reflexivity|].
    split; [exact (store_cell_shape _ _ _ _ _ _ _ Hm Hm1)|]. split; [exact Hf1|]. split.
    + simpl. rewrite Htok1. f_equal. nia.
    + simpl. intros r' c' Hr' Hc' Hlt.
      destruct (decide ((r', c') = (r, c))) as [[= -> ->]|Hne].
      * exists x. split; [exact Hx|exact (load_store_same _ _ _ _ _ Hm1)].
      * rewrite (load_store_other _ _ _ _ _ _ _ Hm1 Hne). apply Hread; [lia|lia|].
        assert (r' * C + c' <> r * C + c); [|lia].
        intros E. apply Hne. assert (r' = r) by nia. subst r'. f_equal. lia.
  - exists st'. split; [exact Hrun|].
    replace ((r + 1) * C) with (r * C + C) by ring. exact Hst'.
Qed.

(** X16.  [loadLevel] on a file that can be read.  When the four numbers of
    the header are extracted without a failure, the guard does not
    fire, the player's coordinates lie inside the declared dimensions
    and the rest of the file holds at least [maxRow * maxCol]
    characters that are not white space, the call returns a map of the
    declared dimensions whose cells are these characters in row-major
    order, with the Player tile written over the one at the player's
    coordinates. *)
Theorem loadLevel_row_major (fs : file_system) (fileName : string) (text : list ascii)
  (maxRow maxCol : Z) (p : Player) :
  fs fileName = Some text ->
  let '(R, f1) := extract_int (mkStream true false text) maxRow in
  let '(C, f2) := extract_int f1 maxCol in
  let '(pr, f3) := extract_int f2 (row p) in
  let '(pc, f4) := extract_int f3 (col p) in
  failbit f4 = false ->
  load_guard R C = false ->
  0 <= pr < R -> 0 <= pc < C ->
  R * C <= Z.of_nat (length (tokens_of (pending f4))) ->
  exists g,
    loadLevel junk fs fileName maxRow maxCol p
      = Done (Some g, R, C, mkPlayer pr pc (treasure p)) /\
    shape g R C /\
    forall r c, 0 <= r < R -> 0 <= c < C ->
      exists x,
        tokens_of (pending f4) !! Z.to_nat (r * C + c) = Some x /\
        load_cell g r c
        = Done (if bool_decide ((r, c) = (pr, pc)) then TILE_PLAYER else x).
Proof.
  intros Hfs. unfold loadLevel, open. rewrite Hfs. simpl.
  destruct (extract_int (mkStream true false text) maxRow) as [R f1].
  destruct (extract_int f1 maxCol) as [C f2].
  destruct (extract_int f2 (row p)) as [pr f3].
  destruct (extract_int f3 (col p)) as [pc f4].
  intros Hok Hguard Hpr Hpc Hlen. rewrite Hguard.
  destruct (allocation_shape junk R C ltac:(lia) ltac:(lia))
    as (rows & mat & Hrows & Halloc & Hs).
  rewrite Hrows. unfold rbind at 1. rewrite Halloc. unfold rbind at 1.
  destruct (fill_row_major R C mat f4 Hs ltac:(lia) ltac:(lia) Hok Hlen)
    as (filled & -> & Hsf & _ & _ & Hread).
  unfold rbind at 1. simpl.
  destruct (store_cell_defined filled.1 R C pr pc TILE_PLAYER Hsf Hpr Hpc) as [g Hg].
  rewrite Hg. simpl. exists g. split; [reflexivity|].
  split; [exact (store_cell_shape _ _ _ _ _ _ _ Hsf Hg)|].
  intros r c Hr Hc. destruct (Hread r c Hr Hc ltac:(nia)) as (x & Hx & Hl).
  exists x. split; [exact Hx|].
  destruct (decide ((r, c) = (pr, pc))) as [[= -> ->]|Hne].
  - rewrite bool_decide_eq_true_2 by reflexivity. exact (load_store_same _ _ _ _ _ Hg).
  - rewrite bool_decide_eq_false_2 by exact Hne.
    rewrite (load_store_other _ _ _ _ _ _ _ Hg Hne). exact Hl.
Qed.

End LoadExtras.

(** * Keys at the border, and what the monsters' turn writes *)

Section TurnExtras.
Context `{LogicH}.

Lemma doPlayerMove_outside (maxRow maxCol nextRow nextCol : Z) (w : World) :
  nextRow >= maxRow \/ nextRow < 0 \/ nextCol >= maxCol \/ nextCol < 0 ->
  doPlayerMove maxRow maxCol nextRow nextCol w = Done (STATUS_STAY, w).
Proof.
  intros Hout. unfold doPlayerMove.
  destruct ((nextRow >=? maxRow) || (nextRow <? 0) || (nextCol >=? maxCol) || (nextCol <? 0))
    eqn:E; [reflexivity|].
  repeat (apply orb_false_elim in E as [E ?]). lia.
Qed.

(** X17.  A key that points over the border of the map changes nothing:
    [MOVE_UP] in the first row, [MOVE_DOWN] in the last row, [MOVE_LEFT]
    in the first column and [MOVE_RIGHT] in the last column give a
    target outside the map, and the move returns [STATUS_STAY] with the
    world as it was. *)
Theorem key_press_at_border (maxRow maxCol : Z) (input : ascii) (w : World) :
  keys_distinct ->
  wf_world maxRow maxCol w ->
  (input = MOVE_UP /\ row (player w) = 0) \/
  (input = MOVE_DOWN /\ row (player w) = maxRow - 1) \/
  (input = MOVE_LEFT /\ col (player w) = 0) \/
  (input = MOVE_RIGHT /\ col (player w) = maxCol - 1) ->
  exists nextRow nextCol,
    getDirection input (row (player w)) (col (player w)) = Done (nextRow, nextCol) /\
    doPlayerMove maxRow maxCol nextRow nextCol w = Done (STATUS_STAY, w).
Proof.
  intros Hk (Hs & HR & HC & Hpr & Hpc) Hcase.
  assert (Hkeys : MOVE_UP <> MOVE_DOWN /\ MOVE_UP <> MOVE_LEFT /\ MOVE_UP <> MOVE_RIGHT /\
                  MOVE_DOWN <> MOVE_LEFT /\ MOVE_DOWN <> MOVE_RIGHT /\
                  MOVE_LEFT <> MOVE_RIGHT).
  { unfold keys_distinct in Hk.
    repeat match goal with
           | Hn : NoDup (_ :: _) |- _ => apply NoDup_cons in Hn as [? Hn]
           end.
    repeat match goal with
           | Hn : _ ∉ _ :: _ |- _ => apply not_elem_of_cons in Hn as [? Hn]
           end.
    repeat split; congruence. }
  destruct Hkeys as (Hud & Hul & Hur & Hdl & Hdr & Hlr).
  unfold getDirection.
  destruct Hcase as [[-> E] | [[-> E] | [[-> E] | [-> E]]]].
  - rewrite bool_decide_eq_true_2 by reflexivity.
    rewrite int_sub_in_range by (unfold INT32_MIN, INT32_MAX in *; lia). simpl.
    eexists _, _. split; [reflexivity|]. apply doPlayerMove_outside. lia.
  - rewrite (bool_decide_eq_false_2 (MOVE_DOWN = MOVE_UP)) by congruence.
    rewrite bool_decide_eq_true_2 by reflexivity.
    rewrite int_add_in_range by (unfold INT32_MIN, INT32_MAX in *; lia). simpl.
    eexists _, _. split; [reflexivity|]. apply doPlayerMove_outside. lia.
  - rewrite (bool_decide_eq_false_2 (MOVE_LEFT = MOVE_UP)) by congruence.
    rewrite (bool_decide_eq_false_2 (MOVE_LEFT = MOVE_DOWN)) by congruence.
    rewrite bool_decide_eq_true_2 by reflexivity.
    rewrite int_sub_in_range by (unfold INT32_MIN, INT32_MAX in *; lia). simpl.
    eexists _, _. split; [reflexivity|]. apply doPlayerMove_outside. lia.
  - rewrite (bool_decide_eq_false_2 (MOVE_RIGHT = MOVE_UP)) by congruence.
    rewrite (bool_decide_eq_false_2 (MOVE_RIGHT = MOVE_DOWN)) by congruence.
    rewrite (bool_decide_eq_false_2 (MOVE_RIGHT = MOVE_LEFT)) by congruence.
    rewrite bool_decide_eq_true_2 by reflexivity.
    rewrite int_add_in_range by (unfold INT32_MIN, INT32_MAX in *; lia). simpl.
    eexists _, _. split; [reflexivity|]. apply doPlayerMove_outside. lia.
Qed.

(** X18.  The monsters' turn writes Monster and Open and nothing else: after
    [doMonsterAttack] every cell holds what it held, or Monster, or,
    for a cell other than the player's, Open. *)
Theorem doMonsterAttack_writes (maxRow maxCol : Z) (fuel : nat) (w : World) :
  tiles_distinct ->
  Z.max maxRow maxCol <= Z.of_nat fuel ->
  wf_world maxRow maxCol w ->
  exists b w',
    doMonsterAttack fuel maxRow maxCol w = Done (b, w') /\
    forall r c,
      load_cell (cells w') r c = load_cell (cells w) r c \/
      load_cell (cells w') r c = Done TILE_MONSTER \/
      ((r, c) <> (row (player w), col (player w)) /\
       load_cell (cells w') r c = Done TILE_OPEN).
Proof.
  intros Hd Hfuel Hwf.
  destruct (doMonsterAttack_run maxRow maxCol fuel Hd Hfuel w Hwf)
    as (w' & x & _ & _ & Hrun & _ & _ & Hmono).
  exists (bool_decide (x = TILE_MONSTER)), w'. split; [exact Hrun|exact Hmono].
Qed.

End TurnExtras.

(** * The further properties on concrete worlds *)

Lemma sample_keys_distinct : keys_distinct.
Proof. unfold keys_distinct. apply (bool_decide_unpack _). vm_compute. exact I. Qed.

Lemma small_room_treasure_range : INT32_MIN <= treasure (player small_room) < INT32_MAX.
Proof. unfold INT32_MIN, INT32_MAX. simpl. lia. Qed.

Lemma corridor_door_wf : wf_world 1 3 corridor_door.
Proof. solve_wf. Qed.

Lemma corridor_door_quiet (i : nat) (n : Z) :
  1 <= n ->
  in_sight (cells corridor_door) 1 3 0 0 (dir i).1 (dir i).2 n ->
  ray_cell (cells corridor_door) 0 0 (dir i).1 (dir i).2 n <> Done TILE_MONSTER.
Proof.
  intros _ _ Hm. unfold ray_cell in Hm.
  remember (0 + n * (dir i).1) as r eqn:Er. remember (0 + n * (dir i).2) as c eqn:Ec.
  clear Er Ec.
  destruct (load_cell_bounds (cells corridor_door) 1 3 r c _ ltac:(solve_shape) Hm) as [Hr Hc].
  assert (r = 0) as -> by lia.
  assert (c = 0 \/ c = 1 \/ c = 2) as [-> | [-> | ->]] by lia;
    vm_compute in Hm; discriminate.
Qed.

Lemma doPlayerMove_keeps_wf_witness :
  exists s w',
    doPlayerMove 3 3 1 0 small_room = Done (s, w') /\
    wf_world 3 3 w' /\
    ((row (player w'), col (player w')) = (1, 1) \/
     (row (player w'), col (player w')) = (1, 0)) /\
    (treasure (player w') = 0 \/ treasure (player w') = 0 + 1).
Proof.
  exact (doPlayerMove_keeps_wf 3 3 1 0 small_room small_room_wf small_room_treasure_range).
Defined.

Lemma doPlayerMove_keeps_obstacles_witness :
  exists s w',
    doPlayerMove 3 3 1 0 small_room = Done (s, w') /\
    forall r c x,
      (r, c) <> (1, 1) ->
      load_cell (cells small_room) r c = Done x ->
      x = TILE_PILLAR \/ x = TILE_MONSTER ->
      load_cell (cells w') r c = Done x.
Proof.
  exact (doPlayerMove_keeps_obstacles 3 3 1 0 small_room small_room_wf
           small_room_treasure_range).
Defined.

Lemma doPlayerMove_allowed_witness :
  exists s g',
    doPlayerMove 1 3 0 1 corridor_door = Done (s, mkWorld g' (mkPlayer 0 1 0)) /\
    (TILE_DOOR = TILE_DOOR -> s = STATUS_LEAVE) /\
    (TILE_DOOR = TILE_EXIT -> s = STATUS_ESCAPE) /\
    (TILE_DOOR = TILE_AMULET -> s = STATUS_AMULET) /\
    (TILE_DOOR <> TILE_DOOR -> TILE_DOOR <> TILE_EXIT -> TILE_DOOR <> TILE_AMULET ->
     s = STATUS_MOVE) /\
    load_cell g' 0 1 = Done TILE_PLAYER /\
    load_cell g' 0 0 = Done TILE_OPEN /\
    forall r c, (r, c) <> (0, 1) -> (r, c) <> (0, 0) ->
                load_cell g' r c = load_cell (cells corridor_door) r c.
Proof.
  apply (doPlayerMove_allowed 1 3 0 1 corridor_door TILE_DOOR sample_tiles_distinct).
  - solve_shape.
  - simpl. lia.
  - simpl. lia.
  - lia.
  - lia.
  - simpl. intros [= E].
  - vm_compute. reflexivity.
  - vm_compute. discriminate.
  - vm_compute. discriminate.
  - vm_compute. discriminate.
  - vm_compute. discriminate.
Defined.

Lemma key_press_one_step_witness :
  (exists nextRow nextCol s w',
     getDirection "a"%char (row (player small_room)) (col (player small_room))
       = Done (nextRow, nextCol) /\
     doPlayerMove 3 3 nextRow nextCol small_room = Done (s, w') /\
     wf_world 3 3 w' /\
     Z.abs (row (player w') - row (player small_room)) +
     Z.abs (col (player w') - col (player small_room)) <= 1) /\
  getDirection "a"%char 1 1 = Done (1, 0) /\
  doPlayerMove 3 3 1 0 small_room
  = Done (STATUS_TREASURE, mkWorld (rows_of ["-M-"; "o-!"; "-+M"]%string) (mkPlayer 1 0 1)).
Proof.
  split; [|split].
  - exact (key_press_one_step 3 3 "a"%char small_room small_room_wf
             small_room_treasure_range).
  - vm_compute. reflexivity.
  - vm_compute. reflexivity.
Defined.

Lemma key_press_at_border_witness :
  exists nextRow nextCol,
    getDirection "w"%char (row (player corridor_door)) (col (player corridor_door))
      = Done (nextRow, nextCol) /\
    doPlayerMove 1 3 nextRow nextCol corridor_door = Done (STATUS_STAY, corridor_door).
Proof.
  apply (key_press_at_border 1 3 "w"%char corridor_door sample_keys_distinct corridor_door_wf).
  left. split; reflexivity.
Defined.

Lemma doMonsterAttack_writes_witness :
  exists b w',
    doMonsterAttack 3 3 3 small_room = Done (b, w') /\
    forall r c,
      load_cell (cells w') r c = load_cell (cells small_room) r c \/
      load_cell (cells w') r c = Done TILE_MONSTER \/
      ((r, c) <> (1, 1) /\ load_cell (cells w') r c = Done TILE_OPEN).
Proof.
  apply (doMonsterAttack_writes 3 3 3 small_room sample_tiles_distinct).
  - simpl. lia.
  - exact small_room_wf.
Defined.

Lemma doMonsterAttack_row_and_column_only_witness :
  exists b w',
    doMonsterAttack 3 3 3 small_room = Done (b, w') /\
    forall r c, r <> 1 -> c <> 1 ->
                load_cell (cells w') r c = load_cell (cells small_room) r c.
Proof.
  apply (doMonsterAttack_row_and_column_only 3 3 3 sample_tiles_distinct).
  - simpl. lia.
  - exact small_room_wf.
Defined.

Lemma doMonsterAttack_pillar_blocks_witness :
  ray_cell (cells corridor_pillar) 0 0 0 1 2 = Done TILE_MONSTER /\
  exists b w',
    doMonsterAttack 3 1 3 corridor_pillar = Done (b, w') /\
    forall n, 1 <= n ->
      ray_cell (cells w') 0 0 0 1 n = ray_cell (cells corridor_pillar) 0 0 0 1 n.
Proof.
  split; [vm_compute; reflexivity|].
  apply (doMonsterAttack_pillar_blocks 1 3 3 sample_tiles_distinct ltac:(simpl; lia)
           corridor_pillar 2 1).
  - solve_wf.
  - lia.
  - vm_compute. reflexivity.
Defined.

Lemma doMonsterAttack_captured_iff_witness :
  exists b w',
    doMonsterAttack 3 3 3 small_room = Done (b, w') /\
    (b = true <->
     load_cell (cells small_room) 1 1 = Done TILE_MONSTER \/
     exists i, (i < 4)%nat /\
       ray_cell (cells small_room) 1 1 (dir i).1 (dir i).2 1 = Done TILE_MONSTER).
Proof.
  apply (doMonsterAttack_captured_iff 3 3 3 sample_tiles_distinct).
  - simpl. lia.
  - exact small_room_wf.
Defined.

Lemma doMonsterAttack_quiet_witness :
  exists b,
    doMonsterAttack 3 1 3 corridor_door = Done (b, corridor_door) /\
    (b = true <-> load_cell (cells corridor_door) 0 0 = Done TILE_MONSTER).
Proof.
  apply (doMonsterAttack_quiet 1 3 3 sample_tiles_distinct).
  - simpl. lia.
  - exact corridor_door_wf.
  - exact corridor_door_quiet.
Defined.

Lemma createMap_all_open_witness :
  createMap "#"%char 2 3 = Done (Some (rows_of ["---"; "---"]%string)).
Proof.
  exact (createMap_all_open "#"%char 2 3 ltac:(lia) ltac:(lia)).
Defined.

(** [loadLevel] on the level of three rows, in a heap that holds one
    array already: four arrays are added, and [deleteMap] on the
    pointer returned releases these four and no other. *)
Lemma loadLevel_heap_sample :
  Heap.loadLevel "#"%char room_level "room.txt" 7 8 (mkPlayer 5 6 0)
    [Some (Heap.Chars (list_ascii_of_string "kept"))]
  = Done ((Heap.At 1, 3, 3, mkPlayer 1 1 0),
          [Some (Heap.Chars (list_ascii_of_string "kept"));
           Some (Heap.Rows [Heap.At 2; Heap.At 3; Heap.At 4]);
           Some (Heap.Chars (list_ascii_of_string "-$M"));
           Some (Heap.Chars (list_ascii_of_string "-o-"));
           Some (Heap.Chars (list_ascii_of_string "+?!"))]) /\
  Heap.deleteMap (Heap.At 1) 3
    [Some (Heap.Chars (list_ascii_of_string "kept"));
     Some (Heap.Rows [Heap.At 2; Heap.At 3; Heap.At 4]);
     Some (Heap.Chars (list_ascii_of_string "-$M"));
     Some (Heap.Chars (list_ascii_of_string "-o-"));
     Some (Heap.Chars (list_ascii_of_string "+?!"))]
  = Done ((Heap.Null, 0),
          [Some (Heap.Chars (list_ascii_of_string "kept")); None; None; None; None]).
Proof. split; vm_compute; reflexivity. Qed.

Lemma deleteMap_cases_witness :
  (exists h',
     Heap.deleteMap (Heap.At 1) 2 sample_heap = Done ((Heap.Null, 0), h') /\
     forall a, h' !! a = if decide (a ∈ [1; 2; 4]%nat) then Some None else sample_heap !! a) /\
  Heap.deleteMap Heap.Null 0 sample_heap = Done ((Heap.Null, 0), sample_heap) /\
  Heap.deleteMap Heap.Null 1 sample_heap = Fault NullPointer.
Proof.
  split; [|split].
  - apply (proj1 (deleteMap_cases sample_heap 2) (Heap.At 1) 1%nat [2; 4]%nat).
    split; [reflexivity|]. split; [reflexivity|]. split; [reflexivity|]. split.
    + apply (bool_decide_unpack _). vm_compute. exact I.
    + intros a Ha. apply elem_of_cons in Ha as [->|Ha]; [eexists; reflexivity|].
      apply elem_of_cons in Ha as [->|Ha]; [eexists; reflexivity|].
      apply not_elem_of_nil in Ha. contradiction.
  - apply (proj1 (proj2 (deleteMap_cases sample_heap 0))). lia.
  - apply (proj2 (proj2 (deleteMap_cases sample_heap 1))). lia.
Defined.

Lemma sample_grid_only_player : only_player_at (rows_of ["o$"; "M+"]%string) 0 0.
Proof.
  split; [reflexivity|]. intros r c Hl.
  destruct (load_cell_bounds (rows_of ["o$"; "M+"]%string) 2 2 r c _ ltac:(solve_shape) Hl)
    as [Hr Hc].
  assert (r = 0 \/ r = 1) as [-> | ->] by lia;
    assert (c = 0 \/ c = 1) as [-> | ->] by lia;
    first [split; reflexivity | vm_compute in Hl; discriminate].
Qed.

Lemma resizeMap_single_player_witness :
  exists g',
    resizeMap "#"%char (Some (rows_of ["o$"; "M+"]%string)) 2 2 = Done (Some g', 4, 4) /\
    shape g' 4 4 /\
    only_player_at g' 0 0.
Proof.
  apply (resizeMap_single_player "#"%char (rows_of ["o$"; "M+"]%string) 2 2 0 0
           sample_tiles_distinct).
  - solve_shape.
  - lia.
  - unfold INT32_MAX. lia.
  - unfold INT32_MAX. lia.
  - exact sample_grid_only_player.
Defined.

Lemma resizeMap_null_map_witness :
  resizeMap "#"%char None 1 1 = Fault NullPointer.
Proof.
  apply (resizeMap_null_map "#"%char 1 1); unfold INT32_MAX; lia.
Defined.

Lemma resizeMap_of_createMap_witness :
  exists g g',
    createMap "#"%char 1 2 = Done (Some g) /\
    resizeMap "#"%char (Some g) 1 2 = Done (Some g', 2, 4) /\
    createMap "#"%char 2 4 = Done (Some g').
Proof.
  apply (resizeMap_of_createMap "#"%char 1 2); unfold INT32_MAX; lia.
Defined.


Lemma loadLevel_row_major_witness :
  exists g,
    loadLevel "#"%char room_level "room.txt" 7 8 (mkPlayer 5 6 0)
      = Done (Some g, 3, 3, mkPlayer 1 1 0) /\
    shape g 3 3 /\
    forall r c, 0 <= r < 3 -> 0 <= c < 3 ->
      exists x,
        list_ascii_of_string "-$M---+?!" !! Z.to_nat (r * 3 + c) = Some x /\
        load_cell g r c = Done (if bool_decide ((r, c) = (1, 1)) then TILE_PLAYER else x).
Proof.
  refine (loadLevel_row_major "#"%char room_level "room.txt"
            (list_ascii_of_string "3 3 1 1 - $ M - - - + ? !") 7 8 (mkPlayer 5 6 0)
            eq_refl eq_refl _ _ _ _).
  - vm_compute. reflexivity.
  - change (0 <= 1 < 3). lia.
  - change (0 <= 1 < 3). lia.
  - vm_compute. discriminate.
Defined.

(** * Moves at the edges of the status table *)

Section MoveEdges.
Context `{LogicH}.

(** Writing Open and then Player into a cell that held Player gives
    the storage back. *)
Lemma restamp_player (g g1 g2 : grid) (R C pr pc : Z) :
  shape g R C ->
  load_cell g pr pc = Done TILE_PLAYER ->
  store_cell g pr pc TILE_OPEN = Done g1 ->
  store_cell g1 pr pc TILE_PLAYER = Done g2 ->
  g2 = g.
Proof.
  intros Hs Hp Hg1 Hg2.
  assert (Hs2 : shape g2 R C).
  { eapply store_cell_shape; [|exact Hg2]. eapply store_cell_shape; [exact Hs|exact Hg1]. }
  apply (grid_ext g g2 R C Hs Hs2). intros r c.
  destruct (decide ((r, c) = (pr, pc))) as [[= -> ->]|Hne].
  - rewrite (load_store_same _ _ _ _ _ Hg2). symmetry. exact Hp.
  - rewrite (load_store_other _ _ _ _ _ _ _ Hg2 Hne).
    exact (load_store_other _ _ _ _ _ _ _ Hg1 Hne).
Qed.

(** X19.  The Exit with a negative treasure count.  The code returns
    [STATUS_STAY] on a count of 0 and sets [STATUS_ESCAPE] on a
    positive one; on a negative count neither test holds, and the
    player steps onto the Exit with [STATUS_MOVE]. *)
Theorem doPlayerMove_exit_negative_treasure
  (maxRow maxCol nextRow nextCol : Z) (w : World) :
  tiles_distinct ->
  shape (cells w) maxRow maxCol ->
  0 <= row (player w) < maxRow -> 0 <= col (player w) < maxCol ->
  0 <= nextRow < maxRow -> 0 <= nextCol < maxCol ->
  load_cell (cells w) nextRow nextCol = Done TILE_EXIT ->
  treasure (player w) < 0 ->
  exists g',
    doPlayerMove maxRow maxCol nextRow nextCol w
      = Done (STATUS_MOVE, mkWorld g' (mkPlayer nextRow nextCol (treasure (player w)))) /\
    load_cell g' nextRow nextCol = Done TILE_PLAYER.
Proof.
  intros Hd Hs Hpr Hpc Hnr Hnc Hx Hneg.
  destruct (tiles_distinct_items Hd) as (Hde & _ & Hea & _ & Het & _).
  pose proof Hd as Hnd. unfold tiles_distinct in Hnd.
  assert (Hep : TILE_EXIT <> TILE_PILLAR /\ TILE_EXIT <> TILE_MONSTER).
  { repeat match goal with
           | Hn : NoDup (_ :: _) |- _ => apply NoDup_cons in Hn as [? Hn]
           end.
    repeat match goal with
           | Hn : _ ∉ _ :: _ |- _ => apply not_elem_of_cons in Hn as [? Hn]
           end.
    split; congruence. }
  destruct Hep as [Hxp Hxm].
  destruct (move_writes _ _ _ _ _ _ _ Hs Hpr Hpc Hnr Hnc) as (g1 & g2 & Hg1 & Hg2 & _).
  exists g2. split; [|exact (load_store_same _ _ _ _ _ Hg2)].
  unfold doPlayerMove. rewrite (target_in_bounds _ _ _ _ Hnr Hnc). run_turn. rewrite Hx.
  rewrite (bool_decide_eq_false_2 (TILE_EXIT = TILE_PILLAR)) by exact Hxp.
  rewrite (bool_decide_eq_false_2 (TILE_EXIT = TILE_MONSTER)) by exact Hxm.
  rewrite (bool_decide_eq_false_2 (TILE_EXIT = TILE_DOOR)) by congruence.
  rewrite (bool_decide_eq_false_2 (TILE_EXIT = TILE_AMULET)) by congruence.
  rewrite (bool_decide_eq_false_2 (TILE_EXIT = TILE_TREASURE)) by congruence.
  rewrite (bool_decide_eq_true_2 (TILE_EXIT = TILE_EXIT)) by reflexivity. simpl.
  destruct (treasure (player w) =? 0) eqn:E0; [lia|].
  destruct (treasure (player w) >? 0) eqn:E1; [lia|]. simpl.
  rewrite Hg1. simpl. rewrite Hg2. reflexivity.
Qed.

(** X20.  The treasure count is incremented without a test: on a
    Treasure tile with the count at [INT32_MAX] the increment
    overflows. *)
Theorem doPlayerMove_treasure_overflow
  (maxRow maxCol nextRow nextCol : Z) (w : World) :
  tiles_distinct ->
  0 <= nextRow < maxRow -> 0 <= nextCol < maxCol ->
  load_cell (cells w) nextRow nextCol = Done TILE_TREASURE ->
  treasure (player w) = INT32_MAX ->
  doPlayerMove maxRow maxCol nextRow nextCol w = Fault SignedOverflow.
Proof.
  intros Hd Hnr Hnc Hx Hmax.
  destruct (tiles_distinct_facts Hd) as (_ & _ & _ & _ & _ & _ & Htp & Htm & Hte & _).
  unfold doPlayerMove. rewrite (target_in_bounds _ _ _ _ Hnr Hnc). run_turn. rewrite Hx.
  rewrite (bool_decide_eq_false_2 (TILE_TREASURE = TILE_PILLAR)) by exact Htp.
  rewrite (bool_decide_eq_false_2 (TILE_TREASURE = TILE_MONSTER)) by exact Htm.
  rewrite (bool_decide_eq_false_2 (TILE_TREASURE = TILE_EXIT)) by exact Hte.
  rewrite (bool_decide_eq_true_2 (TILE_TREASURE = TILE_TREASURE)) by reflexivity. simpl.
  rewrite Hmax. reflexivity.
Qed.

(** X21.  A key that is none of the four directions.  [getDirection]
    leaves the coordinates as they are, so the target of the move is
    the player's own cell; it holds Player, which stops no move, and
    the call writes Open and then Player into it: the world is the one
    given, and the status is [STATUS_MOVE], not [STATUS_STAY]. *)
Theorem key_press_other_key (maxRow maxCol : Z) (input : ascii) (w : World) :
  tiles_distinct ->
  wf_world maxRow maxCol w ->
  load_cell (cells w) (row (player w)) (col (player w)) = Done TILE_PLAYER ->
  input <> MOVE_UP -> input <> MOVE_DOWN -> input <> MOVE_LEFT -> input <> MOVE_RIGHT ->
  getDirection input (row (player w)) (col (player w))
    = Done (row (player w), col (player w)) /\
  doPlayerMove maxRow maxCol (row (player w)) (col (player w)) w = Done (STATUS_MOVE, w).
Proof.
  intros Hd (Hs & HR & HC & Hpr & Hpc) Hp Hu Hdn Hl Hr.
  split.
  - unfold getDirection.
    rewrite (bool_decide_eq_false_2 (input = MOVE_UP)) by exact Hu.
    rewrite (bool_decide_eq_false_2 (input = MOVE_DOWN)) by exact Hdn.
    rewrite (bool_decide_eq_false_2 (input = MOVE_LEFT)) by exact Hl.
    rewrite (bool_decide_eq_false_2 (input = MOVE_RIGHT)) by exact Hr. reflexivity.
  - pose proof Hd as Hnd. unfold tiles_distinct in Hnd.
    assert (Hpl : TILE_PLAYER <> TILE_PILLAR /\ TILE_PLAYER <> TILE_MONSTER /\
                  TILE_PLAYER <> TILE_DOOR /\ TILE_PLAYER <> TILE_EXIT /\
                  TILE_PLAYER <> TILE_AMULET /\ TILE_PLAYER <> TILE_TREASURE).
    { repeat match goal with
             | Hn : NoDup (_ :: _) |- _ => apply NoDup_cons in Hn as [? Hn]
             end.
      repeat match goal with
             | Hn : _ ∉ _ :: _ |- _ => apply not_elem_of_cons in Hn as [? Hn]
             end.
      repeat split; congruence. }
    destruct Hpl as (Hpp & Hpm & Hpd & Hpe & Hpa & Hpt).
    destruct (move_writes _ _ _ _ _ _ _ Hs Hpr Hpc Hpr Hpc) as (g1 & g2 & Hg1 & Hg2 & _).
    pose proof (restamp_player _ _ _ _ _ _ _ Hs Hp Hg1 Hg2) as ->.
    unfold doPlayerMove. rewrite (target_in_bounds _ _ _ _ Hpr Hpc). run_turn. rewrite Hp.
    rewrite (bool_decide_eq_false_2 (TILE_PLAYER = TILE_PILLAR)) by exact Hpp.
    rewrite (bool_decide_eq_false_2 (TILE_PLAYER = TILE_MONSTER)) by exact Hpm.
    rewrite (bool_decide_eq_false_2 (TILE_PLAYER = TILE_DOOR)) by exact Hpd.
    rewrite (bool_decide_eq_false_2 (TILE_PLAYER = TILE_EXIT)) by exact Hpe.
    rewrite (bool_decide_eq_false_2 (TILE_PLAYER = TILE_AMULET)) by exact Hpa.
    rewrite (bool_decide_eq_false_2 (TILE_PLAYER = TILE_TREASURE)) by exact Hpt. simpl.
    rewrite Hg1. simpl. rewrite Hg2.
    destruct w as [g [r c t]]. reflexivity.
Qed.

End MoveEdges.

Lemma doPlayerMove_exit_negative_treasure_witness :
  exists g',
    doPlayerMove 3 3 1 2 (small_room_with (-1))
      = Done (STATUS_MOVE, mkWorld g' (mkPlayer 1 2 (-1))) /\
    load_cell g' 1 2 = Done TILE_PLAYER.
Proof.
  apply (doPlayerMove_exit_negative_treasure 3 3 1 2 (small_room_with (-1))
           sample_tiles_distinct).
  - solve_shape.
  - simpl. lia.
  - simpl. lia.
  - lia.
  - lia.
  - vm_compute. reflexivity.
  - simpl. lia.
Defined.

Lemma doPlayerMove_treasure_overflow_witness :
  doPlayerMove 3 3 1 0 (small_room_with INT32_MAX) = Fault SignedOverflow.
Proof.
  apply (doPlayerMove_treasure_overflow 3 3 1 0 (small_room_with INT32_MAX)
           sample_tiles_distinct).
  - lia.
  - lia.
  - vm_compute. reflexivity.
  - reflexivity.
Defined.

Lemma key_press_other_key_witness :
  getDirection "x"%char (row (player small_room)) (col (player small_room))
    = Done (row (player small_room), col (player small_room)) /\
  doPlayerMove 3 3 (row (player small_room)) (col (player small_room)) small_room
    = Done (STATUS_MOVE, small_room).
Proof.
  apply (key_press_other_key 3 3 "x"%char small_room sample_tiles_distinct small_room_wf).
  - vm_compute. reflexivity.
  - vm_compute. discriminate.
  - vm_compute. discriminate.
  - vm_compute. discriminate.
  - vm_compute. discriminate.
Defined.
